(** * libpag animation core: layer timeline, transform replacement,
      text motion presets and the slide-left preset

    A shallow embedding of
    - [src/rendering/layers/PAGLayer.cpp]        (module [Timeline]),
    - [src/rendering/layers/PAGTextLayer.cpp]    (module [Timeline]),
    - [src/rendering/animation/TextMotionPreset.cpp] (module [TextMotion]),
    - [src/rendering/animation/SlideLeftPreset.cpp]  (modules [Slide],
      [SlideLeftGlyphProvider] and [SlideLeftPreset]),
    followed by the properties proved about them.

    Conventions.
    - [Frame], [int64_t], [size_t] and [int] values are integers ([Z]) or
      naturals ([nat], for container sizes and indices); no arithmetic in
      the modelled code comes near the bounds of the machine types.
    - [float] and [double] values are [FP.double]: a finite value is an exact
      rational (rounding is not modelled), and [NaN] is kept because every
      comparison with it is false, which the control flow of the source
      depends on. Infinities are not modelled: what is stated of a [double]
      is stated of the finite values and of NaN. The frame conversions
      between nested timelines are the exception: they are computed in
      IEEE 754 binary32 ([F32]), as the source computes them in [float].
    - Objects reached through pointers live in a store ([gmap nat _]); a
      pointer is the key, a null pointer is [None].
    - Locks are never taken in the model: it describes what one call does
      while it holds the tree's lock. *)

From Stdlib Require Import ZArith QArith Qround Qabs Lia Lqa Bool String Ascii.
From Stdlib Require Import Floats.SpecFloat.
From stdpp Require Import gmap list.

Open Scope Z_scope.

(** ** Floating-point values *)

Module FP.

Inductive double : Type :=
| NaN
| Fin (q : Q).

Definition float : Type := double.

Definition lift2 (f : Q -> Q -> Q) (a b : double) : double :=
  match a, b with
  | Fin x, Fin y => Fin (f x y)
  | _, _ => NaN
  end.

Definition add : double -> double -> double := lift2 Qplus.
Definition sub : double -> double -> double := lift2 Qminus.
Definition mul : double -> double -> double := lift2 Qmult.

(** A division by zero gives an infinity or a NaN in the source; the model
    has no infinities and answers [NaN]. *)
Definition div (a b : double) : double :=
  match a, b with
  | Fin x, Fin y => if Qeq_bool y 0 then NaN else Fin (x / y)
  | _, _ => NaN
  end.

Definition opp (a : double) : double :=
  match a with
  | Fin x => Fin (- x)
  | NaN => NaN
  end.

Definition lt (a b : double) : bool :=
  match a, b with
  | Fin x, Fin y => negb (Qle_bool y x)
  | _, _ => false
  end.

Definition le (a b : double) : bool :=
  match a, b with
  | Fin x, Fin y => Qle_bool x y
  | _, _ => false
  end.

Definition gt (a b : double) : bool := lt b a.
Definition ge (a b : double) : bool := le b a.

Definition of_int (z : Z) : double := Fin (inject_Z z).

Definition zero : double := Fin 0.
Definition one : double := Fin 1.

(** [std::max(a, b)] is [(a < b) ? b : a], [std::min(a, b)] is
    [(b < a) ? b : a], [std::clamp(v, lo, hi)] is
    [(v < lo) ? lo : (hi < v) ? hi : v]. *)
Definition max (a b : double) : double := if lt a b then b else a.
Definition min (a b : double) : double := if lt b a then b else a.
Definition clamp (v lo hi : double) : double :=
  if lt v lo then lo else if lt hi v then hi else v.

Definition abs (a : double) : double :=
  match a with
  | Fin x => Fin (Qabs x)
  | NaN => NaN
  end.

(** Rounding to the nearest integer, halfway cases away from zero
    ([llround]). *)
Definition round_away (q : Q) : Z :=
  if Qle_bool 0 q then Qfloor (q + (1 # 2)) else Qceiling (q - (1 # 2)).

(** [std::llround] of a NaN is an unspecified value; 0 stands for it. The
    result is unspecified as well when the rounded value does not fit a
    [long long]; the model rounds such a value like any other, and the
    properties that go through [llround] keep its argument within the
    range. *)
Definition llround (a : double) : Z :=
  match a with
  | Fin q => round_away q
  | NaN => 0
  end.

(** Two values are the same number. *)
Definition same (a b : double) : Prop :=
  match a, b with
  | NaN, NaN => True
  | Fin x, Fin y => (x == y)%Q
  | _, _ => False
  end.

Definition is_nan (a : double) : bool :=
  match a with
  | NaN => true
  | Fin _ => false
  end.

End FP.

Export FP (double, float, NaN, Fin).

(** ** Single-precision arithmetic

    IEEE 754 binary32 as the Standard Library specifies it ([SpecFloat]): a
    24-bit significand, rounding to the nearest value with ties to even,
    signed zeros, infinities and NaN. *)

Module F32.

Definition prec : Z := 24.
Definition emax : Z := 128.

Definition float32 : Type := spec_float.

(** The conversion of an integer to [float]. *)
Definition of_Z (z : Z) : float32 := binary_normalize prec emax z 0 false.

(** The binary32 value nearest to a rational. *)
Definition of_Q (q : Q) : float32 :=
  match Qnum q with
  | Z0 => S754_zero false
  | Zpos n =>
      let '(mz, ez, lz) := SFdiv_core_binary prec emax (Zpos n) 0 (Zpos (Qden q)) 0 in
      binary_round_aux prec emax false mz ez lz
  | Zneg n =>
      let '(mz, ez, lz) := SFdiv_core_binary prec emax (Zpos n) 0 (Zpos (Qden q)) 0 in
      binary_round_aux prec emax true mz ez lz
  end.

(** The value a [float] of the model holds in the source. *)
Definition of_double (a : FP.double) : float32 :=
  match a with
  | Fin q => of_Q q
  | NaN => S754_nan
  end.

Definition mul : float32 -> float32 -> float32 := SFmul prec emax.
Definition div : float32 -> float32 -> float32 := SFdiv prec emax.

(** [roundf]: to the nearest integer, halfway cases away from zero. *)
Definition roundf (x : float32) : float32 :=
  match x with
  | S754_finite s m e =>
      if 0 <=? e then x
      else
        let n := Z.shiftr (Zpos m) (- e) in
        let n' := if Z.testbit (Zpos m) (- e - 1) then n + 1 else n in
        match n' with
        | Zpos p => binary_round prec emax s p 0
        | _ => S754_zero s
        end
  | _ => x
  end.

(** [static_cast<Frame>(x)]: truncation toward zero; undefined ([None]) on
    a NaN, on an infinity and on a value outside the range of [int64_t]. *)
Definition to_Z (x : float32) : option Z :=
  match x with
  | S754_zero _ => Some 0
  | S754_finite s m e =>
      let n := if 0 <=? e then Z.shiftl (Zpos m) e else Z.shiftr (Zpos m) (- e) in
      let z := if s then - n else n in
      if (-9223372036854775808 <=? z) && (z <? 9223372036854775808) then Some z else None
  | _ => None
  end.

End F32.

(** ** Points, keyframes, properties and the 2D transform *)

Module Base.

Record Point : Type := MkPoint { x : float; y : float }.

Definition Point_Make (px py : float) : Point := MkPoint px py.
Definition Point_Zero : Point := MkPoint FP.zero FP.zero.

Record Point3D : Type := MkPoint3D { x3 : float; y3 : float; z3 : float }.

Definition Point3D_Zero : Point3D := MkPoint3D FP.zero FP.zero FP.zero.

(** [Opacity] is an 8-bit channel. *)
Definition Opacity : Type := Z.
Definition Opaque : Opacity := 255.
Definition Transparent : Opacity := 0.

Inductive KeyframeInterpolationType : Type :=
| Linear
| Bezier.

(** The concrete class a keyframe object was created as. *)
Inductive KeyframeClass : Type :=
| PlainKeyframe
| SingleEaseKeyframe
| MultiDimensionPointKeyframe.

Record Keyframe (T : Type) : Type := MkKeyframe {
  kfClass : KeyframeClass;
  startValue : T;
  endValue : T;
  startTime : Z;
  endTime : Z;
  interpolationType : KeyframeInterpolationType;
  bezierOut : list Point;
  bezierIn : list Point;
  spatialOut : Point3D;
  spatialIn : Point3D
}.

Arguments MkKeyframe {T}.
Arguments kfClass {T}.
Arguments startValue {T}.
Arguments endValue {T}.
Arguments startTime {T}.
Arguments endTime {T}.
Arguments interpolationType {T}.
Arguments bezierOut {T}.
Arguments bezierIn {T}.
Arguments spatialOut {T}.
Arguments spatialIn {T}.

(** [Property<T>] with its [value] member; [keyframes] is [Some] for an
    [AnimatableProperty<T>]. *)
Record Property (T : Type) : Type := MkProperty {
  value : T;
  keyframes : option (list (Keyframe T))
}.

Arguments MkProperty {T}.
Arguments value {T}.
Arguments keyframes {T}.

Definition animatable {T : Type} (p : Property T) : bool :=
  match keyframes p with
  | Some _ => true
  | None => false
  end.

(** [new Property<T>(v)]. *)
Definition Property_new {T : Type} (v : T) : Property T :=
  MkProperty v None.

(** Modelled from the spec: the constructor [AnimatableProperty<T>(keyframes)]
    is not under src/. By section 4.1 an animatable property clamps to the
    first keyframe's start value before its first keyframe; the new object's
    [value] member is taken to be that value ([fallback] when the list is
    empty, which the constructor's callers never pass). *)
Definition AnimatableProperty_new {T : Type} (fallback : T)
    (kfs : list (Keyframe T)) : Property T :=
  MkProperty (match kfs with
              | k :: _ => startValue k
              | [] => fallback
              end) (Some kfs).

Record Transform2D : Type := MkTransform2D {
  anchorPoint : option (Property Point);
  position : option (Property Point);
  xPosition : option (Property float);
  yPosition : option (Property float);
  scale : option (Property Point);
  rotation : option (Property float);
  opacity : option (Property Opacity)
}.

(** Modelled from the spec: [Transform2D::MakeDefault] is not under src/.
    Its callers under src/ dereference [anchorPoint], [position], [scale],
    [rotation] and [opacity] of the result without a null check, so these
    five are populated; section 3 makes [xPosition]/[yPosition] exclusive
    with [position], so they are left empty. *)
Definition Transform2D_MakeDefault : Transform2D :=
  {| anchorPoint := Some (Property_new Point_Zero);
     position := Some (Property_new Point_Zero);
     xPosition := None;
     yPosition := None;
     scale := Some (Property_new (Point_Make FP.one FP.one));
     rotation := Some (Property_new FP.zero);
     opacity := Some (Property_new Opaque) |}.

(** [CloneKeyframeDerived<Point>]. *)
Definition CloneKeyframeDerived_Point (k : Keyframe Point) : Keyframe Point :=
  {| kfClass := MultiDimensionPointKeyframe;
     startValue := startValue k;
     endValue := endValue k;
     startTime := startTime k;
     endTime := endTime k;
     interpolationType := interpolationType k;
     bezierOut := bezierOut k;
     bezierIn := bezierIn k;
     spatialOut := spatialOut k;
     spatialIn := spatialIn k |}.

(** [CloneKeyframeDerived<float>] and [CloneKeyframeDerived<Opacity>]: the
    spatial control points are not copied. *)
Definition CloneKeyframeDerived_scalar {T : Type} (k : Keyframe T) : Keyframe T :=
  {| kfClass := SingleEaseKeyframe;
     startValue := startValue k;
     endValue := endValue k;
     startTime := startTime k;
     endTime := endTime k;
     interpolationType := interpolationType k;
     bezierOut := bezierOut k;
     bezierIn := bezierIn k;
     spatialOut := Point3D_Zero;
     spatialIn := Point3D_Zero |}.

(** [DeepCloneProperty<T>], given the specialization of
    [CloneKeyframeDerived<T>]. *)
Definition DeepCloneProperty {T : Type} (cloneKeyframe : Keyframe T -> Keyframe T)
    (src : option (Property T)) : option (Property T) :=
  match src with
  | None => None
  | Some p =>
      match keyframes p with
      | Some kfs => Some (AnimatableProperty_new (value p) (map cloneKeyframe kfs))
      | None => Some (Property_new (value p))
      end
  end.

Definition DeepClone_Point := DeepCloneProperty CloneKeyframeDerived_Point.
Definition DeepClone_float := DeepCloneProperty (@CloneKeyframeDerived_scalar float).
Definition DeepClone_Opacity := DeepCloneProperty (@CloneKeyframeDerived_scalar Opacity).

(** The body of [PAGLayer::setTransform2D] between the null checks and the
    cache rebuild: [target] is [layer->transform] (already replaced by a
    default transform when it was null). *)
Definition writeTransform2D (transform2d target : Transform2D) : Transform2D :=
  let t1 :=
    match anchorPoint transform2d with
    | Some _ =>
        {| anchorPoint := DeepClone_Point (anchorPoint transform2d);
           position := position target;
           xPosition := xPosition target;
           yPosition := yPosition target;
           scale := scale target;
           rotation := rotation target;
           opacity := opacity target |}
    | None => target
    end in
  let t2 :=
    match position transform2d with
    | Some _ =>
        {| anchorPoint := anchorPoint t1;
           position := DeepClone_Point (position transform2d);
           xPosition := None;
           yPosition := None;
           scale := scale t1;
           rotation := rotation t1;
           opacity := opacity t1 |}
    | None =>
        {| anchorPoint := anchorPoint t1;
           position := None;
           xPosition := match xPosition transform2d with
                        | Some _ => DeepClone_float (xPosition transform2d)
                        | None => xPosition t1
                        end;
           yPosition := match yPosition transform2d with
                        | Some _ => DeepClone_float (yPosition transform2d)
                        | None => yPosition t1
                        end;
           scale := scale t1;
           rotation := rotation t1;
           opacity := opacity t1 |}
    end in
  {| anchorPoint := anchorPoint t2;
     position := position t2;
     xPosition := xPosition t2;
     yPosition := yPosition t2;
     scale := match scale transform2d with
              | Some _ => DeepClone_Point (scale transform2d)
              | None => scale t2
              end;
     rotation := match rotation transform2d with
                 | Some _ => DeepClone_float (rotation transform2d)
                 | None => rotation t2
                 end;
     opacity := match opacity transform2d with
                | Some _ => DeepClone_Opacity (opacity transform2d)
                | None => opacity t2
                end |}.

(** The copy built by [PAGLayer::getTransform2D] from [layer->transform]. *)
Definition copyTransform2D (src : Transform2D) : Transform2D :=
  {| anchorPoint := DeepClone_Point (anchorPoint src);
     position := match position src with
                 | Some _ => DeepClone_Point (position src)
                 | None => None
                 end;
     xPosition := match position src with
                  | Some _ => None
                  | None => DeepClone_float (xPosition src)
                  end;
     yPosition := match position src with
                  | Some _ => None
                  | None => DeepClone_float (yPosition src)
                  end;
     scale := DeepClone_Point (scale src);
     rotation := DeepClone_float (rotation src);
     opacity := DeepClone_Opacity (opacity src) |}.

End Base.

Import Base.

(** ** Text layers *)

Module Text.

Record TextDocument : Type := MkTextDocument {
  text : string;
  fontSize : float;
  fontFamily : string;
  fontStyle : string
}.

(** A [GlyphHandle] is a possibly null pointer to a glyph; [getName] is the
    only member read. *)
Definition GlyphHandle : Type := option string.

(** The enumerators are declared outside src/; [Character] is the value 0. *)
Inductive AnchorPointGrouping : Type :=
| Character
| Word
| Line
| All.

Record TextMoreOptions : Type := MkTextMoreOptions {
  anchorPointGrouping : AnchorPointGrouping;
  groupingAlignment : option (Property Point)
}.

Inductive TextRangeSelectorUnits : Type := Percentage | Index.
Inductive TextSelectorBasedOn : Type := Characters | Words.
Inductive TextSelectorMode : Type := Add | Subtract.
Inductive TextRangeSelectorShape : Type := Square | Round.

Definition Percent : Type := float.

Record TextRangeSelector : Type := MkTextRangeSelector {
  start : Property Percent;
  end_ : Property Percent;
  offset : Property float;
  units : TextRangeSelectorUnits;
  basedOn : TextSelectorBasedOn;
  mode : Property TextSelectorMode;
  amount : Property Percent;
  shape : TextRangeSelectorShape;
  smoothness : Property Percent;
  easeHigh : Property Percent;
  easeLow : Property Percent;
  randomizeOrder : bool;
  randomSeed : Property Z
}.

Record TextAnimatorTypographyProperties : Type := MkTypography {
  scale : option (Property Point);
  position : option (Property Point);
  rotation : option (Property float);
  opacity : option (Property Opacity)
}.

Record TextAnimator : Type := MkTextAnimator {
  selectors : list TextRangeSelector;
  typographyProperties : option TextAnimatorTypographyProperties
}.

(** The members of [Layer] and of its subclass [TextLayer] that the code
    under src/ reads or writes. [sourceText] is the document handle held by
    the layer's source-text property ([None] when the handle is null). *)
Record TextLayer : Type := MkTextLayer {
  transform : option Transform2D;
  startTime : Z;
  duration : Z;
  isActive : bool;
  sourceText : option TextDocument;
  animators : list TextAnimator;
  moreOption : option TextMoreOptions
}.

Definition set_transform (v : option Transform2D) (l : TextLayer) : TextLayer :=
  MkTextLayer v (startTime l) (duration l) (isActive l) (sourceText l)
    (animators l) (moreOption l).

Definition set_animators (v : list TextAnimator) (l : TextLayer) : TextLayer :=
  MkTextLayer (transform l) (startTime l) (duration l) (isActive l) (sourceText l)
    v (moreOption l).

Definition set_moreOption (v : option TextMoreOptions) (l : TextLayer) : TextLayer :=
  MkTextLayer (transform l) (startTime l) (duration l) (isActive l) (sourceText l)
    (animators l) v.

(** Modelled from the spec: [TextLayer::getTextDocument] is not under src/;
    it hands out the document of the layer's source text. *)
Definition getTextDocument (layer : TextLayer) : option TextDocument :=
  sourceText layer.

End Text.

(** ** Collaborators outside src/

    The helpers of [base/utils/TimeUtil.h], the layer cache's frame
    comparison, the text layout and the default text options are used by the
    code under src/ but defined elsewhere. The development is parametric in
    them. *)

Class External : Type := MkExternal {
  (** [TimeToFrame(time, frameRate)], [FrameToTime(frame, frameRate)],
      [ProgressToTime(progress, duration)],
      [FrameToProgress(frame, totalFrames)] *)
  TimeToFrame : Z -> float -> Z;
  FrameToTime : Z -> float -> Z;
  ProgressToTime : double -> Z -> Z;
  FrameToProgress : Z -> Z -> double;
  (** [LayerCache::checkFrameChanged(contentFrame, oldContentFrame)] of the
      cache of a layer *)
  checkFrameChanged : option Text.TextLayer -> Z -> Z -> bool;
  (** the glyphs of [GetLines(textDocument, layer->pathOption)], line by
      line *)
  GetLines : Text.TextDocument -> list (list Text.GlyphHandle);
  (** [new TextMoreOptions()] *)
  TextMoreOptions_new : Text.TextMoreOptions
}.

(** ** PAGLayer and PAGTextLayer *)

Module Timeline.

Record File : Type := MkFile { frameRate : float }.

(** A [PAGLayer] object. Pointers to other layers ([_parent],
    [trackMatteOwner], [_trackMatteLayer]) are keys of the store; [stage]
    is the address of a stage and [rootLocker] names a mutex object.
    [glyphTransform] tells whether a glyph transform provider is installed
    on a text layer. Members that no modelled function reads (matrix, alpha,
    visibility, unique id) are left out. *)
Record PAGLayer : Type := MkPAGLayer {
  layer : option Text.TextLayer;
  file : option File;
  _parent : option nat;
  trackMatteOwner : option nat;
  _trackMatteLayer : option nat;
  startFrame : Z;
  contentFrame : Z;
  contentVersion : Z;
  audioVersion : Z;
  stage : option nat;
  rootLocker : nat;
  glyphTransform : bool
}.

Definition set_layer (v : option Text.TextLayer) (l : PAGLayer) : PAGLayer :=
  MkPAGLayer v (file l) (_parent l) (trackMatteOwner l) (_trackMatteLayer l)
    (startFrame l) (contentFrame l) (contentVersion l) (audioVersion l)
    (stage l) (rootLocker l) (glyphTransform l).

Definition set_contentFrame (v : Z) (l : PAGLayer) : PAGLayer :=
  MkPAGLayer (layer l) (file l) (_parent l) (trackMatteOwner l) (_trackMatteLayer l)
    (startFrame l) v (contentVersion l) (audioVersion l)
    (stage l) (rootLocker l) (glyphTransform l).

Definition set_contentVersion (v : Z) (l : PAGLayer) : PAGLayer :=
  MkPAGLayer (layer l) (file l) (_parent l) (trackMatteOwner l) (_trackMatteLayer l)
    (startFrame l) (contentFrame l) v (audioVersion l)
    (stage l) (rootLocker l) (glyphTransform l).

Definition set_audioVersion (v : Z) (l : PAGLayer) : PAGLayer :=
  MkPAGLayer (layer l) (file l) (_parent l) (trackMatteOwner l) (_trackMatteLayer l)
    (startFrame l) (contentFrame l) (contentVersion l) v
    (stage l) (rootLocker l) (glyphTransform l).

Definition set_stage (v : option nat) (l : PAGLayer) : PAGLayer :=
  MkPAGLayer (layer l) (file l) (_parent l) (trackMatteOwner l) (_trackMatteLayer l)
    (startFrame l) (contentFrame l) (contentVersion l) (audioVersion l)
    v (rootLocker l) (glyphTransform l).

Definition set_rootLocker (v : nat) (l : PAGLayer) : PAGLayer :=
  MkPAGLayer (layer l) (file l) (_parent l) (trackMatteOwner l) (_trackMatteLayer l)
    (startFrame l) (contentFrame l) (contentVersion l) (audioVersion l)
    (stage l) v (glyphTransform l).

Definition set_glyphTransform (v : bool) (l : PAGLayer) : PAGLayer :=
  MkPAGLayer (layer l) (file l) (_parent l) (trackMatteOwner l) (_trackMatteLayer l)
    (startFrame l) (contentFrame l) (contentVersion l) (audioVersion l)
    (stage l) (rootLocker l) v.

(** The layers of a process, by address. *)
Abbreviation Store := (gmap nat PAGLayer).

(** The store together with the allocator of mutex objects:
    [std::make_shared<std::mutex>()] returns the object [nextLocker] and
    no later allocation returns it again. *)
Record World : Type := MkWorld {
  layers : Store;
  nextLocker : nat
}.

Section Operations.

Context {E : External}.

Definition frameRateInternal (l : PAGLayer) : float :=
  match file l with
  | Some f => frameRate f
  | None => FP.of_int 60
  end.

(** [frameDuration()] is [layer->duration]; an object built around a null
    [Layer] has no frames to report. *)
Definition frameDuration (l : PAGLayer) : Z :=
  match layer l with
  | Some ly => Text.duration ly
  | None => 0
  end.

Definition stretchedFrameDuration (l : PAGLayer) : Z := frameDuration l.
Definition stretchedContentFrame (l : PAGLayer) : Z := contentFrame l.

Definition startTimeInternal (l : PAGLayer) : Z :=
  FrameToTime (startFrame l) (frameRateInternal l).

Definition durationInternal (l : PAGLayer) : Z :=
  FrameToTime (stretchedFrameDuration l) (frameRateInternal l).

Definition getProgressInternal (l : PAGLayer) : double :=
  FrameToProgress (stretchedContentFrame l) (stretchedFrameDuration l).

Definition getProgress (this : nat) (h : Store) : option double :=
  getProgressInternal <$> h !! this.

Definition getParentOrOwner (l : PAGLayer) : option nat :=
  match _parent l with
  | Some p => Some p
  | None => trackMatteOwner l
  end.

Definition getTimelineOwner (h : Store) (l : PAGLayer) : option nat :=
  match _parent l with
  | Some p => Some p
  | None =>
      match trackMatteOwner l with
      | Some o => h !! o ≫= _parent
      | None => None
      end
  end.

(** *** Version counters *)

Definition bumpContentVersion (p : nat) (h : Store) : Store :=
  alter (fun l => set_contentVersion (contentVersion l + 1) l) p h.

(** The loop of [notifyModified]. It runs for ever on a cyclic owner chain;
    the model stops after [fuel] steps, and [notifyModified] gives it one
    step per layer of the store. *)
Fixpoint notifyAncestors (fuel : nat) (parentLayer : option nat) (h : Store) : Store :=
  match fuel, parentLayer with
  | S n, Some p =>
      notifyAncestors n (h !! p ≫= getParentOrOwner) (bumpContentVersion p h)
  | _, _ => h
  end.

Definition notifyModified (contentChanged : bool) (this : nat) (h : Store) : Store :=
  let h1 := if contentChanged then bumpContentVersion this h else h in
  notifyAncestors (size h) (h1 !! this ≫= getParentOrOwner) h1.

(** The layers the loop of [notifyModified] visits, in order. *)
Fixpoint ancestorWalk (fuel : nat) (parentLayer : option nat) (h : Store) : list nat :=
  match fuel, parentLayer with
  | S n, Some p => p :: ancestorWalk n (h !! p ≫= getParentOrOwner) h
  | _, _ => []
  end.

(** *** Time *)

(** [gotoTime]: the track matte first, then this layer's content frame. The
    recursion follows [_trackMatteLayer] pointers, one step of [fuel] per
    layer. *)
Fixpoint gotoTime (fuel : nat) (this : nat) (layerTime : Z) (h : Store) : bool * Store :=
  match fuel with
  | O => (false, h)
  | S n =>
      match h !! this with
      | None => (false, h)
      | Some l =>
          let r := match _trackMatteLayer l with
                   | Some m => gotoTime n m layerTime h
                   | None => (false, h)
                   end in
          match r.2 !! this with
          | None => r
          | Some l1 =>
              let layerFrame := TimeToFrame layerTime (frameRateInternal l1) in
              let oldContentFrame := contentFrame l1 in
              let newContentFrame := layerFrame - startFrame l1 in
              let h2 := <[this := set_contentFrame newContentFrame l1]> (r.2) in
              (if r.1 then true
               else checkFrameChanged (layer l1) newContentFrame oldContentFrame, h2)
          end
      end
  end.

(** [notifyModified()] without an argument passes [contentChanged = false]. *)
Definition gotoTimeAndNotifyChanged (this : nat) (targetTime : Z) (h : Store)
    : bool * Store :=
  let r := gotoTime (size h) this targetTime h in
  (r.1, if r.1 then notifyModified false this r.2 else r.2).

Definition setProgressInternal (percent : double) (this : nat) (h : Store) : Store :=
  match h !! this with
  | None => h
  | Some l =>
      (gotoTimeAndNotifyChanged this
         (startTimeInternal l + ProgressToTime percent (durationInternal l)) h).2
  end.

Definition setProgress (percent : double) (this : nat) (h : Store) : Store :=
  setProgressInternal percent this h.

(** *** Transform *)

Definition getTransform2D (this : nat) (h : Store) : option Transform2D :=
  l ← h !! this;
  ly ← layer l;
  tr ← Text.transform ly;
  Some (copyTransform2D tr).

(** [setTransform2D]. The rebuild of the layer cache is outside src/ and
    leaves the members modelled here alone. *)
Definition setTransform2D (transform2d : option Transform2D) (this : nat) (h : Store)
    : Store :=
  match transform2d with
  | None => h
  | Some t =>
      match h !! this with
      | None => h
      | Some l =>
          match layer l with
          | None => h
          | Some ly =>
              let target := match Text.transform ly with
                            | Some tr => tr
                            | None => Transform2D_MakeDefault
                            end in
              let ly' := Text.set_transform (Some (writeTransform2D t target)) ly in
              notifyModified true this (<[this := set_layer (Some ly') l]> h)
          end
      end
  end.

(** *** Frames across nested timelines

    The two conversion steps compute in [float]: the time scale is the
    binary32 quotient of the two frame rates, the frame is converted to
    [float] and multiplied by it in binary32, and [roundf] and the cast
    give the frame back.

    A conversion has no result ([None]) when it dereferences a pointer that
    is not in the store, casts a NaN, an infinity or a value out of the
    range of [Frame], or walks an owner chain that never ends. *)

Definition localFrameToChild (l : PAGLayer) (localFrame : Z) (childFrameRate : float)
    : option Z :=
  let timeScale :=
    F32.div (F32.of_double childFrameRate) (F32.of_double (frameRateInternal l)) in
  F32.to_Z (F32.roundf (F32.mul (F32.of_Z (localFrame - startFrame l)) timeScale)).

Definition childFrameToLocal (l : PAGLayer) (childFrame : Z) (childFrameRate : float)
    : option Z :=
  let timeScale :=
    F32.div (F32.of_double (frameRateInternal l)) (F32.of_double childFrameRate) in
  z ← F32.to_Z (F32.roundf (F32.mul (F32.of_Z childFrame) timeScale));
  Some (z + startFrame l).

Fixpoint localFrameToGlobal_loop (fuel : nat) (h : Store) (parent : option nat)
    (localFrame : Z) (childFrameRate : float) : option Z :=
  match parent with
  | None => Some localFrame
  | Some p =>
      match fuel with
      | O => None
      | S n =>
          pl ← h !! p;
          f ← childFrameToLocal pl localFrame childFrameRate;
          localFrameToGlobal_loop n h (getTimelineOwner h pl) f (frameRateInternal pl)
      end
  end.

Definition localFrameToGlobal (this : nat) (localFrame : Z) (h : Store) : option Z :=
  l ← h !! this;
  localFrameToGlobal_loop (size h) h (getTimelineOwner h l) localFrame
    (frameRateInternal l).

(** The vector [list] that [globalToLocalFrame] collects: the owners from
    the immediate one up to the root. *)
Fixpoint timelineOwners (fuel : nat) (h : Store) (owner : option nat)
    : option (list nat) :=
  match owner with
  | None => Some []
  | Some p =>
      match fuel with
      | O => None
      | S n =>
          pl ← h !! p;
          rest ← timelineOwners n h (getTimelineOwner h pl);
          Some (p :: rest)
      end
  end.

(** The second loop of [globalToLocalFrame], [i] running from [n - 1] down
    to 0. *)
Fixpoint globalToLocalFrame_loop (h : Store) (this : PAGLayer) (list : list nat)
    (n : nat) (globalFrame : Z) : option Z :=
  match n with
  | O => Some globalFrame
  | S i =>
      owner ← list !! i ≫= (h !!.);
      childFrameRate ← match i with
                        | O => Some (frameRateInternal this)
                        | S j => frameRateInternal <$> (list !! j ≫= (h !!.))
                        end;
      g ← localFrameToChild owner globalFrame childFrameRate;
      globalToLocalFrame_loop h this list i g
  end.

Definition globalToLocalFrame (this : nat) (globalFrame : Z) (h : Store) : option Z :=
  l ← h !! this;
  list ← timelineOwners (size h) h (getTimelineOwner h l);
  globalToLocalFrame_loop h l list (length list) globalFrame.

(** *** Attachment to a tree *)

(** [updateRootLocker]: the track matte first, then this layer. *)
Fixpoint updateRootLocker (fuel : nat) (this : nat) (newLocker : nat) (h : Store)
    : Store :=
  match fuel with
  | O => h
  | S n =>
      match h !! this with
      | None => h
      | Some l =>
          let h1 := match _trackMatteLayer l with
                    | Some m => updateRootLocker n m newLocker h
                    | None => h
                    end in
          alter (set_rootLocker newLocker) this h1
      end
  end.

(** [onAddToStage] and [onRemoveFromStage]. The stage's own table of
    references ([addReference], [removeReference]) is outside src/ and not
    part of the store. *)
Fixpoint onAddToStage (fuel : nat) (this : nat) (pagStage : nat) (h : Store) : Store :=
  match fuel with
  | O => h
  | S n =>
      match h !! this with
      | None => h
      | Some l =>
          let h1 := alter (set_stage (Some pagStage)) this h in
          match _trackMatteLayer l with
          | Some m => onAddToStage n m pagStage h1
          | None => h1
          end
      end
  end.

Fixpoint onRemoveFromStage (fuel : nat) (this : nat) (h : Store) : Store :=
  match fuel with
  | O => h
  | S n =>
      match h !! this with
      | None => h
      | Some l =>
          let h1 := alter (set_stage None) this h in
          match _trackMatteLayer l with
          | Some m => onRemoveFromStage n m h1
          | None => h1
          end
      end
  end.

Definition attachToTree (newLocker : nat) (newStage : option nat) (this : nat)
    (w : World) : World :=
  let h := layers w in
  let h1 := updateRootLocker (size h) this newLocker h in
  let h2 := match newStage with
            | Some s => onAddToStage (size h) this s h1
            | None => h1
            end in
  MkWorld h2 (nextLocker w).

Definition detachFromTree (this : nat) (w : World) : World :=
  let h := layers w in
  let h1 := match h !! this ≫= stage with
            | Some _ => onRemoveFromStage (size h) this h
            | None => h
            end in
  let locker := nextLocker w in
  MkWorld (updateRootLocker (size h) this locker h1) (S locker).

(** *** PAGTextLayer::Make *)

(** The object built by [PAGLayer(file, layer)], given the mutex it starts
    with. The initializer of [rootLocker] is in the class declaration,
    outside src/; by section 5 of the specification a layer outside any tree
    holds a mutex of its own, which the factories below allocate. *)
Definition PAGLayer_new (f : option File) (ly : option Text.TextLayer) (locker : nat)
    : PAGLayer :=
  {| layer := ly;
     file := f;
     _parent := None;
     trackMatteOwner := None;
     _trackMatteLayer := None;
     startFrame := match ly with
                   | Some t => Text.startTime t
                   | None => 0
                   end;
     contentFrame := 0;
     contentVersion := 0;
     audioVersion := 0;
     stage := None;
     rootLocker := locker;
     glyphTransform := false |}.

(** [PAGTextLayer::Make(duration, textDocumentHandle)]: a null result, or
    the address of the new layer. A new [TextLayer] starts at frame 0, is
    active and has no animators. *)
Definition PAGTextLayer_Make (duration : Z) (textDocumentHandle : option Text.TextDocument)
    (w : World) : option nat * World :=
  match duration <=? 0, textDocumentHandle with
  | true, _ | false, None => (None, w)
  | false, Some doc =>
        let position' := Property_new (Point_Make FP.zero (Text.fontSize doc)) in
        let transform :=
          {| anchorPoint := anchorPoint Transform2D_MakeDefault;
             position := Some position';
             xPosition := xPosition Transform2D_MakeDefault;
             yPosition := yPosition Transform2D_MakeDefault;
             scale := scale Transform2D_MakeDefault;
             rotation := rotation Transform2D_MakeDefault;
             opacity := opacity Transform2D_MakeDefault |} in
        let ly :=
          {| Text.transform := Some transform;
             Text.startTime := 0;
             Text.duration := TimeToFrame duration (FP.of_int 60);
             Text.isActive := true;
             Text.sourceText := Some doc;
             Text.animators := [];
             Text.moreOption := None |} in
        let textLayer := fresh (dom (layers w)) in
        (Some textLayer,
         MkWorld (<[textLayer := PAGLayer_new None (Some ly) (nextLocker w)]> (layers w))
                 (S (nextLocker w)))
  end.

(** [PAGTextLayer::Make(duration, text, fontSize, fontFamily, fontStyle)]. *)
Definition PAGTextLayer_Make_text (duration : Z) (text : string) (fontSize : float)
    (fontFamily fontStyle : string) (w : World) : option nat * World :=
  if duration <=? 0 then (None, w)
  else PAGTextLayer_Make duration
         (Some (Text.MkTextDocument text fontSize fontFamily fontStyle)) w.

(** Modelled from the spec: [setGlyphTransformProvider] and
    [clearGlyphTransform] of [PAGTextLayer] are not under src/; by section 6
    they install and remove the layer's glyph offset callback. *)
Definition setGlyphTransformProvider (this : nat) (h : Store) : Store :=
  alter (set_glyphTransform true) this h.

Definition clearGlyphTransform (this : nat) (h : Store) : Store :=
  alter (set_glyphTransform false) this h.

(** *** Further members of PAGLayer *)

Definition currentFrameInternal (l : PAGLayer) : Z :=
  startFrame l + stretchedContentFrame l.

Definition bumpAudioVersion (p : nat) (h : Store) : Store :=
  alter (fun l => set_audioVersion (audioVersion l + 1) l) p h.

(** The loop of [notifyAudioModified], with the fuel of [notifyAncestors]. *)
Fixpoint notifyAudioAncestors (fuel : nat) (parentLayer : option nat) (h : Store) : Store :=
  match fuel, parentLayer with
  | S n, Some p =>
      notifyAudioAncestors n (h !! p ≫= getParentOrOwner) (bumpAudioVersion p h)
  | _, _ => h
  end.

Definition notifyAudioModified (this : nat) (h : Store) : Store :=
  let h1 := bumpAudioVersion this h in
  notifyAudioAncestors (size h) (h1 !! this ≫= getParentOrOwner) h1.

(** The content frame [nextFrameInternal] and [preFrameInternal] go to. *)
Definition nextContentFrame (l : PAGLayer) : Z :=
  let totalFrames := stretchedFrameDuration l in
  let targetContentFrame := stretchedContentFrame l + 1 in
  if totalFrames <=? targetContentFrame then 0 else targetContentFrame.

Definition preContentFrame (l : PAGLayer) : Z :=
  let totalFrames := stretchedFrameDuration l in
  let targetContentFrame := stretchedContentFrame l - 1 in
  if targetContentFrame <? 0 then totalFrames - 1 else targetContentFrame.

Definition nextFrameInternal (this : nat) (h : Store) : Store :=
  match h !! this with
  | None => h
  | Some l =>
      if stretchedFrameDuration l <=? 1 then h
      else (gotoTimeAndNotifyChanged this
              (FrameToTime (startFrame l + nextContentFrame l) (frameRateInternal l)) h).2
  end.

Definition preFrameInternal (this : nat) (h : Store) : Store :=
  match h !! this with
  | None => h
  | Some l =>
      if stretchedFrameDuration l <=? 1 then h
      else (gotoTimeAndNotifyChanged this
              (FrameToTime (startFrame l + preContentFrame l) (frameRateInternal l)) h).2
  end.

(** *** Times across nested timelines *)

(** The loop that [localTimeToGlobal] and [globalToLocalTime] share: from
    [globalLayer] up through the timeline owners to the layer that has
    none. [None] when an owner is not in the store or the chain never
    ends. *)
Fixpoint globalLayerOf (fuel : nat) (h : Store) (globalLayer : PAGLayer)
    : option PAGLayer :=
  match getTimelineOwner h globalLayer with
  | None => Some globalLayer
  | Some owner =>
      match fuel with
      | O => None
      | S n => h !! owner ≫= globalLayerOf n h
      end
  end.

Definition localTimeToGlobal (this : nat) (localTime : Z) (h : Store) : option Z :=
  l ← h !! this;
  let localFrame := TimeToFrame localTime (frameRateInternal l) in
  globalFrame ← localFrameToGlobal this localFrame h;
  globalLayer ← globalLayerOf (size h) h l;
  Some (FrameToTime globalFrame (frameRateInternal globalLayer)).

Definition globalToLocalTime (this : nat) (globalTime : Z) (h : Store) : option Z :=
  l ← h !! this;
  globalLayer ← globalLayerOf (size h) h l;
  let globalFrame := TimeToFrame globalTime (frameRateInternal globalLayer) in
  localFrame ← globalToLocalFrame this globalFrame h;
  Some (FrameToTime localFrame (frameRateInternal l)).

End Operations.

End Timeline.

(** ** TextMotionPreset *)

Module TextMotionType.
Inductive t : Type := Fade | Scale | Slide | Swing.
End TextMotionType.

Module TextMotionDirection.
Inductive t : Type := Up | Left | Right | Down | Side.
End TextMotionDirection.

Module TextMotionEasing.
Inductive t : Type := Smooth | EaseIn | EaseOut | Back | Bounce | Spring.
End TextMotionEasing.

Module TextMotionEffect.
Inductive t : Type := None | Letter | Word.
End TextMotionEffect.

Module TextMotionEffectSmooth.
Inductive t : Type := None | Smooth | EaseIn | EaseOut.
End TextMotionEffectSmooth.

Module TextMotion.

Record TextMotionOptions : Type := MkTextMotionOptions {
  type : TextMotionType.t;
  direction : TextMotionDirection.t;
  duration : double;
  distance : double;
  easing : TextMotionEasing.t;
  effect : TextMotionEffect.t;
  effectDelay : double;
  effectSmooth : TextMotionEffectSmooth.t
}.

Record UnitRange : Type := MkUnitRange {
  start : nat;
  end_ : nat
}.

Definition ToPercent (value total : nat) : Text.Percent :=
  if (total =? 0)%nat then FP.zero
  else FP.div (FP.of_int (Z.of_nat value)) (FP.of_int (Z.of_nat total)).

(** [std::isspace] in the C locale: space, and the characters 9 to 13. *)
Definition isspace (c : ascii) : bool :=
  let n := nat_of_ascii c in
  (n =? 32)%nat || ((9 <=? n)%nat && (n <=? 13)%nat).

Definition IsWhitespaceGlyph (glyph : Text.GlyphHandle) : bool :=
  let name := match glyph with
              | Some g => g
              | None => EmptyString
              end in
  match name with
  | EmptyString => false
  | String c EmptyString =>
      if Ascii.eqb c "010"%char || Ascii.eqb c "013"%char then true
      else isspace c
  | String _ (String _ _) => false
  end.

(** The loop of the [Letter] case, from index [i] on. *)
Fixpoint letterRanges (i : nat) (glyphs : list Text.GlyphHandle) : list UnitRange :=
  match glyphs with
  | [] => []
  | g :: rest =>
      if IsWhitespaceGlyph g then letterRanges (S i) rest
      else MkUnitRange i (S i) :: letterRanges (S i) rest
  end.

(** The loop of the [Word] case, from index [i] on, and the push after the
    loop ([i] is then the number of glyphs). *)
Fixpoint wordRanges (i : nat) (inWord : bool) (startIndex : nat)
    (glyphs : list Text.GlyphHandle) (ranges : list UnitRange) : list UnitRange :=
  match glyphs with
  | [] => if inWord then ranges ++ [MkUnitRange startIndex i] else ranges
  | g :: rest =>
      if IsWhitespaceGlyph g then
        if inWord then wordRanges (S i) false startIndex rest
                         (ranges ++ [MkUnitRange startIndex i])
        else wordRanges (S i) inWord startIndex rest ranges
      else if inWord then wordRanges (S i) inWord startIndex rest ranges
      else wordRanges (S i) true i rest ranges
  end.

Definition BuildRanges (effect : TextMotionEffect.t) (glyphs : list Text.GlyphHandle)
    : list UnitRange :=
  match glyphs with
  | [] => []
  | _ :: _ =>
      let ranges :=
        match effect with
        | TextMotionEffect.Letter => letterRanges 0 glyphs
        | TextMotionEffect.Word => wordRanges 0 false 0 glyphs []
        | TextMotionEffect.None => [MkUnitRange 0 (length glyphs)]
        end in
      match ranges with
      | [] => [MkUnitRange 0 (length glyphs)]
      | _ :: _ => ranges
      end
  end.

Definition ApplyEffectSmooth (smooth : TextMotionEffectSmooth.t) (t : double) : double :=
  let t := FP.clamp t FP.zero FP.one in
  match smooth with
  | TextMotionEffectSmooth.Smooth =>
      FP.mul (FP.mul t t) (FP.sub (Fin 3) (FP.mul (Fin 2) t))
  | TextMotionEffectSmooth.EaseIn => FP.mul t t
  | TextMotionEffectSmooth.EaseOut =>
      let inv := FP.sub FP.one t in
      FP.sub FP.one (FP.mul inv inv)
  | TextMotionEffectSmooth.None => t
  end.

Record EasingConfig : Type := MkEasingConfig {
  easingType : KeyframeInterpolationType;
  controlOut : Point;
  controlIn : Point
}.

Definition GetEasingConfig (easing : TextMotionEasing.t) : EasingConfig :=
  match easing with
  | TextMotionEasing.EaseIn =>
      MkEasingConfig Bezier (Point_Make (Fin (42 # 100)) (Fin 0)) (Point_Make (Fin 1) (Fin 1))
  | TextMotionEasing.EaseOut =>
      MkEasingConfig Bezier (Point_Make (Fin 0) (Fin 0)) (Point_Make (Fin (58 # 100)) (Fin 1))
  | TextMotionEasing.Back =>
      MkEasingConfig Bezier (Point_Make (Fin (36 # 100)) (Fin (- (2 # 10))))
        (Point_Make (Fin (66 # 100)) (Fin (12 # 10)))
  | TextMotionEasing.Bounce =>
      MkEasingConfig Bezier (Point_Make (Fin (3 # 10)) (Fin (13 # 10)))
        (Point_Make (Fin (6 # 10)) (Fin 1))
  | TextMotionEasing.Spring =>
      MkEasingConfig Bezier (Point_Make (Fin (45 # 100)) (Fin (14 # 10)))
        (Point_Make (Fin (8 # 10)) (Fin 1))
  | TextMotionEasing.Smooth =>
      MkEasingConfig Bezier (Point_Make (Fin (42 # 100)) (Fin 0))
        (Point_Make (Fin (58 # 100)) (Fin 1))
  end.

(** [MakeScalarAnimation<T>]: one [SingleEaseKeyframe<T>]. *)
Definition MakeScalarAnimation {T : Type} (startFrame endFrame : Z)
    (startValue endValue : T) (easing : EasingConfig) : Property T :=
  let bezier (c : Point) := match easingType easing with
                            | Bezier => [c]
                            | Linear => []
                            end in
  let keyframe :=
    {| kfClass := SingleEaseKeyframe;
       Base.startValue := startValue;
       Base.endValue := endValue;
       startTime := startFrame;
       endTime := endFrame;
       interpolationType := easingType easing;
       bezierOut := bezier (controlOut easing);
       bezierIn := bezier (controlIn easing);
       spatialOut := Point3D_Zero;
       spatialIn := Point3D_Zero |} in
  AnimatableProperty_new startValue [keyframe].

(** [MakePointAnimation]: one [MultiDimensionPointKeyframe]. *)
Definition MakePointAnimation (startFrame endFrame : Z) (startValue endValue : Point)
    (easing : EasingConfig) : Property Point :=
  let bezier (c : Point) := match easingType easing with
                            | Bezier => [c; c]
                            | Linear => []
                            end in
  let keyframe :=
    {| kfClass := MultiDimensionPointKeyframe;
       Base.startValue := startValue;
       Base.endValue := endValue;
       startTime := startFrame;
       endTime := endFrame;
       interpolationType := easingType easing;
       bezierOut := bezier (controlOut easing);
       bezierIn := bezier (controlIn easing);
       spatialOut := Point3D_Zero;
       spatialIn := Point3D_Zero |} in
  AnimatableProperty_new startValue [keyframe].

Definition ComputeSlideOffset (document : option Text.TextDocument)
    (direction : TextMotionDirection.t) (distance : double) : Point :=
  let fontSize := match document with
                  | Some d => Text.fontSize d
                  | None => FP.zero
                  end in
  let magnitude := FP.mul distance fontSize in
  match direction with
  | TextMotionDirection.Up => Point_Make FP.zero (FP.opp magnitude)
  | TextMotionDirection.Down => Point_Make FP.zero magnitude
  | TextMotionDirection.Left => Point_Make (FP.opp magnitude) FP.zero
  | TextMotionDirection.Right => Point_Make magnitude FP.zero
  | TextMotionDirection.Side => Point_Make magnitude FP.zero
  end.

Definition ComputeSwingAngle (direction : TextMotionDirection.t) : float :=
  match direction with
  | TextMotionDirection.Up => Fin (- 20)
  | TextMotionDirection.Down => Fin 20
  | TextMotionDirection.Left => Fin (- 15)
  | TextMotionDirection.Right => Fin 15
  | TextMotionDirection.Side => Fin 12
  end.

(** The preset object. [layer] is the text layer the preset points to,
    shown with its current contents ([None] for a null pointer); the preset
    is the only writer of that layer while it is applied. *)
Record TextMotionPreset : Type := MkTextMotionPreset {
  layer : option Text.TextLayer;
  frameRate : float;
  baseAnimatorCount : nat;
  createdMoreOption : bool;
  originalGrouping : Text.AnchorPointGrouping
}.

(** The constructor [TextMotionPreset(textLayer, rate)]. *)
Definition TextMotionPreset_new (textLayer : option Text.TextLayer) (rate : float)
    : TextMotionPreset :=
  match textLayer with
  | Some ly =>
      {| layer := textLayer;
         frameRate := rate;
         baseAnimatorCount := length (Text.animators ly);
         createdMoreOption := false;
         originalGrouping := match Text.moreOption ly with
                             | Some m => Text.anchorPointGrouping m
                             | None => Text.Character
                             end |}
  | None =>
      {| layer := None;
         frameRate := rate;
         baseAnimatorCount := 0;
         createdMoreOption := false;
         originalGrouping := Text.Character |}
  end.

(** The loop [while (animators.size() > baseAnimatorCount) pop_back]; it
    ends within [length animators] steps. *)
Fixpoint popAnimators (fuel : nat) (base : nat) (animators : list Text.TextAnimator)
    : list Text.TextAnimator :=
  match fuel with
  | O => animators
  | S n =>
      if (base <? length animators)%nat then popAnimators n base (removelast animators)
      else animators
  end.

Definition clear (p : TextMotionPreset) : TextMotionPreset :=
  match layer p with
  | None => p
  | Some ly =>
      let moreOption' :=
        if createdMoreOption p then None
        else match Text.moreOption ly with
             | Some m => Some (Text.MkTextMoreOptions (originalGrouping p)
                                 (Text.groupingAlignment m))
             | None => None
             end in
      let animators' :=
        popAnimators (length (Text.animators ly)) (baseAnimatorCount p)
          (Text.animators ly) in
      {| layer := Some (Text.set_animators animators' (Text.set_moreOption moreOption' ly));
         frameRate := frameRate p;
         baseAnimatorCount := baseAnimatorCount p;
         createdMoreOption := false;
         originalGrouping := originalGrouping p |}
  end.

(** The two clamps on [endFrame] in the loop of [apply]. *)
Definition clampEndFrame (startFrame endFrame lastFrame : Z) : Z :=
  let endFrame := if endFrame <=? startFrame then startFrame + 1 else endFrame in
  if lastFrame <? endFrame then
    let endFrame := lastFrame in
    if endFrame <=? startFrame then startFrame + 1 else endFrame
  else endFrame.

Section Apply.

Context {E : External}.

Variable options : TextMotionOptions.
Variable ly : Text.TextLayer.
Variable rate : float.
Variable textDocument : Text.TextDocument.
Variable glyphCount : nat.
Variable rangeCount : nat.

Definition durationUS : double := FP.max FP.zero (duration options).
Definition delayUS : double := FP.max FP.zero (effectDelay options).

Definition totalStaggerUS : double :=
  if (1 <? rangeCount)%nat then FP.mul delayUS (FP.of_int (Z.of_nat (rangeCount - 1)))
  else FP.zero.

(** [offsetUS] of the range at index [i]. *)
Definition offsetUS (i : nat) : double :=
  match effect options with
  | TextMotionEffect.None => FP.zero
  | _ =>
      if (1 <? rangeCount)%nat then
        match effectSmooth options with
        | TextMotionEffectSmooth.None => FP.mul delayUS (FP.of_int (Z.of_nat i))
        | smooth =>
            let normalized :=
              FP.div (FP.of_int (Z.of_nat i)) (FP.of_int (Z.of_nat (rangeCount - 1))) in
            FP.mul (ApplyEffectSmooth smooth normalized) totalStaggerUS
        end
      else FP.zero
  end.

Definition rangeStartFrame (i : nat) : Z :=
  Text.startTime ly + TimeToFrame (FP.llround (offsetUS i)) rate.

Definition rangeEndFrame (i : nat) : Z :=
  let endFrame :=
    Text.startTime ly + TimeToFrame (FP.llround (FP.add (offsetUS i) durationUS)) rate in
  clampEndFrame (rangeStartFrame i) endFrame (Text.startTime ly + Text.duration ly).

Definition makeSelector (range : UnitRange) : Text.TextRangeSelector :=
  {| Text.start := Property_new (ToPercent (start range) glyphCount);
     Text.end_ := Property_new (ToPercent (end_ range) glyphCount);
     Text.offset := Property_new FP.zero;
     Text.units := Text.Percentage;
     Text.basedOn := match effect options with
                     | TextMotionEffect.Word => Text.Words
                     | _ => Text.Characters
                     end;
     Text.mode := Property_new Text.Add;
     Text.amount := Property_new FP.one;
     Text.shape := Text.Square;
     Text.smoothness := Property_new FP.one;
     Text.easeHigh := Property_new FP.zero;
     Text.easeLow := Property_new FP.zero;
     Text.randomizeOrder := false;
     Text.randomSeed := Property_new 0 |}.

Definition makeTypography (startFrame endFrame : Z)
    : Text.TextAnimatorTypographyProperties :=
  let easing := GetEasingConfig (easing options) in
  match type options with
  | TextMotionType.Scale =>
      Text.MkTypography
        (Some (MakePointAnimation startFrame endFrame (Point_Make FP.zero FP.zero)
                 (Point_Make FP.one FP.one) easing))
        None None None
  | TextMotionType.Slide =>
      let offset := ComputeSlideOffset (Some textDocument) (direction options)
                      (distance options) in
      Text.MkTypography None
        (Some (MakePointAnimation startFrame endFrame offset Point_Zero easing))
        None None
  | TextMotionType.Swing =>
      let startAngle := ComputeSwingAngle (direction options) in
      Text.MkTypography None None
        (Some (MakeScalarAnimation startFrame endFrame startAngle FP.zero easing))
        None
  | TextMotionType.Fade =>
      Text.MkTypography None None None
        (Some (MakeScalarAnimation startFrame endFrame Transparent Opaque easing))
  end.

(** One turn of the loop over the ranges: [None] when the turn ends at
    [continue], otherwise the animator it pushes. *)
Definition makeAnimator (i : nat) (range : UnitRange) : option Text.TextAnimator :=
  let start' := Nat.min (start range) glyphCount in
  let end' := Nat.min (end_ range) glyphCount in
  if (end' <=? start')%nat then None
  else
    Some {| Text.selectors := [makeSelector (MkUnitRange start' end')];
            Text.typographyProperties :=
              Some (makeTypography (rangeStartFrame i) (rangeEndFrame i)) |}.

(** The animators the loop pushes for the ranges from index [i] on. *)
Fixpoint buildAnimators (i : nat) (ranges : list UnitRange) : list Text.TextAnimator :=
  match ranges with
  | [] => []
  | range :: rest =>
      match makeAnimator i range with
      | Some animator => animator :: buildAnimators (S i) rest
      | None => buildAnimators (S i) rest
      end
  end.

End Apply.

Section Preset.

Context {E : External}.

(** The animators [apply] creates for [options] on the layer [ly]. *)
Definition generatedAnimators (options : TextMotionOptions) (rate : float)
    (ly : Text.TextLayer) : list Text.TextAnimator :=
  match Text.getTextDocument ly with
  | None => []
  | Some textDocument =>
      let glyphs := concat (GetLines textDocument) in
      let ranges := BuildRanges (effect options) glyphs in
      buildAnimators options ly rate textDocument (length glyphs) (length ranges) 0 ranges
  end.

Definition apply (options : TextMotionOptions) (p : TextMotionPreset)
    : bool * TextMotionPreset :=
  match layer p with
  | None => (false, p)
  | Some _ =>
      let p1 := clear p in
      match layer p1 with
      | None => (false, p1)
      | Some ly =>
          match Text.getTextDocument ly with
          | None => (false, p1)
          | Some textDocument =>
              match concat (GetLines textDocument) with
              | [] => (false, p1)
              | _ :: _ =>
                  let targetGrouping :=
                    match effect options with
                    | TextMotionEffect.Word => Text.Word
                    | TextMotionEffect.None => Text.All
                    | TextMotionEffect.Letter => Text.Character
                    end in
                  let alignmentTarget :=
                    Property_new (Point_Make (Fin (1 # 2)) (Fin (1 # 2))) in
                  let current := match Text.moreOption ly with
                                 | Some m => m
                                 | None => TextMoreOptions_new
                                 end in
                  let created := match Text.moreOption ly with
                                 | Some _ => createdMoreOption p1
                                 | None => true
                                 end in
                  let alignment := match Text.groupingAlignment current with
                                   | Some a => Some a
                                   | None => Some alignmentTarget
                                   end in
                  let moreOption' := Text.MkTextMoreOptions targetGrouping alignment in
                  let new := generatedAnimators options (frameRate p1) ly in
                  let ly' := Text.set_animators (Text.animators ly ++ new)
                               (Text.set_moreOption (Some moreOption') ly) in
                  (match new with
                   | [] => false
                   | _ :: _ => true
                   end,
                   {| layer := Some ly';
                      frameRate := frameRate p1;
                      baseAnimatorCount := baseAnimatorCount p1;
                      createdMoreOption := created;
                      originalGrouping := originalGrouping p1 |})
              end
          end
      end
  end.

End Preset.

End TextMotion.

(** ** SlideLeftGlyphProvider and SlideLeftPreset *)

Module Slide.

Definition kEpsilon : double := Fin (1 # 1000000).

Definition Clamp01 (value : double) : double :=
  if FP.lt value FP.zero then FP.zero
  else if FP.gt value FP.one then FP.one
  else value.

Definition EaseOutCubic (t : double) : double :=
  let t := Clamp01 t in
  let inv := FP.sub FP.one t in
  FP.sub FP.one (FP.mul (FP.mul inv inv) inv).

Definition GetPositionFromTransform (transform : option Transform2D) : Point :=
  match transform with
  | None => Point_Zero
  | Some t =>
      match position t with
      | Some p => value p
      | None =>
          match xPosition t, yPosition t with
          | Some px, Some py => Point_Make (value px) (value py)
          | _, _ => Point_Zero
          end
      end
  end.

End Slide.

Module SlideLeftGlyphProvider.

Import Slide.

Record t : Type := Mk {
  durationUS : Z;
  staggerFraction : double;
  trailingFactor : double;
  translationDeltaX : double;
  manualTimeUS : double
}.

(** The constructor; [manualTimeUS] starts at its default, -1. *)
Definition new (duration : Z) (translationDeltaX stagger trailing : double) : t :=
  {| durationUS := Z.max duration 1;
     staggerFraction := FP.max FP.zero (FP.min stagger (Fin (95 # 100)));
     trailingFactor := FP.max FP.zero trailing;
     translationDeltaX := translationDeltaX;
     manualTimeUS := Fin (- 1) |}.

Definition setProgress (progress : double) (p : t) : t :=
  {| durationUS := durationUS p;
     staggerFraction := staggerFraction p;
     trailingFactor := trailingFactor p;
     translationDeltaX := translationDeltaX p;
     manualTimeUS := FP.mul (Clamp01 progress) (FP.of_int (durationUS p)) |}.

(** The three output arrays of [compute] and the flag [applied]. A write
    past the end of an array is undefined in the source and does nothing
    here. *)
Record Output : Type := MkOutput {
  dx : list float;
  dy : list float;
  alpha : list float;
  applied : bool
}.

(** [time] as [compute] derives it from the manual time and its argument. *)
Definition effectiveTime (p : t) (layerTimeUS : Z) : double :=
  let time := if FP.ge (manualTimeUS p) FP.zero then manualTimeUS p
              else FP.of_int layerTimeUS in
  FP.clamp time FP.zero (FP.of_int (durationUS p)).

(** The body of the loop of [compute] for glyph [i]. *)
Definition computeGlyph (p : t) (time baseEased perGlyphDelay activeDuration : double)
    (out : Output) (i : nat) : Output :=
  let startTime := FP.mul perGlyphDelay (FP.of_int (Z.of_nat i)) in
  let local := FP.sub time startTime in
  let t := if FP.le local FP.zero then FP.zero
           else if FP.ge local activeDuration then FP.one
           else FP.div local activeDuration in
  let glyphEased := EaseOutCubic t in
  let offset := FP.mul (FP.mul (FP.sub glyphEased baseEased) (translationDeltaX p))
                  (trailingFactor p) in
  let alpha_i := Clamp01 glyphEased in
  {| dx := <[i := offset]> (dx out);
     dy := <[i := FP.zero]> (dy out);
     alpha := <[i := alpha_i]> (alpha out);
     applied := if FP.gt (FP.abs offset) kEpsilon || FP.gt alpha_i FP.zero then true
                else applied out |}.

(** [compute]: the arrays are [None] when the pointer is null; the result
    is the returned flag with the arrays as the call leaves them. *)
Definition compute (p : t) (layerTimeUS : Z) (totalGlyphs : Z)
    (dx dy alpha : option (list float))
    : bool * (option (list float) * option (list float) * option (list float)) :=
  match totalGlyphs <=? 0, dx, dy, alpha with
  | false, Some dx0, Some dy0, Some alpha0 =>
      let time := effectiveTime p layerTimeUS in
      let baseNormalized :=
        if 0 <? durationUS p then FP.div time (FP.of_int (durationUS p)) else FP.zero in
      let baseEased := EaseOutCubic baseNormalized in
      let totalDelay := FP.mul (FP.of_int (durationUS p)) (staggerFraction p) in
      let perGlyphDelay :=
        if 1 <? totalGlyphs then FP.div totalDelay (FP.of_int (totalGlyphs - 1))
        else FP.zero in
      let activeDuration0 := FP.sub (FP.of_int (durationUS p)) totalDelay in
      let activeDuration :=
        if FP.le activeDuration0 kEpsilon then FP.of_int (durationUS p)
        else activeDuration0 in
      let out :=
        foldl (computeGlyph p time baseEased perGlyphDelay activeDuration)
          (MkOutput dx0 dy0 alpha0 false) (seq 0 (Z.to_nat totalGlyphs)) in
      (applied out, (Some (SlideLeftGlyphProvider.dx out),
                     Some (SlideLeftGlyphProvider.dy out),
                     Some (SlideLeftGlyphProvider.alpha out)))
  | _, _, _, _ => (false, (dx, dy, alpha))
  end.

End SlideLeftGlyphProvider.

Module SlideLeftPreset.

Import Slide.
Import Timeline.

(** The preset object. [weakLayer] is the address the weak pointer was made
    from; [lock()] succeeds while that layer is in the store. The glyph
    provider is shared with the layer and shown here, where it is written. *)
Record t : Type := Mk {
  weakLayer : option nat;
  durationUS : Z;
  staggerFraction : double;
  trailingFactor : double;
  currentProgress : double;
  anchorPoint : Point;
  startPosition : Point;
  endPosition : Point;
  scale : Point;
  rotation : float;
  opacity : Opacity;
  glyphProvider : option SlideLeftGlyphProvider.t
}.

Definition set_currentProgress (v : double) (p : t) : t :=
  Mk (weakLayer p) (durationUS p) (staggerFraction p) (trailingFactor p) v
    (anchorPoint p) (startPosition p) (endPosition p) (scale p) (rotation p)
    (opacity p) (glyphProvider p).

Definition set_glyphProvider (v : option SlideLeftGlyphProvider.t) (p : t) : t :=
  Mk (weakLayer p) (durationUS p) (staggerFraction p) (trailingFactor p)
    (currentProgress p) (anchorPoint p) (startPosition p) (endPosition p) (scale p)
    (rotation p) (opacity p) v.

(** [weakLayer.lock()]. *)
Definition lock (p : t) (h : Store) : option nat :=
  match weakLayer p with
  | Some a => if decide (is_Some (h !! a)) then Some a else None
  | None => None
  end.

Section Operations.

Context {E : External}.

Definition updateTransform (easedProgress : double) (p : t) (h : Store) : Store :=
  match lock p h with
  | None => h
  | Some layer =>
      let position :=
        Point_Make
          (FP.add (x (startPosition p))
             (FP.mul (FP.sub (x (endPosition p)) (x (startPosition p))) easedProgress))
          (FP.add (y (startPosition p))
             (FP.mul (FP.sub (y (endPosition p)) (y (startPosition p))) easedProgress)) in
      let transform :=
        {| Base.anchorPoint := Some (Property_new (anchorPoint p));
           Base.position := Some (Property_new position);
           Base.xPosition := Base.xPosition Transform2D_MakeDefault;
           Base.yPosition := Base.yPosition Transform2D_MakeDefault;
           Base.scale := Some (Property_new (scale p));
           Base.rotation := Some (Property_new (rotation p));
           Base.opacity := Some (Property_new (opacity p)) |} in
      setTransform2D (Some transform) layer h
  end.

Definition initialize (p : t) (h : Store) : t * Store :=
  match lock p h with
  | None => (p, h)
  | Some layer =>
      let provider :=
        SlideLeftGlyphProvider.new (durationUS p)
          (FP.sub (x (endPosition p)) (x (startPosition p)))
          (staggerFraction p) (trailingFactor p) in
      let provider := SlideLeftGlyphProvider.setProgress FP.zero provider in
      let p1 := set_glyphProvider (Some provider) p in
      let h1 := setGlyphTransformProvider layer h in
      let h2 := setProgress FP.zero layer h1 in
      let h3 := updateTransform FP.zero p1 h2 in
      (p1, notifyModified true layer h3)
  end.

(** The constructor, with the call of [initialize] that ends it. *)
Definition new (layer : option nat) (presetDuration : Z) (startX endX : float)
    (stagger trailing : double) (h : Store) : t * Store :=
  let p0 :=
    {| weakLayer := layer;
       durationUS := presetDuration;
       staggerFraction := stagger;
       trailingFactor := trailing;
       currentProgress := FP.zero;
       anchorPoint := Point_Zero;
       startPosition := Point_Zero;
       endPosition := Point_Zero;
       scale := Point_Make FP.one FP.one;
       rotation := FP.zero;
       opacity := Opaque;
       glyphProvider := None |} in
  let p1 :=
    match lock p0 h with
    | None => p0
    | Some sharedLayer =>
        let baseTransform := match getTransform2D sharedLayer h with
                             | Some tr => tr
                             | None => Transform2D_MakeDefault
                             end in
        let startPosition0 := GetPositionFromTransform (Some baseTransform) in
        {| weakLayer := layer;
           durationUS := presetDuration;
           staggerFraction := stagger;
           trailingFactor := trailing;
           currentProgress := FP.zero;
           anchorPoint := match Base.anchorPoint baseTransform with
                          | Some a => value a
                          | None => Point_Zero
                          end;
           startPosition := Point_Make startX (y startPosition0);
           endPosition := Point_Make endX (y startPosition0);
           scale := match Base.scale baseTransform with
                    | Some s => value s
                    | None => Point_Make FP.one FP.one
                    end;
           rotation := match Base.rotation baseTransform with
                       | Some r => value r
                       | None => FP.zero
                       end;
           opacity := match Base.opacity baseTransform with
                      | Some o => value o
                      | None => Opaque
                      end;
           glyphProvider := None |}
    end in
  initialize p1 h.

(** [SlideLeftPreset::Make]: a null result, or the new preset. *)
Definition Make (textLayer : option nat) (duration : Z) (startX endX : float)
    (stagger trailing : double) (h : Store) : option t * Store :=
  match textLayer with
  | None => (None, h)
  | Some _ =>
      if duration <=? 0 then (None, h)
      else
        let r := new textLayer duration startX endX stagger trailing h in
        (Some r.1, r.2)
  end.

Definition apply (progress : double) (p : t) (h : Store) : t * Store :=
  let p1 := set_currentProgress (Clamp01 progress) p in
  match lock p1 h with
  | None => (p1, h)
  | Some layer =>
      let h1 := setProgress (currentProgress p1) layer h in
      let eased := EaseOutCubic (currentProgress p1) in
      let p2 := match glyphProvider p1 with
                | Some g =>
                    set_glyphProvider
                      (Some (SlideLeftGlyphProvider.setProgress (currentProgress p1) g)) p1
                | None => p1
                end in
      let h2 := updateTransform eased p2 h1 in
      (p2, notifyModified true layer h2)
  end.

Definition reset (p : t) (h : Store) : t * Store := apply FP.zero p h.

(** The destructor. *)
Definition dispose (p : t) (h : Store) : Store :=
  match lock p h with
  | Some layer => clearGlyphTransform layer h
  | None => h
  end.

End Operations.

End SlideLeftPreset.

(** ** The Transform2D accessors of the web bindings *)

Module Transform2DBindings.

(** The idiom [if (!t.m) t.m = new Property<T>(); t.m->value = v]. The
    default constructor of [Property<T>] is not under src/; the value it
    leaves is overwritten at once, and a plain [Property<T>] has no
    keyframes. An existing property keeps its keyframes. *)
Definition assignValue {T : Type} (v : T) (p : option (Property T)) : option (Property T) :=
  match p with
  | Some pr => Some (MkProperty v (keyframes pr))
  | None => Some (Property_new v)
  end.

Definition _getAnchorPoint (t : Transform2D) : Point :=
  match anchorPoint t with
  | Some p => value p
  | None => Point_Zero
  end.

Definition _getPosition (t : Transform2D) : Point :=
  match position t with
  | Some p => value p
  | None =>
      let p := Point_Zero in
      let p := match xPosition t with
               | Some px => MkPoint (value px) (y p)
               | None => p
               end in
      match yPosition t with
      | Some py => MkPoint (x p) (value py)
      | None => p
      end
  end.

Definition _setPosition (t : Transform2D) (v : Point) : Transform2D :=
  MkTransform2D (anchorPoint t) (assignValue v (position t)) None None
    (scale t) (rotation t) (opacity t).

Definition _getXPosition (t : Transform2D) : float :=
  match xPosition t with
  | Some px => value px
  | None =>
      match position t with
      | Some p => x (value p)
      | None => FP.zero
      end
  end.

Definition _setXPosition (t : Transform2D) (v : float) : Transform2D :=
  match position t with
  | Some p =>
      MkTransform2D (anchorPoint t)
        (Some (MkProperty (MkPoint v (y (value p))) (keyframes p)))
        (xPosition t) (yPosition t) (scale t) (rotation t) (opacity t)
  | None =>
      MkTransform2D (anchorPoint t) (position t) (assignValue v (xPosition t))
        (yPosition t) (scale t) (rotation t) (opacity t)
  end.

Definition _getYPosition (t : Transform2D) : float :=
  match yPosition t with
  | Some py => value py
  | None =>
      match position t with
      | Some p => y (value p)
      | None => FP.zero
      end
  end.

Definition _setYPosition (t : Transform2D) (v : float) : Transform2D :=
  match position t with
  | Some p =>
      MkTransform2D (anchorPoint t)
        (Some (MkProperty (MkPoint (x (value p)) v) (keyframes p)))
        (xPosition t) (yPosition t) (scale t) (rotation t) (opacity t)
  | None =>
      MkTransform2D (anchorPoint t) (position t) (xPosition t)
        (assignValue v (yPosition t)) (scale t) (rotation t) (opacity t)
  end.

Definition _getScale (t : Transform2D) : Point :=
  match scale t with
  | Some p => value p
  | None => Point_Make FP.one FP.one
  end.

Definition _getRotation (t : Transform2D) : float :=
  match rotation t with
  | Some p => value p
  | None => FP.zero
  end.

(** [static_cast<int>] of the 8-bit [Opacity]. *)
Definition _getOpacity (t : Transform2D) : Z :=
  match opacity t with
  | Some p => value p
  | None => Opaque
  end.

End Transform2DBindings.

(** ** Reference collaborators

    One concrete choice of the collaborators, used to run the definitions
    on examples. *)

Module Reference.

(** Modelled from the spec: [TimeToFrame] of [base/utils/TimeUtil.h] is not
    under src/. By the glossary a frame is an integer tick of the timeline
    at the frame rate: the number of whole ticks that fit in [time]
    microseconds. *)
Definition TimeToFrame (time : Z) (frameRate : float) : Z :=
  match frameRate with
  | Fin r => Qfloor (inject_Z time * r / 1000000)
  | NaN => 0
  end.

(** Modelled from the spec: [FrameToTime] is not under src/. The time of a
    frame is the first microsecond that [TimeToFrame] maps to it. *)
Definition FrameToTime (frame : Z) (frameRate : float) : Z :=
  match frameRate with
  | Fin r => if Qeq_bool r 0 then 0 else Qceiling (inject_Z frame * 1000000 / r)
  | NaN => 0
  end.

(** Modelled from the spec: [ProgressToTime] is not under src/. Progress is
    a normalized position within a duration. *)
Definition ProgressToTime (progress : double) (duration : Z) : Z :=
  match progress with
  | Fin p => Qfloor (p * inject_Z duration)
  | NaN => 0
  end.

(** Modelled from the spec: [FrameToProgress] is not under src/. By the
    glossary progress is the normalized position, in [0,1], of the content
    frame within the layer's duration. *)
Definition FrameToProgress (frame totalFrames : Z) : double :=
  if totalFrames <=? 0 then FP.zero
  else FP.clamp (FP.div (FP.of_int frame) (FP.of_int totalFrames)) FP.zero FP.one.

(** Modelled from the spec: [LayerCache::checkFrameChanged] is not under
    src/; section 4.2 leaves the decision to the cache. Here every change of
    the content frame counts. *)
Definition checkFrameChanged (ly : option Text.TextLayer) (contentFrame oldContentFrame : Z)
    : bool :=
  negb (contentFrame =? oldContentFrame).

(** Modelled from the spec: [GetLines] is the text layout, outside the core
    (section 1). This layout puts the text on one line, one glyph per
    character, the glyph named by its character. *)
Definition GetLines (doc : Text.TextDocument) : list (list Text.GlyphHandle) :=
  [map (fun c => Some (String c EmptyString)) (list_ascii_of_string (Text.text doc))].

(** Modelled from the spec: [TextMoreOptions]'s constructor is not under
    src/; a new object groups by character and has no alignment yet. *)
Definition TextMoreOptions_new : Text.TextMoreOptions :=
  Text.MkTextMoreOptions Text.Character None.

Definition external : External :=
  MkExternal TimeToFrame FrameToTime ProgressToTime FrameToProgress checkFrameChanged
    GetLines TextMoreOptions_new.

End Reference.

(** ** Vocabulary of the statements *)

Import Timeline.

(** [chainFrom next h start c]: following the pointer [next] from [start]
    through the store [h] visits exactly the layers [c], in this order, and
    then reaches a null pointer. *)
Inductive chainFrom (next : PAGLayer -> option nat) (h : Store)
    : option nat -> list nat -> Prop :=
| chain_end : chainFrom next h None []
| chain_step (p : nat) (l : PAGLayer) (rest : list nat) :
    h !! p = Some l ->
    chainFrom next h (next l) rest ->
    chainFrom next h (Some p) (p :: rest).

(** The allocator of mutexes is ahead of every mutex a layer holds. *)
Definition lockersAllocated (w : World) : Prop :=
  map_Forall (fun _ l => (rootLocker l < nextLocker w)%nat) (layers w).

(** At most one of [position] and the pair [xPosition], [yPosition] is
    populated. *)
Definition positionExclusive (t : Transform2D) : Prop :=
  position t = None \/ (xPosition t = None /\ yPosition t = None).

(** [layer->transform] of the layer at [this]. *)
Definition transformOf (this : nat) (h : Store) : option Transform2D :=
  l ← h !! this; ly ← layer l; Text.transform ly.

(** The layers [ks] altered by [f], in this order. *)
Definition alterAll (f : PAGLayer -> PAGLayer) (ks : list nat) (h : Store) : Store :=
  foldl (fun h' k => alter f k h') h ks.

(** A layer after its content version went up by one. *)
Definition bumped (l : PAGLayer) : PAGLayer :=
  set_contentVersion (contentVersion l + 1) l.

(** *** A small tree to run the definitions on *)

Definition sampleLayer (parent owner matte : option nat) (locker : nat) : PAGLayer :=
  MkPAGLayer None None parent owner matte 0 0 0 0 None locker false.

(** A root composition 0 with the children 1 and 3; layer 2 is the track
    matte of layer 1. All four share the mutex 0. *)
Definition sampleStore : Store :=
  list_to_map
    [(0%nat, sampleLayer None None None 0);
     (1%nat, sampleLayer (Some 0%nat) None (Some 2%nat) 0);
     (2%nat, sampleLayer None (Some 1%nat) None 0);
     (3%nat, sampleLayer (Some 0%nat) None None 0)].

Definition sampleWorld : World := MkWorld sampleStore 1.

(** A text layer whose transform has a unified and a separate position at
    once, alone in a store. *)
Definition sampleTextLayer : Text.TextLayer :=
  Text.MkTextLayer
    (Some (MkTransform2D None (Some (Property_new Point_Zero))
             (Some (Property_new (Fin 1))) (Some (Property_new (Fin 2))) None None None))
    0 180 true None [] None.

Definition sampleTextStore : Store :=
  {[ 0%nat := PAGLayer_new None (Some sampleTextLayer) 0 ]}.

(** The start and end frames of the keyframes of an optional property, and
    of all the keyframes an animator carries. *)
Definition propertySpans {T : Type} (p : option (Property T)) : list (Z * Z) :=
  match p with
  | Some pr =>
      match keyframes pr with
      | Some kfs => map (fun k => (startTime k, endTime k)) kfs
      | None => []
      end
  | None => []
  end.

Definition keyframeSpans (a : Text.TextAnimator) : list (Z * Z) :=
  match Text.typographyProperties a with
  | Some tp =>
      propertySpans (Text.scale tp) ++ propertySpans (Text.position tp) ++
      propertySpans (Text.rotation tp) ++ propertySpans (Text.opacity tp)
  | None => []
  end.

(** The animators of the layer a preset points to. *)
Definition presetAnimators (p : TextMotion.TextMotionPreset) : list Text.TextAnimator :=
  match TextMotion.layer p with
  | Some ly => Text.animators ly
  | None => []
  end.

(** An animator with one range selector from [lo] to [hi]. *)
Definition selectsSpan (a : Text.TextAnimator) (lo hi : Text.Percent) : Prop :=
  exists s : Text.TextRangeSelector,
    Text.selectors a = [s] /\
    Text.start s = Property_new lo /\ Text.end_ s = Property_new hi.

(** A ten-frame text layer, and the options of a one-second fade that
    starts one second later for every next letter. *)
Definition shortTextLayer (text : string) : Text.TextLayer :=
  Text.MkTextLayer None 0 10 true (Some (Text.MkTextDocument text (Fin 10) "" "")) [] None.

Definition staggeredFade : TextMotion.TextMotionOptions :=
  TextMotion.MkTextMotionOptions TextMotionType.Fade TextMotionDirection.Up
    (Fin 1000000) (Fin (1 # 2)) TextMotionEasing.Smooth TextMotionEffect.Letter
    (Fin 1000000) TextMotionEffectSmooth.None.

(** [nestedTwoLevels h this a b rl ra rb]: the timeline owner of [this] is
    the composition [a], whose timeline owner is the root [b]; the three
    run at the frame rates [rl], [ra] and [rb]. *)
Definition nestedTwoLevels (h : Store) (this a b : nat) (rl ra rb : Q) : Prop :=
  exists l la lb : PAGLayer,
    h !! this = Some l /\ getTimelineOwner h l = Some a /\
    h !! a = Some la /\ getTimelineOwner h la = Some b /\
    h !! b = Some lb /\ getTimelineOwner h lb = None /\
    frameRateInternal l = Fin rl /\
    frameRateInternal la = Fin ra /\
    frameRateInternal lb = Fin rb.

(** [globalToLocalFrame(localFrameToGlobal(f))]. *)
Definition roundTrip (this : nat) (f : Z) (h : Store) : option Z :=
  localFrameToGlobal this f h ≫= fun g => globalToLocalFrame this g h.

Definition timedLayer (rate : Z) (parent : option nat) (start : Z) : PAGLayer :=
  MkPAGLayer None (Some (MkFile (FP.of_int rate))) parent None None start 0 0 0 None 0 false.

(** Layer 2 in the composition 1, which starts at frame 5 of the root 0;
    layer and composition run at [inner] frames per second, the root at
    [outer]. *)
Definition nestedStore (inner outer : Z) : Store :=
  list_to_map
    [(0%nat, timedLayer outer None 0);
     (1%nat, timedLayer inner (Some 0%nat) 5);
     (2%nat, timedLayer inner (Some 1%nat) 0)].

(** The value of the unified position of the layer at [this]. *)
Definition positionOf (this : nat) (h : Store) : option Point :=
  t ← transformOf this h; p ← position t; Some (value p).

(** [easeOutCubic(t) = 1 - (1 - t)^3], as the specification writes it. *)
Definition easeOutCubic (t : Q) : Q := (1 - (1 - t) ^ 3)%Q.

(** A preset that slides the layer of [sampleTextStore] from x = 240 to
    x = 40 in three seconds. *)
Definition samplePreset : SlideLeftPreset.t :=
  SlideLeftPreset.Mk (Some 0%nat) 3000000 (Fin (6 # 10)) (Fin 1) FP.zero Point_Zero
    (Point_Make (Fin 240) (Fin 48)) (Point_Make (Fin 40) (Fin 48))
    (Point_Make FP.one FP.one) FP.zero Opaque None.

(** The scene of the repository's test of the preset: a text layer of the
    given duration, alone in the store at address 0, and a preset sliding
    it from x = 240 to x = 40, with the reference collaborators. *)
Definition slideScene (duration : Z) : option (SlideLeftPreset.t * Store) :=
  let made :=
    @PAGTextLayer_Make Reference.external duration
      (Some (Text.MkTextDocument "Hello" (Fin 48) "Arial" "Regular")) (MkWorld ∅ 0) in
  match @SlideLeftPreset.Make Reference.external made.1 duration (Fin 240) (Fin 40)
          (Fin (6 # 10)) (Fin 1) (layers made.2) with
  | (Some preset, h) => Some (preset, h)
  | (None, _) => None
  end.

(** The scene after [apply(progress)]. *)
Definition slideSceneAt (duration : Z) (progress : Q) : option (SlideLeftPreset.t * Store) :=
  match slideScene duration with
  | Some (preset, h) => Some (@SlideLeftPreset.apply Reference.external (Fin progress) preset h)
  | None => None
  end.

(** *** Vocabulary of the further properties *)

(** A layer after its audio version went up by one. *)
Definition audioBumped (l : PAGLayer) : PAGLayer :=
  set_audioVersion (audioVersion l + 1) l.

(** A layer after [gotoTime(layerTime)] reached it. *)
Definition movedTo `{E : External} (layerTime : Z) (l : PAGLayer) : PAGLayer :=
  set_contentFrame (TimeToFrame layerTime (frameRateInternal l) - startFrame l) l.

(** Whether [gotoTime(layerTime)] changes the content of the layer at [i],
    by its cache. *)
Definition frameChangedAt `{E : External} (layerTime : Z) (h : Store) (i : nat) : bool :=
  match h !! i with
  | Some l =>
      checkFrameChanged (layer l) (contentFrame (movedTo layerTime l)) (contentFrame l)
  | None => false
  end.

(** Ranges in increasing order from [lo] on: none is empty, none overlaps
    the one before it, none reaches beyond [n]. *)
Fixpoint rangesWithin (lo n : nat) (ranges : list TextMotion.UnitRange) : Prop :=
  match ranges with
  | [] => True
  | r :: rest =>
      (lo <= TextMotion.start r)%nat /\
      (TextMotion.start r < TextMotion.end_ r)%nat /\
      (TextMotion.end_ r <= n)%nat /\
      rangesWithin (TextMotion.end_ r) n rest
  end.

(** Whether the glyph at index [k] lies in one of the ranges. *)
Definition covered (ranges : list TextMotion.UnitRange) (k : nat) : bool :=
  existsb (fun r => (TextMotion.start r <=? k)%nat && (k <? TextMotion.end_ r)%nat) ranges.

(** The glyphs [apply] lays out for a layer. *)
Definition layerGlyphs `{E : External} (ly : Text.TextLayer) : list Text.GlyphHandle :=
  match Text.getTextDocument ly with
  | Some doc => concat (GetLines doc)
  | None => []
  end.

(** The options object of a layer after [apply] made sure that it has a
    grouping alignment. *)
Definition withAlignment (m : Text.TextMoreOptions) : Text.TextMoreOptions :=
  Text.MkTextMoreOptions (Text.anchorPointGrouping m)
    (match Text.groupingAlignment m with
     | Some a => Some a
     | None => Some (Property_new (Point_Make (Fin (1 # 2)) (Fin (1 # 2))))
     end).

(** The providers a program can hold: the one the constructor makes for
    a finite [translationDeltaX], after any calls of [setProgress]. *)
Inductive providerState (duration : Z) (delta : Q) (stagger trailing : double)
    : SlideLeftGlyphProvider.t -> Prop :=
| provider_new :
    providerState duration delta stagger trailing
      (SlideLeftGlyphProvider.new duration (Fin delta) stagger trailing)
| provider_setProgress (progress : double) (p : SlideLeftGlyphProvider.t) :
    providerState duration delta stagger trailing p ->
    providerState duration delta stagger trailing
      (SlideLeftGlyphProvider.setProgress progress p).

(** The value of [t] in the turn of glyph [i] of the loop of [compute],
    for the time [T], the delay [g] per glyph and the active duration [A]. *)
Definition glyphPhase (T g A : Q) (i : nat) : Q :=
  let local := (T - g * inject_Z (Z.of_nat i))%Q in
  if Qle_bool local 0 then 0%Q
  else if Qle_bool A local then 1%Q
  else (local / A)%Q.

(** [1 - inv * inv * inv] for [inv = 1 - c]. *)
Definition cubicOut (c : Q) : Q := (1 - (1 - c) * (1 - c) * (1 - c))%Q.

(** What the turn of glyph [i] writes to [dx] and to [alpha], and whether
    it sets [applied], for the base easing [b], the translation [delta] and
    the trailing factor [tr]. *)
Definition glyphWrites (T b g A delta tr : Q) (i : nat) (offset a : float) (flag : bool)
    : Prop :=
  offset = Fin ((cubicOut (glyphPhase T g A i) - b) * delta * tr) /\
  a = Fin (cubicOut (glyphPhase T g A i)) /\
  flag = FP.gt (FP.abs offset) Slide.kEpsilon || FP.gt a FP.zero.

(** A transform that names every member: the four plain ones, and the
    position either unified or as both of its halves. *)
Definition completeTransform (t : Transform2D) : Prop :=
  is_Some (anchorPoint t) /\ is_Some (scale t) /\ is_Some (rotation t) /\
  is_Some (opacity t) /\
  (is_Some (position t) \/ (is_Some (xPosition t) /\ is_Some (yPosition t))).

(** One conversion step on a frame: the frame as a [float], times the time
    scale, through [roundf] and the cast. [childFrameToLocal] is this step
    followed by the start frame, [localFrameToChild] the start frame
    followed by this step. *)
Definition scaleFrame (timeScale : F32.float32) (frame : Z) : option Z :=
  F32.to_Z (F32.roundf (F32.mul (F32.of_Z frame) timeScale)).

(** The time scales between timelines at 24 and 60 frames per second, as
    the binary32 division gives them: 60 / 24 is 2.5, 24 / 60 is the
    [float] next to 0.4 (13421773 / 2^25), and a rate by itself is 1. *)
Definition scale_24_to_60 : F32.float32 := S754_finite false 10485760 (-22).
Definition scale_60_to_24 : F32.float32 := S754_finite false 13421773 (-25).
Definition scale_same : F32.float32 := S754_finite false 8388608 (-23).

(** The size of the frames for which the round trip is proved: 2^21. The
    first frame that a step up to 60 frames per second and down again does
    not give back is 2^22 + 3. *)
Definition frameBound : Z := 2097152.

(** [m / 2^n] rounded to the nearest integer, a tie to the even one: what
    the rounding of a binary32 product does to its 47 or 48 bits. *)
Definition rne (m n : Z) : Z :=
  let q := m / 2 ^ n in
  if Z.testbit m (n - 1)
  then if m mod 2 ^ (n - 1) =? 0 then (if Z.even q then q else q + 1) else q + 1
  else q.

(** The conversion step in integers, for a frame [c > 0] and a time scale
    [mt * 2^et] with a 24-bit significand: [c] aligned to 24 bits, the
    product with [mt] rounded to 24 bits, and the result rounded to the
    nearest integer, a half away from zero. *)
Definition scaledFrame (mt et c : Z) : Z :=
  let d := Z.log2 c + 1 in
  let M := c * 2 ^ (24 - d) * mt in
  let n := Z.log2 M + 1 - 24 in
  let q := rne M n in
  let e := d - 24 + et + n in
  (q + 2 ^ (- e - 1)) / 2 ^ (- e).

(** The same with the number of bits [d] of the frame and the number
    [24 + n] of bits of the product given. *)
Definition scaledAt (mt et d n c : Z) : Z :=
  let e := d - 24 + et + n in
  (rne (c * 2 ^ (24 - d) * mt) n + 2 ^ (- e - 1)) / 2 ^ (- e).

(** One step up the timelines, from a layer at [rc] frames per second to
    its owner at [ro]: both rates are 24 or 60 and the owner's is not the
    lower one. *)
Definition risingStep (rc ro : Q) : Prop :=
  (rc = 24%Q /\ ro = 24%Q) \/ (rc = 24%Q /\ ro = 60%Q) \/ (rc = 60%Q /\ ro = 60%Q).

(** Going up through the timeline owners [owners] from a layer that runs
    at [r] frames per second, every rate is 24 or 60 and no owner runs at a
    lower frame rate than the layer below it. *)
Fixpoint ratesRise (h : Store) (r : Q) (owners : list nat) : Prop :=
  match owners with
  | [] => True
  | o :: rest =>
      exists (lo : PAGLayer) (ro : Q),
        h !! o = Some lo /\ frameRateInternal lo = Fin ro /\ risingStep r ro /\
        ratesRise h ro rest
  end.

(** The sizes of the start frames of the timeline owners, added up. *)
Fixpoint startSpan (h : Store) (owners : list nat) : Z :=
  match owners with
  | [] => 0
  | o :: rest =>
      match h !! o with
      | Some lo => Z.abs (startFrame lo)
      | None => 0
      end + startSpan h rest
  end.

(** Three levels of nesting: layer 3 in the composition 2 (24 frames per
    second both), inside the composition 1 (60), inside the root 0 (60). *)
Definition deepStore : Store :=
  list_to_map
    [(0%nat, timedLayer 60 None 0);
     (1%nat, timedLayer 60 (Some 0%nat) 5);
     (2%nat, timedLayer 24 (Some 1%nat) 2);
     (3%nat, timedLayer 24 (Some 2%nat) 0)].

(** The keyframes of an optional property. *)
Definition keyframesOf {T : Type} (p : option (Property T)) : list (Keyframe T) :=
  match p with
  | Some pr =>
      match keyframes pr with
      | Some kfs => kfs
      | None => []
      end
  | None => []
  end.

(** Every keyframe of the typography properties ends at the value of text
    that is not animated: scale (1, 1), offset (0, 0), rotation 0, opaque. *)
Definition endsAtRest (tp : Text.TextAnimatorTypographyProperties) : Prop :=
  Forall (fun k => endValue k = Point_Make FP.one FP.one) (keyframesOf (Text.scale tp)) /\
  Forall (fun k => endValue k = Point_Zero) (keyframesOf (Text.position tp)) /\
  Forall (fun k => endValue k = FP.zero) (keyframesOf (Text.rotation tp)) /\
  Forall (fun k => endValue k = Opaque) (keyframesOf (Text.opacity tp)).

(** The typography properties animate the one property that the motion
    type names, with one keyframe, and hold no other property. *)
Definition animatesOnly (ty : TextMotionType.t)
    (tp : Text.TextAnimatorTypographyProperties) : Prop :=
  match ty with
  | TextMotionType.Scale =>
      length (keyframesOf (Text.scale tp)) = 1%nat /\ Text.position tp = None /\
      Text.rotation tp = None /\ Text.opacity tp = None
  | TextMotionType.Slide =>
      Text.scale tp = None /\ length (keyframesOf (Text.position tp)) = 1%nat /\
      Text.rotation tp = None /\ Text.opacity tp = None
  | TextMotionType.Swing =>
      Text.scale tp = None /\ Text.position tp = None /\
      length (keyframesOf (Text.rotation tp)) = 1%nat /\ Text.opacity tp = None
  | TextMotionType.Fade =>
      Text.scale tp = None /\ Text.position tp = None /\
      Text.rotation tp = None /\ length (keyframesOf (Text.opacity tp)) = 1%nat
  end.

(** A [double] that [std::llround] rounds to a [long long]: finite and of
    size below 2^63. *)
Definition llroundDefined (a : double) : Prop :=
  match a with
  | Fin q => (Qabs q <= 9223372036854775807)%Q
  | NaN => False
  end.

(** The layer at the top of the timeline owners [owners] of the layer [l]. *)
Definition topLayer (h : Store) (l : PAGLayer) (owners : list nat) : option PAGLayer :=
  match last owners with
  | Some top => h !! top
  | None => Some l
  end.

(** * Properties *)

(** ** Integers among the rationals *)

Lemma inject_Z_within_one (a b : Z) :
  (inject_Z a < inject_Z b + 1)%Q -> (inject_Z b < inject_Z a + 1)%Q -> a = b.
Proof.
  intros H1 H2.
  assert (E1 : (inject_Z b + 1 == inject_Z (b + 1))%Q) by (rewrite inject_Z_plus; reflexivity).
  assert (E2 : (inject_Z a + 1 == inject_Z (a + 1))%Q) by (rewrite inject_Z_plus; reflexivity).
  rewrite E1 in H1. rewrite E2 in H2.
  rewrite <- Zlt_Qlt in H1, H2. lia.
Qed.

(** ** Pointer chains in the store *)

Section Chains.

Variable next : PAGLayer -> option nat.

Lemma chainFrom_det (h : Store) (s : option nat) (c1 c2 : list nat) :
  chainFrom next h s c1 -> chainFrom next h s c2 -> c1 = c2.
Proof.
  intros H1. revert c2. induction H1 as [| p l rest Hp _ IH]; intros c2 H2.
  - inversion H2. reflexivity.
  - inversion H2 as [| p' l' rest' Hp' Hrest']; subst.
    rewrite Hp in Hp'. injection Hp' as <-. f_equal. apply IH. exact Hrest'.
Qed.

Lemma chainFrom_stored (h : Store) (s : option nat) (c : list nat) :
  chainFrom next h s c -> forall k, k ∈ c -> is_Some (h !! k).
Proof.
  induction 1 as [| p l rest Hp _ IH]; intros k Hk.
  - inversion Hk.
  - apply elem_of_cons in Hk as [-> | Hk]; [eauto | apply IH, Hk].
Qed.

Lemma chainFrom_tail (h : Store) (s : option nat) (c : list nat) :
  chainFrom next h s c ->
  forall k, k ∈ c -> exists c', chainFrom next h (Some k) c' /\ (length c' <= length c)%nat.
Proof.
  induction 1 as [| p l rest Hp Hrest IH]; intros k Hk.
  - inversion Hk.
  - apply elem_of_cons in Hk as [-> | Hk].
    + exists (p :: rest). split; [econstructor; eauto | lia].
    + destruct (IH k Hk) as (c' & Hc' & Hlen). exists c'. split; [exact Hc' | simpl; lia].
Qed.

(** A chain that ends visits no layer twice. *)
Lemma chainFrom_NoDup (h : Store) (s : option nat) (c : list nat) :
  chainFrom next h s c -> NoDup c.
Proof.
  induction 1 as [| p l rest Hp Hrest IH].
  - constructor.
  - constructor; [| exact IH]. intros Hin.
    destruct (chainFrom_tail _ _ _ Hrest p Hin) as (c' & Hc' & Hlen).
    assert (Hfull : chainFrom next h (Some p) (p :: rest)) by (econstructor; eauto).
    pose proof (chainFrom_det _ _ _ _ Hc' Hfull) as ->. simpl in Hlen. lia.
Qed.

Lemma NoDup_stored_length {A : Type} (ks : list nat) :
  NoDup ks -> forall m : gmap nat A, (forall k, k ∈ ks -> is_Some (m !! k)) ->
  (length ks <= size m)%nat.
Proof.
  induction 1 as [| k ks Hk _ IH]; intros m Hm; simpl; [lia |].
  destruct (Hm k) as [v Hv]; [left |].
  rewrite <- (insert_delete_id m k v Hv), map_size_insert_None by apply lookup_delete_eq.
  apply le_n_S, IH. intros k' Hk'.
  rewrite lookup_delete_ne by (intros ->; contradiction).
  apply Hm. right. exact Hk'.
Qed.

(** A chain is no longer than the store is large. *)
Lemma chainFrom_length (h : Store) (s : option nat) (c : list nat) :
  chainFrom next h s c -> (length c <= size h)%nat.
Proof.
  intros Hc. apply NoDup_stored_length.
  - eapply chainFrom_NoDup, Hc.
  - eapply chainFrom_stored, Hc.
Qed.

(** Chains only depend on the pointers [next] reads. *)
Lemma chainFrom_ext (h h' : Store) (s : option nat) (c : list nat) :
  (forall k, next <$> h' !! k = next <$> h !! k) ->
  chainFrom next h s c -> chainFrom next h' s c.
Proof.
  intros Hext. induction 1 as [| p l rest Hp _ IH].
  - constructor.
  - pose proof (Hext p) as Hp'. rewrite Hp in Hp'.
    destruct (h' !! p) as [l' |] eqn:El'; [| discriminate].
    simpl in Hp'. injection Hp' as Hp'.
    econstructor; [exact El' |]. rewrite Hp'. exact IH.
Qed.

Lemma chainFrom_alter (f : PAGLayer -> PAGLayer) (k : nat) (h : Store)
    (s : option nat) (c : list nat) :
  (forall l, next (f l) = next l) ->
  chainFrom next h s c -> chainFrom next (alter f k h) s c.
Proof.
  intros Hf. apply chainFrom_ext. intros i.
  rewrite lookup_alter. case_decide; [subst | reflexivity].
  destruct (h !! i); simpl; [| reflexivity]. by rewrite Hf.
Qed.

End Chains.

(** ** Altering the layers of a chain *)

Lemma alterAll_lookup_notin (f : PAGLayer -> PAGLayer) (ks : list nat) (h : Store) (i : nat) :
  i ∉ ks -> alterAll f ks h !! i = h !! i.
Proof.
  unfold alterAll. revert h. induction ks as [| k ks IH]; intros h Hi; simpl; [reflexivity |].
  apply not_elem_of_cons in Hi as [Hne Hi].
  rewrite IH by exact Hi. apply lookup_alter_ne. congruence.
Qed.

Lemma alterAll_lookup_in (f : PAGLayer -> PAGLayer) (ks : list nat) (h : Store) (i : nat) :
  NoDup ks -> i ∈ ks -> alterAll f ks h !! i = f <$> h !! i.
Proof.
  unfold alterAll. intros Hnd. revert h.
  induction Hnd as [| k ks Hk _ IH]; intros h Hi; simpl.
  - inversion Hi.
  - apply elem_of_cons in Hi as [-> | Hi].
    + change (alterAll f ks (alter f k h) !! k = f <$> h !! k).
      rewrite alterAll_lookup_notin by exact Hk. apply lookup_alter_eq.
    + rewrite IH by exact Hi. rewrite lookup_alter_ne; [reflexivity |].
      intros ->. contradiction.
Qed.

Lemma alterAll_lookup (f : PAGLayer -> PAGLayer) (ks : list nat) (h : Store) (i : nat) :
  NoDup ks ->
  alterAll f ks h !! i = if decide (i ∈ ks) then f <$> h !! i else h !! i.
Proof.
  intros Hnd. case_decide.
  - by apply alterAll_lookup_in.
  - by apply alterAll_lookup_notin.
Qed.

(** ** Version counters *)

Lemma ancestorWalk_alter (f : PAGLayer -> PAGLayer) (k : nat) :
  (forall l, getParentOrOwner (f l) = getParentOrOwner l) ->
  forall (fuel : nat) (s : option nat) (h : Store),
    ancestorWalk fuel s (alter f k h) = ancestorWalk fuel s h.
Proof.
  intros Hf. induction fuel as [| n IH]; intros s h; simpl; [reflexivity |].
  destruct s as [p |]; [| reflexivity]. f_equal.
  rewrite IH. f_equal. rewrite lookup_alter. case_decide; [subst | reflexivity].
  destruct (h !! p); simpl; [| reflexivity]. by rewrite Hf.
Qed.

(** The loop of [notifyModified] bumps the layers it visits, one after the
    other. *)
Lemma notifyAncestors_walk (fuel : nat) (s : option nat) (h : Store) :
  notifyAncestors fuel s h = alterAll bumped (ancestorWalk fuel s h) h.
Proof.
  revert s h. induction fuel as [| n IH]; intros s h; simpl; [reflexivity |].
  destruct s as [p |]; [| reflexivity].
  unfold alterAll. simpl. fold (alterAll bumped). unfold bumpContentVersion. fold bumped.
  rewrite IH. rewrite ancestorWalk_alter by reflexivity.
  reflexivity.
Qed.

(** With enough fuel the loop visits the whole owner chain. *)
Lemma ancestorWalk_chain (h : Store) (s : option nat) (c : list nat) :
  chainFrom getParentOrOwner h s c ->
  forall fuel : nat, (length c <= fuel)%nat -> ancestorWalk fuel s h = c.
Proof.
  induction 1 as [| p l rest Hp _ IH]; intros fuel Hfuel.
  - by destruct fuel.
  - destruct fuel as [| n]; simpl in *; [lia |].
    rewrite Hp. simpl. f_equal. apply IH. lia.
Qed.

(** C6. In a tree (the owner chain of [this], [c], ends), [notifyModified(true)]
    visits the ancestors [c] one after the other, each once; it adds one to
    the content version of [this] and of every layer of [c] and leaves
    every other layer, and every other member, as it was. The loop makes
    [length c] steps, fewer than the store has layers. *)
Theorem notifyModified_bumps_owner_chain (h : Store) (this : nat) (c : list nat) :
  chainFrom getParentOrOwner h (Some this) (this :: c) ->
  ancestorWalk (size h) (h !! this ≫= getParentOrOwner) h = c /\
  NoDup (this :: c) /\
  (length c < size h)%nat /\
  notifyModified true this h = alterAll bumped (this :: c) h /\
  forall i : nat,
    notifyModified true this h !! i =
      if decide (i ∈ this :: c)
      then (fun l => set_contentVersion (contentVersion l + 1) l) <$> h !! i
      else h !! i.
Proof.
  intros Hchain.
  pose proof (chainFrom_NoDup _ _ _ _ Hchain) as Hnd.
  pose proof (chainFrom_length _ _ _ _ Hchain) as Hlen. simpl in Hlen.
  inversion Hchain as [| p l rest Hthis Hrest]; subst.
  assert (Hwalk : ancestorWalk (size h) (h !! this ≫= getParentOrOwner) h = c).
  { rewrite Hthis. simpl. eapply ancestorWalk_chain; [exact Hrest | lia]. }
  assert (Heq : notifyModified true this h = alterAll bumped (this :: c) h).
  { unfold notifyModified. rewrite notifyAncestors_walk.
    unfold bumpContentVersion. fold bumped.
    rewrite ancestorWalk_alter by reflexivity.
    rewrite lookup_alter_eq, Hthis. simpl.
    change (getParentOrOwner (bumped l)) with (getParentOrOwner l).
    rewrite Hthis in Hwalk. simpl in Hwalk. rewrite Hwalk. reflexivity. }
  split; [exact Hwalk |]. split; [exact Hnd |]. split; [lia |]. split; [exact Heq |].
  intros i. rewrite Heq. apply alterAll_lookup. exact Hnd.
Qed.

Lemma notifyModified_bumps_owner_chain_witness :
  chainFrom getParentOrOwner sampleStore (Some 2%nat) [2; 1; 0]%nat /\
  (contentVersion <$> notifyModified true 2 sampleStore !! 1%nat = Some 1 /\
   contentVersion <$> notifyModified true 2 sampleStore !! 3%nat = Some 0).
Proof.
  assert (H : chainFrom getParentOrOwner sampleStore (Some 2%nat) [2; 1; 0]%nat).
  { repeat (econstructor; [reflexivity |]). constructor. }
  split; [exact H |].
  destruct (notifyModified_bumps_owner_chain _ _ _ H) as (_ & _ & _ & _ & Hl).
  rewrite !Hl. split; reflexivity.
Defined.

(** ** Detaching from a tree *)

Lemma updateRootLocker_lookup (k : nat) (h : Store) (c : list nat) :
  forall (this : nat) (fuel : nat),
    chainFrom _trackMatteLayer h (Some this) c -> (length c <= fuel)%nat ->
    updateRootLocker fuel this k h = alterAll (set_rootLocker k) (reverse c) h.
Proof.
  induction c as [| p rest IH]; intros this fuel Hc Hfuel.
  - inversion Hc.
  - inversion Hc as [| p' l rest' Hp Hrest]; subst.
    destruct fuel as [| n]; simpl in Hfuel; [lia |].
    simpl. rewrite Hp, reverse_cons. unfold alterAll. rewrite foldl_app. simpl. f_equal.
    destruct (_trackMatteLayer l) as [m |] eqn:Em.
    + apply IH; [exact Hrest | lia].
    + inversion Hrest. reflexivity.
Qed.

Lemma onRemoveFromStage_lookup (c : list nat) :
  forall (h : Store) (this : nat) (fuel : nat),
    chainFrom _trackMatteLayer h (Some this) c -> (length c <= fuel)%nat ->
    onRemoveFromStage fuel this h = alterAll (set_stage None) c h.
Proof.
  induction c as [| p rest IH]; intros h this fuel Hc Hfuel.
  - inversion Hc.
  - inversion Hc as [| p' l rest' Hp Hrest]; subst.
    destruct fuel as [| n]; simpl in Hfuel; [lia |].
    simpl. rewrite Hp.
    destruct (_trackMatteLayer l) as [m |] eqn:Em.
    + apply IH; [| lia]. apply chainFrom_alter; [reflexivity | exact Hrest].
    + inversion Hrest. reflexivity.
Qed.

Lemma alterAll_chain (next : PAGLayer -> option nat) (f : PAGLayer -> PAGLayer)
    (ks : list nat) (h : Store) (s : option nat) (c : list nat) :
  (forall l, next (f l) = next l) ->
  chainFrom next h s c -> chainFrom next (alterAll f ks h) s c.
Proof.
  intros Hf. unfold alterAll. revert h.
  induction ks as [| k ks IH]; intros h Hc; simpl; [exact Hc |].
  apply IH. apply chainFrom_alter; assumption.
Qed.

(** C8. [detachFromTree] on a layer whose track-matte chain is [c] (the
    layer first). The mutex [nextLocker w] it creates was held by no layer
    before the call; after the call every layer of [c] holds it, every
    other layer is as it was, so no layer outside [c] holds it, and the
    allocator has moved past it. *)
Theorem detachFromTree_installs_fresh_locker (w : World) (this : nat) (c : list nat) :
  chainFrom _trackMatteLayer (layers w) (Some this) c ->
  lockersAllocated w ->
  let w' := detachFromTree this w in
  let locker := nextLocker w in
  this ∈ c /\
  (forall i l, layers w !! i = Some l -> rootLocker l <> locker) /\
  (forall i, i ∈ c -> rootLocker <$> layers w' !! i = Some locker) /\
  (forall i, i ∉ c -> layers w' !! i = layers w !! i) /\
  (forall i l', i ∉ c -> layers w' !! i = Some l' -> rootLocker l' <> locker) /\
  nextLocker w' = S locker /\
  lockersAllocated w'.
Proof.
  intros Hc Halloc w' locker.
  pose proof (chainFrom_NoDup _ _ _ _ Hc) as Hnd.
  pose proof (chainFrom_length _ _ _ _ Hc) as Hlen.
  assert (Hfresh : forall i l, layers w !! i = Some l -> rootLocker l <> locker).
  { intros i l Hi. specialize (Halloc i l Hi). simpl in Halloc. subst locker. lia. }
  set (h1 := match layers w !! this ≫= stage with
             | Some _ => onRemoveFromStage (size (layers w)) this (layers w)
             | None => layers w
             end).
  assert (Hh1 : h1 = layers w \/ h1 = alterAll (set_stage None) c (layers w)).
  { subst h1. destruct (layers w !! this ≫= stage); [right | by left].
    by apply onRemoveFromStage_lookup. }
  assert (Hc1 : chainFrom _trackMatteLayer h1 (Some this) c).
  { destruct Hh1 as [-> | ->]; [exact Hc |]. apply alterAll_chain; [reflexivity | exact Hc]. }
  assert (Hlayers : layers w' = alterAll (set_rootLocker locker) (reverse c) h1).
  { subst w'. unfold detachFromTree. simpl. fold h1.
    by apply updateRootLocker_lookup. }
  assert (Hrev : NoDup (reverse c)).
  { apply NoDup_ListNoDup. rewrite reverse_Permutation. by apply NoDup_ListNoDup. }
  assert (Hout : forall i, i ∉ c -> layers w' !! i = layers w !! i).
  { intros i Hi. rewrite Hlayers, alterAll_lookup_notin by by rewrite elem_of_reverse.
    destruct Hh1 as [-> | ->]; [reflexivity |]. by apply alterAll_lookup_notin. }
  assert (Hin : forall i, i ∈ c -> rootLocker <$> layers w' !! i = Some locker).
  { intros i Hi. rewrite Hlayers, alterAll_lookup_in by by rewrite ?elem_of_reverse.
    destruct (chainFrom_stored _ _ _ _ Hc1 i Hi) as [l Hl]. by rewrite Hl. }
  split; [inversion Hc; left |]. split; [exact Hfresh |]. split; [exact Hin |].
  split; [exact Hout |]. split.
  { intros i l' Hi Hl'. rewrite Hout in Hl' by exact Hi. eapply Hfresh, Hl'. }
  split; [reflexivity |].
  intros i l' Hl'. simpl. destruct (decide (i ∈ c)) as [Hi | Hi].
  - pose proof (Hin i Hi) as Hk. fold w' in Hl'. rewrite Hl' in Hk. simpl in Hk.
    injection Hk as ->. subst locker. lia.
  - fold w' in Hl'. rewrite Hout in Hl' by exact Hi.
    specialize (Halloc i l' Hl'). simpl in Halloc. lia.
Qed.

Lemma detachFromTree_installs_fresh_locker_witness :
  chainFrom _trackMatteLayer sampleStore (Some 1%nat) [1; 2]%nat /\
  lockersAllocated sampleWorld /\
  rootLocker <$> layers (detachFromTree 1 sampleWorld) !! 2%nat = Some 1%nat.
Proof.
  assert (H : chainFrom _trackMatteLayer sampleStore (Some 1%nat) [1; 2]%nat).
  { repeat (econstructor; [reflexivity |]). constructor. }
  assert (A : lockersAllocated sampleWorld).
  { unfold lockersAllocated. apply map_Forall_to_list. vm_compute. repeat constructor. }
  split; [exact H |]. split; [exact A |].
  destruct (detachFromTree_installs_fresh_locker sampleWorld 1 _ H A) as (_ & _ & Hin & _).
  apply Hin. repeat constructor.
Defined.

(** ** Replacing the transform *)

Lemma alterAll_proj {A : Type} (f : PAGLayer -> A) (g : PAGLayer -> PAGLayer)
    (ks : list nat) (h : Store) (i : nat) :
  (forall l, f (g l) = f l) -> f <$> alterAll g ks h !! i = f <$> h !! i.
Proof.
  intros Hfg. unfold alterAll. revert h.
  induction ks as [| k ks IH]; intros h; simpl; [reflexivity |].
  rewrite IH, lookup_alter. case_decide; [subst | reflexivity].
  destruct (h !! i); simpl; [| reflexivity]. by rewrite Hfg.
Qed.

(** [notifyModified] only writes content versions. *)
Lemma notifyModified_proj {A : Type} (f : PAGLayer -> A) (contentChanged : bool)
    (this : nat) (h : Store) (i : nat) :
  (forall v l, f (set_contentVersion v l) = f l) ->
  f <$> notifyModified contentChanged this h !! i = f <$> h !! i.
Proof.
  intros Hf. unfold notifyModified. rewrite notifyAncestors_walk.
  rewrite alterAll_proj by (intros l; apply Hf).
  destruct contentChanged; [| reflexivity].
  unfold bumpContentVersion. rewrite lookup_alter. case_decide; [subst | reflexivity].
  destruct (h !! i); simpl; [| reflexivity]. by rewrite Hf.
Qed.

Lemma writeTransform2D_position (t target : Transform2D) :
  position (writeTransform2D t target) = DeepClone_Point (position t) /\
  (is_Some (position t) ->
   xPosition (writeTransform2D t target) = None /\
   yPosition (writeTransform2D t target) = None).
Proof.
  unfold writeTransform2D. destruct (position t) as [p |]; simpl.
  - split; [reflexivity |]. intros _. split; reflexivity.
  - split; [reflexivity |]. intros [? [=]].
Qed.

Lemma setTransform2D_null (this : nat) (h : Store) :
  setTransform2D None this h = h.
Proof. reflexivity. Qed.

Lemma setTransform2D_transform (h : Store) (this : nat) (l : PAGLayer)
    (ly : Text.TextLayer) (t : Transform2D) :
  h !! this = Some l -> layer l = Some ly ->
  transformOf this (setTransform2D (Some t) this h) =
    Some (writeTransform2D t (match Text.transform ly with
                              | Some tr => tr
                              | None => Transform2D_MakeDefault
                              end)).
Proof.
  intros Hl Hly. unfold transformOf, setTransform2D. rewrite Hl, Hly.
  set (h' := notifyModified true this _).
  pose proof (notifyModified_proj layer true this
                (<[this := set_layer (Some (Text.set_transform
                   (Some (writeTransform2D t (match Text.transform ly with
                                              | Some tr => tr
                                              | None => Transform2D_MakeDefault
                                              end))) ly)) l]> h) this
                (fun _ _ => eq_refl)) as Hp.
  fold h' in Hp. rewrite lookup_insert_eq in Hp.
  destruct (h' !! this) as [l' |]; [| discriminate].
  simpl in Hp. injection Hp as Hp. simpl. rewrite Hp. reflexivity.
Qed.

(** C9. A call of [setTransform2D] that carries a transform, on a layer
    object that has a [Layer], leaves [layer->transform] with at most one of
    [position] and [xPosition]/[yPosition] populated, whatever it held
    before: a unified position in the argument is cloned and clears both
    separate positions; an argument without one clears [position]. *)
Theorem setTransform2D_position_exclusive (h : Store) (this : nat) (l : PAGLayer)
    (ly : Text.TextLayer) (t : Transform2D) :
  h !! this = Some l ->
  layer l = Some ly ->
  exists t' : Transform2D,
    transformOf this (setTransform2D (Some t) this h) = Some t' /\
    positionExclusive t' /\
    (is_Some (position t) ->
     is_Some (position t') /\ xPosition t' = None /\ yPosition t' = None) /\
    (position t = None -> position t' = None).
Proof.
  intros Hl Hly. eexists. split; [eapply setTransform2D_transform; eassumption |].
  set (target := match Text.transform ly with
                 | Some tr => tr
                 | None => Transform2D_MakeDefault
                 end).
  destruct (writeTransform2D_position t target) as [Hpos Hxy].
  split; [| split].
  - unfold positionExclusive. destruct (position t) as [p |] eqn:Ep.
    + right. apply Hxy. eauto.
    + left. rewrite Hpos. reflexivity.
  - intros Hs. split; [| by apply Hxy].
    rewrite Hpos. destruct Hs as [p ->]. unfold DeepClone_Point, DeepCloneProperty.
    destruct (keyframes p); eauto.
  - intros Hn. rewrite Hpos, Hn. reflexivity.
Qed.

Lemma setTransform2D_position_exclusive_witness :
  exists t' : Transform2D,
    transformOf 0 (setTransform2D (Some Transform2D_MakeDefault) 0 sampleTextStore) = Some t' /\
    positionExclusive t'.
Proof.
  destruct (setTransform2D_position_exclusive sampleTextStore 0
              (PAGLayer_new None (Some sampleTextLayer) 0) sampleTextLayer
              Transform2D_MakeDefault eq_refl eq_refl) as (t' & Ht & Hex & _).
  exists t'. split; assumption.
Defined.

(** ** Factories *)

(** C5. The two factories are total functions: a non-positive duration or a
    null layer makes [SlideLeftPreset::Make] return null, a non-positive
    duration or a null document makes [PAGTextLayer::Make] return null (in
    both of its overloads), and in each case nothing is changed. They return
    an object in every other case. *)
Theorem factories_return_null_on_invalid_input `{E : External}
    (textLayer : option nat) (duration : Z) (startX endX : float)
    (stagger trailing : double) (h : Store)
    (doc : option Text.TextDocument) (text family style : string) (size : float)
    (w : World) :
  ((SlideLeftPreset.Make textLayer duration startX endX stagger trailing h).1 = None
     <-> textLayer = None \/ duration <= 0) /\
  (textLayer = None \/ duration <= 0 ->
     SlideLeftPreset.Make textLayer duration startX endX stagger trailing h = (None, h)) /\
  ((PAGTextLayer_Make duration doc w).1 = None <-> doc = None \/ duration <= 0) /\
  (doc = None \/ duration <= 0 -> PAGTextLayer_Make duration doc w = (None, w)) /\
  (duration <= 0 -> PAGTextLayer_Make_text duration text size family style w = (None, w)).
Proof.
  unfold SlideLeftPreset.Make, PAGTextLayer_Make_text, PAGTextLayer_Make.
  destruct (Z.leb_spec duration 0) as [Hd | Hd].
  - repeat split; intros; try reflexivity; try (by right);
      destruct textLayer; destruct doc; reflexivity.
  - destruct textLayer as [a |]; destruct doc as [d |]; simpl;
      repeat split; intros; try reflexivity; try discriminate; try (by left);
      try lia; repeat match goal with
                      | H : _ \/ _ |- _ => destruct H
                      end; try discriminate; try lia.
Qed.

Lemma factories_return_null_on_invalid_input_witness :
  @SlideLeftPreset.Make Reference.external None 0 (Fin 240) (Fin 40)
      (Fin (6 # 10)) (Fin 1) sampleStore = (None, sampleStore) /\
  @PAGTextLayer_Make Reference.external 0 (Some (Text.MkTextDocument "Hello" (Fin 48) "" ""))
      sampleWorld = (None, sampleWorld).
Proof.
  destruct (@factories_return_null_on_invalid_input Reference.external None 0
              (Fin 240) (Fin 40) (Fin (6 # 10)) (Fin 1) sampleStore
              (Some (Text.MkTextDocument "Hello" (Fin 48) "" "")) "" "" "" NaN
              sampleWorld) as (_ & Hslide & _ & Htext & _).
  split.
  - apply Hslide. left. reflexivity.
  - apply Htext. right. lia.
Defined.

(** ** The glyph provider's manual time *)

Lemma Clamp01_Fin (q : Q) :
  exists q' : Q, Slide.Clamp01 (Fin q) = Fin q' /\ (0 <= q')%Q /\ (q' <= 1)%Q.
Proof.
  unfold Slide.Clamp01, FP.gt, FP.lt, FP.zero, FP.one.
  destruct (Qle_bool 0 q) eqn:E0; simpl.
  - destruct (Qle_bool q 1) eqn:E1; simpl.
    + exists q. apply Qle_bool_iff in E0, E1. auto.
    + exists 1%Q. split; [reflexivity | lra].
  - exists 0%Q. split; [reflexivity | lra].
Qed.

Lemma Clamp01_unit (q : Q) :
  (0 <= q)%Q -> (q <= 1)%Q -> Slide.Clamp01 (Fin q) = Fin q.
Proof.
  intros H0 H1. unfold Slide.Clamp01, FP.gt, FP.lt, FP.zero, FP.one.
  apply Qle_bool_iff in H0, H1. rewrite H0, H1. reflexivity.
Qed.

(** The providers a program can hold: built by the constructor, then driven
    by any number of [setProgress] calls. *)
Lemma provider_durationUS_positive (duration : Z) (delta stagger trailing : double)
    (calls : list double) :
  0 < SlideLeftGlyphProvider.durationUS
        (foldl (fun p x => SlideLeftGlyphProvider.setProgress x p)
           (SlideLeftGlyphProvider.new duration delta stagger trailing) calls).
Proof.
  assert (H0 : 0 < SlideLeftGlyphProvider.durationUS
                     (SlideLeftGlyphProvider.new duration delta stagger trailing))
    by (simpl; lia).
  revert H0. generalize (SlideLeftGlyphProvider.new duration delta stagger trailing).
  induction calls as [| x calls IH]; intros p Hp; simpl; [exact Hp |].
  apply IH. exact Hp.
Qed.

Lemma setProgress_manual_time (p : SlideLeftGlyphProvider.t) (progress : double) :
  0 < SlideLeftGlyphProvider.durationUS p ->
  FP.is_nan progress = false ->
  FP.ge (SlideLeftGlyphProvider.manualTimeUS
           (SlideLeftGlyphProvider.setProgress progress p)) FP.zero = true.
Proof.
  intros Hd Hnan. destruct progress as [| q]; [discriminate |].
  destruct (Clamp01_Fin q) as (q' & Hq & H0 & H1).
  simpl. rewrite Hq. simpl. apply Qle_bool_iff.
  apply Qmult_le_0_compat; [exact H0 |].
  change 0%Q with (inject_Z 0). rewrite <- Zle_Qle. lia.
Qed.

(** C10, amended. After [setProgress(progress)] with a [progress] that is
    not a NaN, on a provider built by the constructor and driven by any
    earlier [setProgress] calls, [compute] does not depend on its
    [layerTimeUS] argument: it returns the same flag and leaves the same
    arrays for any two times. *)
Theorem compute_ignores_layer_time_after_setProgress
    (duration : Z) (delta stagger trailing : double) (calls : list double)
    (progress : double) (t1 t2 totalGlyphs : Z) (dx dy alpha : option (list float)) :
  FP.is_nan progress = false ->
  let p := SlideLeftGlyphProvider.setProgress progress
             (foldl (fun p x => SlideLeftGlyphProvider.setProgress x p)
                (SlideLeftGlyphProvider.new duration delta stagger trailing) calls) in
  SlideLeftGlyphProvider.compute p t1 totalGlyphs dx dy alpha =
  SlideLeftGlyphProvider.compute p t2 totalGlyphs dx dy alpha.
Proof.
  intros Hnan p.
  assert (Ht : SlideLeftGlyphProvider.effectiveTime p t1 =
               SlideLeftGlyphProvider.effectiveTime p t2).
  { unfold SlideLeftGlyphProvider.effectiveTime. subst p.
    rewrite setProgress_manual_time;
      [reflexivity | apply provider_durationUS_positive | exact Hnan]. }
  unfold SlideLeftGlyphProvider.compute. rewrite Ht. reflexivity.
Qed.

Lemma compute_ignores_layer_time_after_setProgress_witness :
  let p := SlideLeftGlyphProvider.setProgress (Fin (3 # 4))
             (SlideLeftGlyphProvider.new 3000000 (Fin (- 200)) (Fin (6 # 10)) (Fin 1)) in
  FP.is_nan (Fin (3 # 4)) = false /\
  SlideLeftGlyphProvider.compute p 0 5 (Some (repeat NaN 5)) (Some (repeat NaN 5))
    (Some (repeat NaN 5)) =
  SlideLeftGlyphProvider.compute p 3000000 5 (Some (repeat NaN 5)) (Some (repeat NaN 5))
    (Some (repeat NaN 5)).
Proof.
  split; [reflexivity |].
  apply (compute_ignores_layer_time_after_setProgress 3000000 (Fin (- 200)) (Fin (6 # 10))
           (Fin 1) [] (Fin (3 # 4)) 0 3000000 5). reflexivity.
Defined.

(** C10 as stated fails: after [setProgress(NaN)] the manual time is a NaN,
    the test [manualTimeUS >= 0.0] is false and [compute] follows its time
    argument again. *)
Lemma compute_follows_layer_time_after_NaN :
  let p := SlideLeftGlyphProvider.setProgress NaN
             (SlideLeftGlyphProvider.new 3000000 (Fin (- 200)) (Fin (6 # 10)) (Fin 1)) in
  SlideLeftGlyphProvider.compute p 0 1 (Some [NaN]) (Some [NaN]) (Some [NaN]) <>
  SlideLeftGlyphProvider.compute p 3000000 1 (Some [NaN]) (Some [NaN]) (Some [NaN]).
Proof. vm_compute. discriminate. Qed.

(** ** Text motion presets *)

Section TextMotionFacts.

Context {E : External}.

Import TextMotion.

Lemma popAnimators_take (fuel base : nat) (l : list Text.TextAnimator) :
  (length l <= base + fuel)%nat -> popAnimators fuel base l = take base l.
Proof.
  revert l. induction fuel as [| n IH]; intros l Hl; simpl.
  - rewrite take_ge by lia. reflexivity.
  - destruct (Nat.ltb_spec base (length l)) as [Hlt | Hge].
    + rewrite IH.
      * rewrite removelast_firstn_len, take_take. f_equal. lia.
      * rewrite removelast_firstn_len, length_take. lia.
    + rewrite take_ge by lia. reflexivity.
Qed.

(** What [clear] leaves of the layer. *)
Lemma clear_layer (p : TextMotionPreset) (ly : Text.TextLayer) :
  layer p = Some ly ->
  exists ly' : Text.TextLayer,
    layer (clear p) = Some ly' /\
    Text.animators ly' = take (baseAnimatorCount p) (Text.animators ly) /\
    Text.startTime ly' = Text.startTime ly /\
    Text.duration ly' = Text.duration ly /\
    Text.sourceText ly' = Text.sourceText ly /\
    baseAnimatorCount (clear p) = baseAnimatorCount p /\
    frameRate (clear p) = frameRate p.
Proof.
  intros Hly. unfold clear. rewrite Hly. eexists. split; [reflexivity |].
  simpl. rewrite popAnimators_take by lia. repeat split; reflexivity.
Qed.

Lemma buildAnimators_ext (options : TextMotionOptions) (ly1 ly2 : Text.TextLayer)
    (rate : float) (doc : Text.TextDocument) (glyphCount rangeCount : nat)
    (ranges : list UnitRange) :
  Text.startTime ly1 = Text.startTime ly2 ->
  Text.duration ly1 = Text.duration ly2 ->
  forall i : nat,
    buildAnimators options ly1 rate doc glyphCount rangeCount i ranges =
    buildAnimators options ly2 rate doc glyphCount rangeCount i ranges.
Proof.
  intros Hs Hd. induction ranges as [| r rest IH]; intros i; simpl; [reflexivity |].
  assert (Hm : makeAnimator options ly1 rate doc glyphCount rangeCount i r =
               makeAnimator options ly2 rate doc glyphCount rangeCount i r).
  { unfold makeAnimator, rangeEndFrame, rangeStartFrame. by rewrite Hs, Hd. }
  rewrite Hm, IH. reflexivity.
Qed.

(** The animators [apply] creates depend on the layer through its document
    and its start and duration only. *)
Lemma generatedAnimators_ext (options : TextMotionOptions) (rate : float)
    (ly1 ly2 : Text.TextLayer) :
  Text.sourceText ly1 = Text.sourceText ly2 ->
  Text.startTime ly1 = Text.startTime ly2 ->
  Text.duration ly1 = Text.duration ly2 ->
  generatedAnimators options rate ly1 = generatedAnimators options rate ly2.
Proof.
  intros Hdoc Hs Hd. unfold generatedAnimators, Text.getTextDocument. rewrite Hdoc.
  destruct (Text.sourceText ly2); [| reflexivity]. by apply buildAnimators_ext.
Qed.

(** [apply] truncates the animators to the base count and appends the
    animators it creates; it returns whether it created any. *)
Lemma apply_layer (options : TextMotionOptions) (p : TextMotionPreset)
    (ly : Text.TextLayer) :
  layer p = Some ly ->
  exists ly' : Text.TextLayer,
    layer (apply options p).2 = Some ly' /\
    Text.animators ly' =
      take (baseAnimatorCount p) (Text.animators ly) ++
      generatedAnimators options (frameRate p) ly /\
    (apply options p).1 =
      match generatedAnimators options (frameRate p) ly with
      | [] => false
      | _ :: _ => true
      end /\
    Text.startTime ly' = Text.startTime ly /\
    Text.duration ly' = Text.duration ly /\
    Text.sourceText ly' = Text.sourceText ly /\
    baseAnimatorCount (apply options p).2 = baseAnimatorCount p /\
    frameRate (apply options p).2 = frameRate p.
Proof.
  intros Hly.
  destruct (clear_layer p ly Hly) as (lc & Hlc & Han & Hs & Hd & Hdoc & Hb & Hr).
  assert (Hgen : generatedAnimators options (frameRate p) lc =
                 generatedAnimators options (frameRate p) ly)
    by (by apply generatedAnimators_ext).
  unfold apply. rewrite Hly. cbv zeta. rewrite Hlc, Hr, Hb, Hgen.
  assert (Hnodoc : Text.getTextDocument lc = None ->
                   generatedAnimators options (frameRate p) ly = []).
  { intros Hn. rewrite <- Hgen. unfold generatedAnimators. by rewrite Hn. }
  assert (Hnoglyph : forall doc, Text.getTextDocument lc = Some doc ->
                     concat (GetLines doc) = [] ->
                     generatedAnimators options (frameRate p) ly = []).
  { intros doc Hdc Hg. rewrite <- Hgen. unfold generatedAnimators. by rewrite Hdc, Hg. }
  set (G := generatedAnimators options (frameRate p) ly) in *.
  destruct (Text.getTextDocument lc) as [doc |] eqn:Edoc.
  - destruct (concat (GetLines doc)) as [| g glyphs] eqn:Eg.
    + exists lc. rewrite (Hnoglyph doc eq_refl Eg), app_nil_r.
      repeat split; assumption.
    + eexists. split; [reflexivity |]. cbn -[G]. rewrite Han.
      repeat split; assumption.
  - exists lc. rewrite (Hnodoc eq_refl), app_nil_r. repeat split; assumption.
Qed.

End TextMotionFacts.

Section TextMotionClaims.

Context {E : External}.

Import TextMotion.

(** C3. On a preset just built for a layer, [apply(A)] followed by
    [apply(B)] leaves the layer with its original animators followed by
    the animators [apply] creates for [B]: the count is the base count
    recorded by the constructor plus the number created for [B], and the
    list is the one [apply(B)] alone would have left. Nothing created for
    [A] is kept. *)
Theorem apply_twice_keeps_no_stale_animators (ly : Text.TextLayer) (rate : float)
    (A B : TextMotionOptions) :
  let p0 := TextMotionPreset_new (Some ly) rate in
  let pAB := (apply B (apply A p0).2).2 in
  baseAnimatorCount p0 = length (Text.animators ly) /\
  presetAnimators pAB = Text.animators ly ++ generatedAnimators B rate ly /\
  length (presetAnimators pAB) =
    (baseAnimatorCount p0 + length (generatedAnimators B rate ly))%nat /\
  presetAnimators pAB = presetAnimators (apply B p0).2.
Proof.
  intros p0 pAB.
  assert (Hp0 : layer p0 = Some ly) by reflexivity.
  assert (Hbase : baseAnimatorCount p0 = length (Text.animators ly)) by reflexivity.
  assert (Hrate : frameRate p0 = rate) by reflexivity.
  destruct (apply_layer A p0 ly Hp0) as (lA & HlA & HanA & _ & HsA & HdA & HdocA & HbA & HrA).
  destruct (apply_layer B (apply A p0).2 lA HlA)
    as (lAB & HlAB & HanAB & _ & _ & _ & _ & _ & _).
  destruct (apply_layer B p0 ly Hp0) as (lB & HlB & HanB & _).
  assert (HAB : presetAnimators pAB = Text.animators ly ++ generatedAnimators B rate ly).
  { unfold presetAnimators. subst pAB. rewrite HlAB, HanAB, HbA, HrA, HanA, Hrate, Hbase.
    rewrite (take_ge (Text.animators ly)) by lia. rewrite take_app_length.
    f_equal. by apply generatedAnimators_ext. }
  split; [exact Hbase |]. split; [exact HAB |]. split.
  - rewrite HAB, length_app, Hbase. reflexivity.
  - rewrite HAB. unfold presetAnimators. rewrite HlB, HanB, Hrate, Hbase.
    rewrite take_ge by lia. reflexivity.
Qed.

Lemma letterRanges_whitespace (glyphs : list Text.GlyphHandle) :
  Forall (fun g => IsWhitespaceGlyph g = true) glyphs ->
  forall i : nat, letterRanges i glyphs = [].
Proof.
  induction 1 as [| g glyphs Hg _ IH]; intros i; simpl; [reflexivity |].
  rewrite Hg. apply IH.
Qed.

Lemma wordRanges_whitespace (glyphs : list Text.GlyphHandle) :
  Forall (fun g => IsWhitespaceGlyph g = true) glyphs ->
  forall (i startIndex : nat) (ranges : list UnitRange),
    wordRanges i false startIndex glyphs ranges = ranges.
Proof.
  induction 1 as [| g glyphs Hg _ IH]; intros i startIndex ranges; simpl; [reflexivity |].
  rewrite Hg. apply IH.
Qed.

(** On glyphs that are all whitespace every grouping falls back to one
    range over all of them. *)
Lemma BuildRanges_whitespace (effect : TextMotionEffect.t)
    (glyphs : list Text.GlyphHandle) :
  Forall (fun g => IsWhitespaceGlyph g = true) glyphs ->
  glyphs <> [] ->
  BuildRanges effect glyphs = [MkUnitRange 0 (length glyphs)].
Proof.
  intros Hws Hne. unfold BuildRanges. destruct glyphs as [| g glyphs]; [done |].
  destruct effect.
  - reflexivity.
  - by rewrite letterRanges_whitespace.
  - by rewrite wordRanges_whitespace.
Qed.

Lemma ToPercent_full_span (n : nat) :
  n <> 0%nat -> FP.same (ToPercent 0 n) FP.zero /\ FP.same (ToPercent n n) FP.one.
Proof.
  intros Hn. unfold ToPercent. destruct (Nat.eqb_spec n 0) as [| _]; [done |].
  assert (Hq : ~ (inject_Z (Z.of_nat n) == 0)%Q).
  { change 0%Q with (inject_Z 0). rewrite inject_Z_injective. lia. }
  unfold FP.div, FP.of_int.
  destruct (Qeq_bool (inject_Z (Z.of_nat n)) 0) eqn:Eq;
    [apply Qeq_bool_iff in Eq; contradiction |].
  split; simpl; field; exact Hq.
Qed.

(** C4, amended. On a document whose glyphs are all whitespace [apply]
    returns false and appends nothing only when there is no glyph at all.
    With at least one glyph the empty segmentation falls back to one range
    over all glyphs: [apply] returns true and appends exactly one animator,
    whose selector runs from 0 to 1. *)
Theorem apply_on_whitespace_document (options : TextMotionOptions)
    (p : TextMotionPreset) (ly : Text.TextLayer) (doc : Text.TextDocument) :
  layer p = Some ly ->
  Text.getTextDocument ly = Some doc ->
  Forall (fun g => IsWhitespaceGlyph g = true) (concat (GetLines doc)) ->
  let n := length (concat (GetLines doc)) in
  let kept := take (baseAnimatorCount p) (Text.animators ly) in
  (n = 0%nat ->
   (apply options p).1 = false /\ presetAnimators (apply options p).2 = kept) /\
  (n <> 0%nat ->
   (apply options p).1 = true /\
   FP.same (ToPercent 0 n) FP.zero /\ FP.same (ToPercent n n) FP.one /\
   exists a : Text.TextAnimator,
     presetAnimators (apply options p).2 = kept ++ [a] /\
     selectsSpan a (ToPercent 0 n) (ToPercent n n)).
Proof.
  intros Hly Hdoc Hws n kept.
  destruct (apply_layer options p ly Hly) as (ly' & Hly' & Han & Hret & _).
  unfold presetAnimators. rewrite Hly', Han, Hret. clear Hly' Han Hret.
  unfold generatedAnimators. rewrite Hdoc. fold n. split.
  - intros Hn. apply length_zero_iff_nil in Hn. rewrite Hn. simpl.
    by rewrite app_nil_r.
  - intros Hn. assert (Hne : concat (GetLines doc) <> []).
    { intros Hnil. subst n. rewrite Hnil in Hn. done. }
    rewrite (BuildRanges_whitespace _ _ Hws Hne). fold n.
    cbn [buildAnimators length]. unfold makeAnimator. cbn [start end_].
    rewrite Nat.min_0_l, Nat.min_id.
    destruct (Nat.leb_spec n 0) as [Hle | _]; [lia |].
    split; [reflexivity |].
    destruct (ToPercent_full_span n Hn) as [H0 H1].
    split; [exact H0 |]. split; [exact H1 |].
    eexists. split; [reflexivity |]. eexists. split; [reflexivity |].
    split; reflexivity.
Qed.

Lemma clampEndFrame_spec (startFrame endFrame lastFrame : Z) :
  startFrame + 1 <= clampEndFrame startFrame endFrame lastFrame /\
  (startFrame < lastFrame -> clampEndFrame startFrame endFrame lastFrame <= lastFrame) /\
  (lastFrame <= startFrame -> clampEndFrame startFrame endFrame lastFrame = startFrame + 1).
Proof.
  unfold clampEndFrame.
  repeat match goal with
         | |- context [?a <=? ?b] => destruct (Z.leb_spec a b)
         | |- context [?a <? ?b] => destruct (Z.ltb_spec a b)
         end; lia.
Qed.

Lemma makeAnimator_spans (options : TextMotionOptions) (ly : Text.TextLayer)
    (rate : float) (doc : Text.TextDocument) (glyphCount rangeCount i : nat)
    (range : UnitRange) (a : Text.TextAnimator) :
  makeAnimator options ly rate doc glyphCount rangeCount i range = Some a ->
  keyframeSpans a =
    [(rangeStartFrame options ly rate rangeCount i,
      rangeEndFrame options ly rate rangeCount i)].
Proof.
  unfold makeAnimator. destruct (_ <=? _)%nat; [discriminate |].
  intros [= <-]. unfold keyframeSpans, makeTypography. simpl.
  destruct (type options); reflexivity.
Qed.

(** C7, amended. Every animator [apply] appends carries one keyframe. Its
    end frame is at least one frame after its start frame. It does not
    exceed the layer's end frame when the start frame lies before the
    layer's end; when the start frame is at or past the layer's end, the
    end frame is the start frame plus one, past the layer's end. *)
Theorem apply_keyframe_frames (options : TextMotionOptions) (p : TextMotionPreset)
    (ly : Text.TextLayer) :
  layer p = Some ly ->
  let lastFrame := Text.startTime ly + Text.duration ly in
  exists new : list Text.TextAnimator,
    presetAnimators (apply options p).2 =
      take (baseAnimatorCount p) (Text.animators ly) ++ new /\
    Forall (fun a => exists s e : Z,
              keyframeSpans a = [(s, e)] /\
              s + 1 <= e /\
              (s < lastFrame -> e <= lastFrame) /\
              (lastFrame <= s -> e = s + 1)) new.
Proof.
  intros Hly lastFrame.
  destruct (apply_layer options p ly Hly) as (ly' & Hly' & Han & _).
  exists (generatedAnimators options (frameRate p) ly). split.
  - unfold presetAnimators. by rewrite Hly', Han.
  - unfold generatedAnimators. destruct (Text.getTextDocument ly) as [doc |]; [| constructor].
    generalize (length (BuildRanges (effect options) (concat (GetLines doc)))).
    generalize (length (concat (GetLines doc))).
    generalize 0%nat.
    induction (BuildRanges (effect options) (concat (GetLines doc))) as [| r rest IH];
      intros i glyphCount rangeCount; simpl; [constructor |].
    destruct (makeAnimator options ly (frameRate p) doc glyphCount rangeCount i r)
      as [a |] eqn:Ea; [| apply IH].
    constructor; [| apply IH].
    exists (rangeStartFrame options ly (frameRate p) rangeCount i),
           (rangeEndFrame options ly (frameRate p) rangeCount i).
    split; [eapply makeAnimator_spans, Ea |].
    unfold rangeEndFrame. apply clampEndFrame_spec.
Qed.

End TextMotionClaims.

Lemma apply_on_whitespace_document_witness :
  let p := TextMotion.TextMotionPreset_new (Some (shortTextLayer "  ")) (Fin 60) in
  (@TextMotion.apply Reference.external staggeredFade p).1 = true /\
  length (presetAnimators (@TextMotion.apply Reference.external staggeredFade p).2) = 1%nat.
Proof.
  intros p.
  assert (Hws : Forall (fun g => TextMotion.IsWhitespaceGlyph g = true)
                  (concat (@GetLines Reference.external
                             (Text.MkTextDocument "  " (Fin 10) "" "")))).
  { repeat constructor. }
  destruct (@apply_on_whitespace_document Reference.external staggeredFade p
              (shortTextLayer "  ") (Text.MkTextDocument "  " (Fin 10) "" "")
              eq_refl eq_refl Hws) as [_ Hsome].
  destruct Hsome as (Hret & _ & _ & a & Han & _); [discriminate |].
  split; [exact Hret |]. rewrite Han. reflexivity.
Defined.

(** C4 as stated fails: a text of two spaces has two whitespace glyphs, and
    [apply] returns true and appends an animator. *)
Lemma apply_on_blank_text_creates_animator :
  let p := TextMotion.TextMotionPreset_new (Some (shortTextLayer "  ")) (Fin 60) in
  let r := @TextMotion.apply Reference.external staggeredFade p in
  forallb TextMotion.IsWhitespaceGlyph
    (concat (Reference.GetLines (Text.MkTextDocument "  " (Fin 10) "" ""))) = true /\
  r.1 = true /\
  length (presetAnimators p) = 0%nat /\
  length (presetAnimators r.2) = 1%nat.
Proof. vm_compute. repeat split; reflexivity. Qed.

Lemma apply_keyframe_frames_witness :
  let p := TextMotion.TextMotionPreset_new (Some (shortTextLayer "ab")) (Fin 60) in
  exists new : list Text.TextAnimator,
    presetAnimators (@TextMotion.apply Reference.external staggeredFade p).2 = new /\
    Forall (fun a => exists s e : Z, keyframeSpans a = [(s, e)] /\ s + 1 <= e) new.
Proof.
  intros p.
  destruct (@apply_keyframe_frames Reference.external staggeredFade p
              (shortTextLayer "ab") eq_refl) as (new & Hnew & Hall).
  exists new. split; [exact Hnew |].
  eapply Forall_impl; [exact Hall |].
  intros a (s & e & Hspan & Hle & _). exists s, e. split; assumption.
Defined.

(** C7 as stated fails: on a ten-frame layer at 60 frames per second the
    second letter of a fade staggered by one second starts at frame 60, and
    its keyframe ends at frame 61, past the layer's end frame 10. *)
Lemma apply_end_frame_past_layer_end :
  let ly := shortTextLayer "ab" in
  let p := TextMotion.TextMotionPreset_new (Some ly) (Fin 60) in
  let r := @TextMotion.apply Reference.external staggeredFade p in
  Text.startTime ly + Text.duration ly = 10 /\
  map keyframeSpans (presetAnimators r.2) = [[(0, 10)]; [(60, 61)]].
Proof. vm_compute. split; reflexivity. Qed.

(** ** Frames across two nested timelines *)

(** *** Signs in binary32 *)

Lemma binary_round_aux_opp (s : bool) (mx ex : Z) (lx : location) :
  binary_round_aux F32.prec F32.emax (negb s) mx ex lx =
  SFopp (binary_round_aux F32.prec F32.emax s mx ex lx).
Proof.
  unfold binary_round_aux.
  destruct (shr_fexp F32.prec F32.emax mx ex lx) as [mrs' e'].
  destruct (shr_fexp F32.prec F32.emax _ e' loc_Exact) as [mrs'' e''].
  destruct (shr_m mrs''); try reflexivity.
  destruct (e'' <=? F32.emax - F32.prec); reflexivity.
Qed.

Lemma binary_round_opp (s : bool) (m : positive) (e : Z) :
  binary_round F32.prec F32.emax (negb s) m e =
  SFopp (binary_round F32.prec F32.emax s m e).
Proof.
  unfold binary_round.
  destruct (shl_align m e _) as [mz ez]. apply binary_round_aux_opp.
Qed.

Lemma F32_of_Z_opp (c : Z) : c <> 0 -> F32.of_Z (- c) = SFopp (F32.of_Z c).
Proof.
  intros Hc. destruct c as [| p | p]; [contradiction | |]; simpl.
  - apply (binary_round_opp false).
  - unfold F32.of_Z, binary_normalize.
    rewrite (binary_round_opp true). simpl.
    by destruct (binary_round F32.prec F32.emax true p 0).
Qed.

Lemma F32_mul_opp (x y : F32.float32) : F32.mul (SFopp x) y = SFopp (F32.mul x y).
Proof.
  destruct x as [sx | sx | | sx mx ex], y as [sy | sy | | sy my ey]; simpl;
    try reflexivity; try (by destruct sx, sy).
  rewrite <- binary_round_aux_opp. f_equal. by destruct sx, sy.
Qed.

Lemma F32_roundf_opp (x : F32.float32) : F32.roundf (SFopp x) = SFopp (F32.roundf x).
Proof.
  destruct x as [s | s | | s m e]; simpl; try reflexivity.
  destruct (0 <=? e); [reflexivity |].
  destruct (if Z.testbit (Z.pos m) (- e - 1)
            then Z.shiftr (Z.pos m) (- e) + 1 else Z.shiftr (Z.pos m) (- e));
    try reflexivity.
  apply binary_round_opp.
Qed.

Lemma F32_to_Z_opp (x : F32.float32) (z : Z) :
  F32.to_Z x = Some z -> -9223372036854775808 < z ->
  F32.to_Z (SFopp x) = Some (- z).
Proof.
  destruct x as [s | s | | s m e]; simpl; try discriminate.
  - intros [= <-] _. reflexivity.
  - set (n := if 0 <=? e then Z.shiftl (Z.pos m) e else Z.shiftr (Z.pos m) (- e)).
    intros Hz Hlo.
    destruct ((-9223372036854775808 <=? (if s then - n else n)) &&
              ((if s then - n else n) <? 9223372036854775808)) eqn:Hin;
      [| discriminate].
    injection Hz as <-.
    apply andb_true_iff in Hin as [H1 H2].
    apply Z.leb_le in H1. apply Z.ltb_lt in H2.
    assert (Hin' : (-9223372036854775808 <=? (if negb s then - n else n)) &&
                   ((if negb s then - n else n) <? 9223372036854775808) = true).
    { apply andb_true_iff. split; [apply Z.leb_le | apply Z.ltb_lt]; destruct s; simpl in *; lia. }
    rewrite Hin'. f_equal. destruct s; simpl; lia.
Qed.

(** The conversion step is odd in the frame. *)
Lemma scaleFrame_opp (timeScale : F32.float32) (c z : Z) :
  c <> 0 -> scaleFrame timeScale c = Some z -> -9223372036854775808 < z ->
  scaleFrame timeScale (- c) = Some (- z).
Proof.
  intros Hc Hz Hlo. unfold scaleFrame in *.
  rewrite F32_of_Z_opp, F32_mul_opp, F32_roundf_opp by exact Hc.
  by apply F32_to_Z_opp.
Qed.

(** *** The binary32 operations in integers *)

(** The number of bits of a significand. *)
Lemma digits2_pos_size (p : positive) : digits2_pos p = Pos.size p.
Proof. induction p; simpl; congruence. Qed.

Lemma digits2_log2 (p : positive) : Z.pos (digits2_pos p) = Z.log2 (Z.pos p) + 1.
Proof.
  rewrite digits2_pos_size. destruct p; simpl; try reflexivity.
  - rewrite Pos2Z.inj_succ. lia.
  - rewrite Pos2Z.inj_succ. lia.
Qed.

Lemma iter_xO (p k : positive) : Z.pos (Pos.iter xO p k) = Z.pos p * 2 ^ Z.pos k.
Proof.
  induction k as [| k IH] using Pos.peano_ind.
  - simpl. lia.
  - rewrite Pos.iter_succ, Pos2Z.inj_succ, Z.pow_succ_r by lia.
    rewrite Pos2Z.inj_xO, IH. ring.
Qed.

(** Shifting right keeps the quotient, the last bit shifted out and
    whether any bit below it was set. *)
Lemma shr_1_spec (m : Z) (r s : bool) :
  0 <= m ->
  shr_1 (Build_shr_record m r s) = Build_shr_record (m / 2) (Z.odd m) (r || s).
Proof.
  intros Hm. destruct m as [| p | p]; [reflexivity | | lia].
  destruct p as [p | p |]; simpl.
  - f_equal. rewrite Pos2Z.inj_xI. rewrite Z.mul_comm, Z.div_add_l by lia.
    change (1 / 2) with 0. lia.
  - f_equal. rewrite Pos2Z.inj_xO. rewrite Z.mul_comm, Z.div_mul by lia. reflexivity.
  - reflexivity.
Qed.

Lemma iter_pos_nat {A : Type} (f : A -> A) (p : positive) (x : A) :
  SpecFloat.iter_pos f p x = @Nat.iter (Pos.to_nat p) A f x.
Proof.
  revert x. induction p as [p IH | p IH |]; intros x; cbn [SpecFloat.iter_pos].
  - rewrite !IH. rewrite Pos2Nat.inj_xI.
    replace (S (2 * Pos.to_nat p))%nat with (Pos.to_nat p + Pos.to_nat p + 1)%nat by lia.
    rewrite !Nat.iter_add. reflexivity.
  - rewrite !IH. rewrite Pos2Nat.inj_xO.
    replace (2 * Pos.to_nat p)%nat with (Pos.to_nat p + Pos.to_nat p)%nat by lia.
    rewrite Nat.iter_add. reflexivity.
  - reflexivity.
Qed.

Lemma shr_iter (m : Z) (k : nat) :
  0 <= m ->
  @Nat.iter (S k) _ shr_1 (Build_shr_record m false false) =
  Build_shr_record (m / 2 ^ Z.of_nat (S k)) (Z.testbit m (Z.of_nat k))
    (negb (m mod 2 ^ Z.of_nat k =? 0)).
Proof.
  intros Hm. induction k as [| k IH].
  - change (@Nat.iter 1 _ shr_1 ?x) with (shr_1 x). rewrite shr_1_spec by exact Hm.
    change (2 ^ Z.of_nat 1) with 2. change (Z.of_nat 0) with 0.
    rewrite Z.bit0_odd. rewrite Z.pow_0_r, Z.mod_1_r. reflexivity.
  - change (@Nat.iter (S (S k)) _ shr_1 ?x) with (shr_1 (@Nat.iter (S k) _ shr_1 x)).
    rewrite IH.
    assert (Hq : 0 <= m / 2 ^ Z.of_nat (S k)) by (apply Z.div_pos; [lia | apply Z.pow_pos_nonneg; lia]).
    rewrite shr_1_spec by exact Hq.
    f_equal.
    + rewrite Z.div_div by (try apply Z.pow_pos_nonneg; lia).
      f_equal. rewrite (Nat2Z.inj_succ (S k)), Z.pow_succ_r by lia. ring.
    + rewrite Z.testbit_odd, Z.shiftr_div_pow2 by lia. reflexivity.
    + pose proof (Z.testbit_spec' m (Z.of_nat k) ltac:(lia)) as Hb.
      assert (Hpow : 0 < 2 ^ Z.of_nat k) by (apply Z.pow_pos_nonneg; lia).
      assert (Hsplit : m mod 2 ^ Z.of_nat (S k) =
                       m mod 2 ^ Z.of_nat k + 2 ^ Z.of_nat k * ((m / 2 ^ Z.of_nat k) mod 2)).
      { rewrite Nat2Z.inj_succ, Z.pow_succ_r by lia.
        rewrite (Z.mul_comm 2). apply Z.rem_mul_r; lia. }
      pose proof (Z.mod_pos_bound m (2 ^ Z.of_nat k) Hpow) as Hlow.
      rewrite Hsplit, <- Hb.
      destruct (Z.testbit m (Z.of_nat k)); simpl Z.b2z; simpl orb.
      * symmetry. apply negb_true_iff, Z.eqb_neq. lia.
      * f_equal. rewrite Z.mul_0_r, Z.add_0_r. reflexivity.
Qed.

Lemma shr_spec (m e : Z) (n : positive) :
  0 <= m ->
  shr (Build_shr_record m false false) e (Z.pos n) =
  (Build_shr_record (m / 2 ^ Z.pos n) (Z.testbit m (Z.pos n - 1))
     (negb (m mod 2 ^ (Z.pos n - 1) =? 0)), e + Z.pos n).
Proof.
  intros Hm. unfold shr. rewrite iter_pos_nat.
  destruct (Pos2Nat.is_succ n) as [k Hk]. rewrite Hk, shr_iter by exact Hm.
  assert (E : Z.pos n = Z.of_nat (S k)) by lia.
  rewrite <- E. replace (Z.of_nat k) with (Z.pos n - 1) by lia. reflexivity.
Qed.

(** Away from the subnormal numbers a [float] has 24 bits. *)
Lemma fexp_normal (e : Z) : -125 <= e -> fexp F32.prec F32.emax e = e - 24.
Proof. intros He. unfold fexp, emin, F32.prec, F32.emax. lia. Qed.

Lemma shr_fexp_exact (m : positive) (e : Z) :
  let n := Z.log2 (Z.pos m) + 1 - 24 in
  -125 <= Z.log2 (Z.pos m) + 1 + e ->
  shr_fexp F32.prec F32.emax (Z.pos m) e loc_Exact =
    if 0 <? n
    then (Build_shr_record (Z.pos m / 2 ^ n) (Z.testbit (Z.pos m) (n - 1))
            (negb (Z.pos m mod 2 ^ (n - 1) =? 0)), e + n)
    else (Build_shr_record (Z.pos m) false false, e).
Proof.
  intros n He. unfold shr_fexp. cbn [Zdigits2 shr_record_of_loc].
  rewrite digits2_log2, fexp_normal by exact He.
  replace (Z.log2 (Z.pos m) + 1 + e - 24 - e) with n by (unfold n; lia).
  destruct (Z.ltb_spec 0 n) as [Hn | Hn].
  - destruct n as [| p | p]; try lia. apply shr_spec. lia.
  - destruct n as [| p | p]; try lia; reflexivity.
Qed.

Lemma rne_bounds (m n : Z) :
  0 < n -> Z.log2 m = 23 + n -> 2 ^ 23 <= rne m n <= 2 ^ 24.
Proof.
  intros Hn Hlog.
  assert (Hm : 0 < m).
  { destruct m as [| p | p]; [| lia |].
    - change (Z.log2 0) with 0 in Hlog. lia.
    - change (Z.log2 (Z.neg p)) with 0 in Hlog. lia. }
  destruct (Z.log2_spec m Hm) as [Hlo Hhi]. rewrite Hlog in Hlo, Hhi.
  assert (Hp : 0 < 2 ^ n) by (apply Z.pow_pos_nonneg; lia).
  assert (Hq : 2 ^ 23 <= m / 2 ^ n < 2 ^ 24).
  { split.
    - apply Z.div_le_lower_bound; [lia |]. rewrite <- Z.pow_add_r by lia.
      replace (n + 23) with (23 + n) by lia. exact Hlo.
    - apply Z.div_lt_upper_bound; [lia |]. rewrite <- Z.pow_add_r by lia.
      replace (n + 24) with (Z.succ (23 + n)) by lia. exact Hhi. }
  unfold rne. cbv zeta.
  destruct (Z.testbit m (n - 1)); [| lia].
  destruct (m mod 2 ^ (n - 1) =? 0); [destruct (Z.even (m / 2 ^ n)) |]; lia.
Qed.

(** The rounding of the product of two 24-bit significands: to 24 bits,
    and to 2^23 with the next exponent when it rounds up to 2^24. *)
Lemma binary_round_aux_product (s : bool) (M : positive) (E : Z) :
  let n := Z.log2 (Z.pos M) + 1 - 24 in
  let q := rne (Z.pos M) n in
  0 < n -> -125 <= E + n -> E + n < 100 ->
  binary_round_aux F32.prec F32.emax s (Z.pos M) E loc_Exact =
    if q <? 2 ^ 24 then S754_finite s (Z.to_pos q) (E + n)
    else S754_finite s (Z.to_pos (2 ^ 23)) (E + n + 1).
Proof.
  intros n q Hn Hlo Hhi. unfold binary_round_aux.
  rewrite shr_fexp_exact by (fold n; lia). fold n.
  destruct (Z.ltb_spec 0 n) as [_ | ]; [| lia].
  cbn [shr_m].
  assert (Eq : round_nearest_even (Z.pos M / 2 ^ n)
                 (loc_of_shr_record
                    (Build_shr_record (Z.pos M / 2 ^ n) (Z.testbit (Z.pos M) (n - 1))
                       (negb (Z.pos M mod 2 ^ (n - 1) =? 0)))) = q).
  { unfold q, rne. cbv zeta. cbn [loc_of_shr_record].
    destruct (Z.testbit (Z.pos M) (n - 1)); destruct (Z.pos M mod 2 ^ (n - 1) =? 0);
      reflexivity. }
  rewrite Eq.
  pose proof (rne_bounds (Z.pos M) n Hn ltac:(unfold n; lia)) as Hq. fold q in Hq.
  change (2 ^ 23) with 8388608 in *. change (2 ^ 24) with 16777216 in *.
  destruct q as [| pq | pq]; try lia.
  destruct (Z.ltb_spec (Z.pos pq) 16777216) as [Hlt | Hge].
  - assert (Hlog : Z.log2 (Z.pos pq) = 23).
    { apply Z.log2_unique; [lia |]. change (2 ^ 23) with 8388608.
      change (2 ^ Z.succ 23) with 16777216. lia. }
    rewrite shr_fexp_exact by (rewrite Hlog; lia). rewrite Hlog.
    change (23 + 1 - 24) with 0. change (0 <? 0) with false. cbv iota. cbn [shr_m].
    destruct (Z.leb_spec (E + n) (F32.emax - F32.prec)) as [_ | Hbad];
      [reflexivity | unfold F32.emax, F32.prec in Hbad; lia].
  - assert (Epq : Z.pos pq = 16777216) by lia.
    injection Epq as ->.
    rewrite shr_fexp_exact by (change (Z.log2 16777216) with 24; lia).
    change (Z.log2 16777216 + 1 - 24) with 1. change (0 <? 1) with true.
    cbv iota. cbn [shr_m].
    change (16777216 / 2 ^ 1) with 8388608.
    destruct (Z.leb_spec (E + n + 1) (F32.emax - F32.prec)) as [_ | Hbad];
      [reflexivity | unfold F32.emax, F32.prec in Hbad; lia].
Qed.

Lemma binary_round_aux_exact (s : bool) (m : positive) (e : Z) :
  Z.log2 (Z.pos m) = 23 -> -149 <= e -> e <= 104 ->
  binary_round_aux F32.prec F32.emax s (Z.pos m) e loc_Exact = S754_finite s m e.
Proof.
  intros Hlog Hlo Hhi. unfold binary_round_aux.
  rewrite shr_fexp_exact by (rewrite Hlog; lia). rewrite Hlog.
  change (23 + 1 - 24) with 0. change (0 <? 0) with false. cbv iota.
  cbn [shr_m loc_of_shr_record round_nearest_even].
  rewrite shr_fexp_exact by (rewrite Hlog; lia). rewrite Hlog.
  change (23 + 1 - 24) with 0. change (0 <? 0) with false. cbv iota. cbn [shr_m].
  destruct (Z.leb_spec e (F32.emax - F32.prec)) as [_ | Hbad];
    [reflexivity | unfold F32.emax, F32.prec in Hbad; lia].
Qed.

(** An integer below 2^24 as a [float]: its bits aligned to 24. *)
Lemma binary_round_int (s : bool) (p : positive) :
  Z.pos p < 2 ^ 24 ->
  let k := 23 - Z.log2 (Z.pos p) in
  binary_round F32.prec F32.emax s p 0 = S754_finite s (Z.to_pos (Z.pos p * 2 ^ k)) (- k).
Proof.
  intros Hp k.
  assert (Hlog : 0 <= Z.log2 (Z.pos p) < 24).
  { split; [apply Z.log2_nonneg | apply Z.log2_lt_pow2; lia]. }
  assert (Hk : 0 <= k <= 23) by (unfold k; lia).
  assert (Hmz : Z.log2 (Z.pos p * 2 ^ k) = 23).
  { rewrite Z.log2_mul_pow2 by lia. unfold k. lia. }
  unfold binary_round. rewrite digits2_log2, Z.add_0_r, fexp_normal by lia.
  unfold shl_align.
  replace (Z.log2 (Z.pos p) + 1 - 24 - 0) with (- k) by (unfold k; lia).
  destruct k as [| kp | kp] eqn:Ek; try lia.
  - cbn [Z.opp]. rewrite Z.mul_1_r in *. cbn [Z.to_pos].
    apply binary_round_aux_exact; [exact Hmz | lia | lia].
  - cbn [Z.opp].
    assert (Emz : Z.pos (Pos.iter xO p kp) = Z.pos p * 2 ^ Z.pos kp) by apply iter_xO.
    rewrite <- Emz in Hmz |- *. cbn [Z.to_pos].
    replace (Z.log2 (Z.pos p) + 1 - 24) with (Z.neg kp) by lia.
    apply binary_round_aux_exact; [exact Hmz | lia | lia].
Qed.

Lemma F32_to_Z_int (s : bool) (p : positive) :
  Z.pos p < 2 ^ 24 ->
  F32.to_Z (binary_round F32.prec F32.emax s p 0) = Some (if s then Z.neg p else Z.pos p).
Proof.
  intros Hp. rewrite binary_round_int by exact Hp.
  assert (Hlog : 0 <= Z.log2 (Z.pos p) < 24).
  { split; [apply Z.log2_nonneg | apply Z.log2_lt_pow2; lia]. }
  set (k := 23 - Z.log2 (Z.pos p)).
  assert (Hk : 0 <= k <= 23) by (unfold k; lia).
  assert (Hpow : 0 < 2 ^ k) by (apply Z.pow_pos_nonneg; lia).
  unfold F32.to_Z.
  assert (Em : Z.pos (Z.to_pos (Z.pos p * 2 ^ k)) = Z.pos p * 2 ^ k)
    by (apply Z2Pos.id; lia).
  rewrite Em.
  assert (En : (if 0 <=? - k then Z.shiftl (Z.pos p * 2 ^ k) (- k)
                else Z.shiftr (Z.pos p * 2 ^ k) (- - k)) = Z.pos p).
  { destruct (Z.leb_spec 0 (- k)) as [H0 | H0].
    - assert (E0 : k = 0) by lia. rewrite E0. change (- 0) with 0.
      rewrite Z.shiftl_0_r, Z.pow_0_r. lia.
    - rewrite Z.opp_involutive, Z.shiftr_div_pow2, Z.div_mul by lia. reflexivity. }
  rewrite En.
  change (2 ^ 24) with 16777216 in Hp.
  destruct s.
  - change (- Z.pos p) with (Z.neg p).
    destruct (Z.leb_spec (-9223372036854775808) (Z.neg p)); [| lia].
    destruct (Z.ltb_spec (Z.neg p) 9223372036854775808); [reflexivity | lia].
  - destruct (Z.leb_spec (-9223372036854775808) (Z.pos p)); [| lia].
    destruct (Z.ltb_spec (Z.pos p) 9223372036854775808); [reflexivity | lia].
Qed.

(** [roundf] and the cast, on a [float] with a negative exponent. *)
Lemma F32_roundf_to_Z (m : positive) (e : Z) :
  e < 0 -> Z.pos m < 2 ^ 24 ->
  F32.to_Z (F32.roundf (S754_finite false m e)) =
    Some ((Z.pos m + 2 ^ (- e - 1)) / 2 ^ (- e)).
Proof.
  intros He Hm. unfold F32.roundf.
  destruct (Z.leb_spec 0 e) as [| _]; [lia |].
  set (k := - e). assert (Hk : 0 < k) by (unfold k; lia).
  replace (- e - 1) with (k - 1) by (unfold k; lia).
  assert (Hh : 0 < 2 ^ (k - 1)) by (apply Z.pow_pos_nonneg; lia).
  assert (E2 : 2 ^ k = 2 ^ (k - 1) * 2).
  { replace k with (Z.succ (k - 1)) at 1 by lia. rewrite Z.pow_succ_r by lia. ring. }
  pose proof (Z.testbit_spec' (Z.pos m) (k - 1) ltac:(lia)) as Hb.
  assert (Esum : (Z.pos m + 2 ^ (k - 1)) / 2 ^ k =
                 Z.pos m / 2 ^ k + (Z.pos m / 2 ^ (k - 1)) mod 2).
  { rewrite E2. set (h := 2 ^ (k - 1)) in *.
    rewrite <- !Z.div_div by lia.
    replace (Z.pos m + h) with (Z.pos m + 1 * h) by ring.
    rewrite Z.div_add by lia.
    set (a := Z.pos m / h).
    pose proof (Z.div_mod a 2 ltac:(lia)) as Ha.
    pose proof (Z.mod_pos_bound a 2 ltac:(lia)) as Hr.
    assert (Ecase : a mod 2 = 0 \/ a mod 2 = 1) by lia.
    destruct Ecase as [E0 | E1].
    - rewrite E0 in *. replace (a + 1) with (1 + a / 2 * 2) by lia.
      rewrite Z.div_add by lia. change (1 / 2) with 0. lia.
    - rewrite E1 in *. replace (a + 1) with (0 + (a / 2 + 1) * 2) by lia.
      rewrite Z.div_add by lia. change (0 / 2) with 0. lia. }
  rewrite Esum, <- Hb, Z.shiftr_div_pow2 by lia.
  assert (Hq : 0 <= Z.pos m / 2 ^ k) by (apply Z.div_pos; [lia | lia]).
  assert (Hqb : Z.pos m / 2 ^ k < 2 ^ 23).
  { apply Z.div_lt_upper_bound; [lia |].
    assert (2 ^ 1 <= 2 ^ k) by (apply Z.pow_le_mono_r; lia).
    change (2 ^ 1) with 2 in *. change (2 ^ 24) with 16777216 in *.
    change (2 ^ 23) with 8388608. nia. }
  change (2 ^ 23) with 8388608 in Hqb.
  destruct (Z.testbit (Z.pos m) (k - 1)); cbn [Z.b2z].
  - destruct (Z.pos m / 2 ^ k + 1) as [| p | p] eqn:En; try lia.
    rewrite F32_to_Z_int by (change (2 ^ 24) with 16777216; lia). reflexivity.
  - rewrite Z.add_0_r.
    destruct (Z.pos m / 2 ^ k) as [| p | p] eqn:En; try lia.
    + reflexivity.
    + rewrite F32_to_Z_int by (change (2 ^ 24) with 16777216; lia). reflexivity.
Qed.

(** The product of two 24-bit significands has 47 or 48 bits. *)
Lemma product_log2 (x y : Z) :
  Z.log2 x = 23 -> Z.log2 y = 23 -> 46 <= Z.log2 (x * y) <= 47.
Proof.
  intros Hx Hy.
  assert (Px : 0 < x) by (destruct x; try lia; discriminate).
  assert (Py : 0 < y) by (destruct y; try lia; discriminate).
  destruct (Z.log2_spec x Px) as [X1 X2]. destruct (Z.log2_spec y Py) as [Y1 Y2].
  rewrite Hx in X1, X2. rewrite Hy in Y1, Y2.
  change (2 ^ 23) with 8388608 in *. change (2 ^ Z.succ 23) with 16777216 in *.
  split.
  - apply Z.log2_le_pow2; [nia |]. change (2 ^ 46) with (8388608 * 8388608). nia.
  - assert (Z.log2 (x * y) < 48); [| lia].
    apply Z.log2_lt_pow2; [nia |]. change (2 ^ 48) with (16777216 * 16777216). nia.
Qed.

(** The step on a positive frame below 2^24, when its result is below
    2^24 too. *)
Lemma scaleFrame_normal (mt c : positive) (et : Z) :
  Z.log2 (Z.pos mt) = 23 -> Z.pos c < 2 ^ 24 -> -100 <= et ->
  let d := Z.log2 (Z.pos c) + 1 in
  let n := Z.log2 (Z.pos c * 2 ^ (24 - d) * Z.pos mt) + 1 - 24 in
  d - 24 + et + n < 0 ->
  scaleFrame (S754_finite false mt et) (Z.pos c) =
    Some (scaledFrame (Z.pos mt) et (Z.pos c)).
Proof.
  intros Hmt Hc Het d n He.
  assert (Hlog : 0 <= Z.log2 (Z.pos c) < 24).
  { split; [apply Z.log2_nonneg | apply Z.log2_lt_pow2; lia]. }
  unfold scaleFrame, F32.of_Z, binary_normalize.
  rewrite binary_round_int by exact Hc.
  set (k := 23 - Z.log2 (Z.pos c)).
  assert (Ek : 24 - d = k) by (unfold d, k; lia).
  assert (Hk : 0 <= k <= 23) by (unfold k; lia).
  assert (Hpow : 0 < 2 ^ k) by (apply Z.pow_pos_nonneg; lia).
  set (X := Z.to_pos (Z.pos c * 2 ^ k)).
  assert (EX : Z.pos X = Z.pos c * 2 ^ k) by (apply Z2Pos.id; lia).
  assert (HX : Z.log2 (Z.pos X) = 23).
  { rewrite EX, Z.log2_mul_pow2 by lia. unfold k. lia. }
  unfold F32.mul, SFmul. cbn [xorb].
  pose proof (product_log2 (Z.pos X) (Z.pos mt) HX Hmt) as HM.
  rewrite <- Pos2Z.inj_mul in HM.
  assert (EM : Z.pos (X * mt) = Z.pos c * 2 ^ (24 - d) * Z.pos mt).
  { rewrite Pos2Z.inj_mul, EX, Ek. reflexivity. }
  assert (En : Z.log2 (Z.pos (X * mt)) + 1 - 24 = n) by (unfold n; rewrite EM; reflexivity).
  assert (Hn : 23 <= n <= 24) by lia.
  rewrite binary_round_aux_product by lia. rewrite En.
  replace (- k + et + n) with (d - 24 + et + n) by lia.
  set (e := d - 24 + et + n) in *.
  unfold scaledFrame. cbv zeta. fold d. rewrite <- EM, En. fold e.
  set (q := rne (Z.pos (X * mt)) n).
  pose proof (rne_bounds (Z.pos (X * mt)) n ltac:(lia) ltac:(lia)) as Hq. fold q in Hq.
  change (2 ^ 23) with 8388608 in *. change (2 ^ 24) with 16777216 in *.
  destruct (Z.ltb_spec q 16777216) as [Hlt | Hge].
  - rewrite F32_roundf_to_Z; [| exact He | rewrite Z2Pos.id by lia; exact Hlt].
    rewrite Z2Pos.id by lia. reflexivity.
  - assert (Eq : q = 16777216) by lia. rewrite Eq.
    change (Z.to_pos 8388608) with 8388608%positive.
    destruct (Z.eq_dec e (-1)) as [E1 | E1].
    + rewrite E1. reflexivity.
    + rewrite F32_roundf_to_Z by (try reflexivity; lia).
      f_equal.
      replace (- e) with (Z.succ (- (e + 1))) by lia.
      replace (Z.succ (- (e + 1)) - 1) with (Z.succ (- (e + 1) - 1)) by lia.
      rewrite !Z.pow_succ_r by lia.
      replace (16777216 + 2 * 2 ^ (- (e + 1) - 1))
        with (2 * (8388608 + 2 ^ (- (e + 1) - 1))) by lia.
      rewrite Z.div_mul_cancel_l; [reflexivity | | lia].
      apply Z.pow_nonzero; lia.
Qed.

Lemma scaleFrame_by_binade (mt c : positive) (et d n : Z) :
  Z.log2 (Z.pos mt) = 23 -> -100 <= et ->
  1 <= d <= 24 -> 2 ^ (d - 1) <= Z.pos c < 2 ^ d ->
  2 ^ (23 + n) <= Z.pos c * 2 ^ (24 - d) * Z.pos mt < 2 ^ (24 + n) ->
  d - 24 + et + n < 0 ->
  scaleFrame (S754_finite false mt et) (Z.pos c) = Some (scaledAt (Z.pos mt) et d n (Z.pos c)).
Proof.
  intros Hmt Het Hd Hc HM He.
  assert (Ed : Z.log2 (Z.pos c) + 1 = d).
  { assert (Z.log2 (Z.pos c) = d - 1); [| lia].
    apply Z.log2_unique; [lia |]. replace (Z.succ (d - 1)) with d by lia. exact Hc. }
  assert (Hn : 0 <= 23 + n).
  { destruct (Z_lt_le_dec (23 + n) 0) as [Hneg | ]; [| assumption].
    rewrite (Z.pow_neg_r 2 (23 + n)) in HM by exact Hneg.
    replace (24 + n) with (Z.succ (23 + n)) in HM by lia.
    destruct (Z.eq_dec (23 + n) (-1)) as [E1 | E1].
    - rewrite E1 in HM. change (2 ^ Z.succ (-1)) with 1 in HM. lia.
    - rewrite (Z.pow_neg_r 2 (Z.succ (23 + n))) in HM by lia. lia. }
  assert (En : Z.log2 (Z.pos c * 2 ^ (24 - d) * Z.pos mt) + 1 - 24 = n).
  { assert (Z.log2 (Z.pos c * 2 ^ (24 - d) * Z.pos mt) = 23 + n); [| lia].
    apply Z.log2_unique; [exact Hn |].
    replace (Z.succ (23 + n)) with (24 + n) by lia. exact HM. }
  assert (Hc24 : Z.pos c < 2 ^ 24).
  { apply Z.lt_le_trans with (2 ^ d); [lia | apply Z.pow_le_mono_r; lia]. }
  rewrite scaleFrame_normal; try assumption.
  - unfold scaledFrame, scaledAt. cbv zeta. rewrite Ed, En. reflexivity.
  - cbv zeta. rewrite Ed, En. exact He.
Qed.

(** The three cases of rounding to nearest: below the half, at it (to the
    even neighbour) and above it. *)
Lemma rne_cases (m n : Z) :
  0 <= m -> 0 < n ->
  let q := m / 2 ^ n in
  let r := m mod 2 ^ n in
  let h := 2 ^ (n - 1) in
  (r < h /\ rne m n = q) \/
  (r = h /\ rne m n = q + q mod 2) \/
  (h < r /\ rne m n = q + 1).
Proof.
  intros Hm Hn q r h. unfold rne. cbv zeta. fold h. fold q.
  assert (Hsplit : r = m mod h + h * ((m / h) mod 2)).
  { unfold r, h.
    assert (E : 2 ^ n = 2 ^ (n - 1) * 2).
    { replace n with (Z.succ (n - 1)) at 1 by lia. rewrite Z.pow_succ_r by lia. ring. }
    rewrite E. apply Z.rem_mul_r; [apply Z.pow_nonzero; lia | lia]. }
  assert (Hh : 0 < h) by (apply Z.pow_pos_nonneg; lia).
  pose proof (Z.mod_pos_bound m h Hh) as Hlow.
  pose proof (Z.testbit_spec' m (n - 1) ltac:(lia)) as Hb. fold h in Hb.
  destruct (Z.testbit m (n - 1)); simpl in Hb.
  - destruct (Z.eqb_spec (m mod h) 0) as [El | El].
    + right. left. split; [lia |].
      rewrite Zeven_mod. pose proof (Z.mod_pos_bound q 2 ltac:(lia)).
      destruct (Z.eqb_spec (q mod 2) 0) as [Eq | Eq]; lia.
    + right. right. split; [lia | reflexivity].
  - left. split; [lia | reflexivity].
Qed.

(** Evaluate the closed parts of a step in a given binade and leave the
    three cases of the rounding to linear arithmetic. *)
Ltac binade :=
  match goal with
  | |- context [scaledAt ?mt ?et ?d ?n ?c] =>
      unfold scaledAt; cbv zeta;
      let K := eval vm_compute in (2 ^ (24 - d) * mt) in
      replace (c * 2 ^ (24 - d) * mt) with (c * K) by (rewrite <- Z.mul_assoc; reflexivity);
      let e := eval vm_compute in (d - 24 + et + n) in
      change (d - 24 + et + n) with e;
      let p1 := eval vm_compute in (2 ^ (- e - 1)) in
      let p2 := eval vm_compute in (2 ^ (- e)) in
      change (2 ^ (- e - 1)) with p1; change (2 ^ (- e)) with p2;
      let h1 := eval vm_compute in (2 ^ n) in
      let h2 := eval vm_compute in (2 ^ (n - 1)) in
      let H := fresh "H" in
      destruct (rne_cases (c * K) n ltac:(lia) ltac:(lia)) as [[H ->] | [[H ->] | [H ->]]];
      cbv zeta in H;
      change (2 ^ n) with h1 in *; change (2 ^ (n - 1)) with h2 in *;
      Z.to_euclidean_division_equations; lia
  end.

Ltac for_binades d lo hi tac :=
  let b := eval vm_compute in (lo <=? hi) in
  match b with
  | true =>
      destruct (Z.eq_dec d lo) as [-> | ?];
      [ tac
      | let lo' := eval vm_compute in (lo + 1) in for_binades d lo' hi tac ]
  | false => exfalso; lia
  end.

Ltac pow_consts :=
  repeat match goal with
         | H : context [2 ^ ?k] |- _ =>
             let v := eval vm_compute in (2 ^ k) in
             progress change (2 ^ k) with v in H
         | |- context [2 ^ ?k] =>
             let v := eval vm_compute in (2 ^ k) in
             progress change (2 ^ k) with v
         end.

(** The arithmetic of the step, binade by binade, for the three time
    scales between 24 and 60 frames per second. *)
Lemma same_arith (d c : Z) :
  1 <= d <= 23 -> 2 ^ (d - 1) <= c < 2 ^ d ->
  let M := c * 2 ^ (24 - d) * 8388608 in
  (M < 2 ^ 47 -> d - 1 + -23 < 0 /\ scaledAt 8388608 (-23) d 23 c = c) /\
  (2 ^ 47 <= M -> d + -23 < 0 /\ scaledAt 8388608 (-23) d 24 c = c).
Proof.
  intros Hd Hc. cbv zeta.
  for_binades d 1 23
    ltac:(cbn [Z.sub Z.add Z.opp Z.pos_sub Pos.pred_double Pos.succ] in Hc |- *;
          pow_consts; split; (intros HM; split; [lia | try binade; exfalso; lia])).
Qed.

Lemma up_arith (d c : Z) :
  1 <= d <= 22 -> 2 ^ (d - 1) <= c < 2 ^ d -> c <= 2097152 ->
  let M := c * 2 ^ (24 - d) * 10485760 in
  (M < 2 ^ 47 -> d - 1 + -22 < 0 /\ scaledAt 10485760 (-22) d 23 c = (5 * c + 1) / 2) /\
  (2 ^ 47 <= M -> d + -22 < 0 /\ scaledAt 10485760 (-22) d 24 c = (5 * c + 1) / 2).
Proof.
  intros Hd Hc Hb. cbv zeta.
  for_binades d 1 22
    ltac:(cbn [Z.sub Z.add Z.opp Z.pos_sub Pos.pred_double Pos.succ] in Hc |- *;
          pow_consts; split; (intros HM; split; [lia | try binade; exfalso; lia])).
Qed.

Lemma down_arith (d c : Z) :
  1 <= d <= 23 -> 2 ^ (d - 1) <= c < 2 ^ d -> c <= 5242880 ->
  let M := c * 2 ^ (24 - d) * 13421773 in
  (M < 2 ^ 47 -> d - 1 + -25 < 0 /\ scaledAt 13421773 (-25) d 23 c = (4 * c + 5) / 10) /\
  (2 ^ 47 <= M -> d + -25 < 0 /\ scaledAt 13421773 (-25) d 24 c = (4 * c + 5) / 10).
Proof.
  intros Hd Hc Hb. cbv zeta.
  for_binades d 1 23
    ltac:(cbn [Z.sub Z.add Z.opp Z.pos_sub Pos.pred_double Pos.succ] in Hc |- *;
          pow_consts; split; (intros HM; split; [lia | try binade; exfalso; lia])).
Qed.

(** From the arithmetic of the binades to the step on a positive frame. *)
Lemma scaleFrame_from_arith (mt : positive) (et dmax bound : Z) (f : Z -> Z) :
  Z.log2 (Z.pos mt) = 23 -> -100 <= et -> 1 <= dmax <= 24 ->
  (forall d c : Z,
     1 <= d <= dmax -> 2 ^ (d - 1) <= c < 2 ^ d -> c <= bound ->
     let M := c * 2 ^ (24 - d) * Z.pos mt in
     (M < 2 ^ 47 -> d - 1 + et < 0 /\ scaledAt (Z.pos mt) et d 23 c = f c) /\
     (2 ^ 47 <= M -> d + et < 0 /\ scaledAt (Z.pos mt) et d 24 c = f c)) ->
  forall c : positive,
    Z.pos c < 2 ^ dmax -> Z.pos c <= bound ->
    scaleFrame (S754_finite false mt et) (Z.pos c) = Some (f (Z.pos c)).
Proof.
  intros Hmt Het Hdmax Harith c Hc Hb.
  set (d := Z.log2 (Z.pos c) + 1).
  destruct (Z.log2_spec (Z.pos c) ltac:(lia)) as [Hlo Hhi].
  assert (Hlog : 0 <= Z.log2 (Z.pos c)) by apply Z.log2_nonneg.
  assert (Hd : 1 <= d <= dmax).
  { split; [unfold d; lia |].
    assert (Z.log2 (Z.pos c) < dmax); [| unfold d; lia].
    apply Z.log2_lt_pow2; lia. }
  assert (Hcd : 2 ^ (d - 1) <= Z.pos c < 2 ^ d).
  { unfold d. replace (Z.log2 (Z.pos c) + 1 - 1) with (Z.log2 (Z.pos c)) by lia.
    replace (Z.log2 (Z.pos c) + 1) with (Z.succ (Z.log2 (Z.pos c))) by lia.
    split; assumption. }
  assert (Hpow : 0 < 2 ^ (24 - d)) by (apply Z.pow_pos_nonneg; lia).
  assert (HX : Z.log2 (Z.pos c * 2 ^ (24 - d)) = 23).
  { rewrite Z.log2_mul_pow2 by lia. unfold d. lia. }
  pose proof (product_log2 _ _ HX Hmt) as HM.
  assert (HMpos : 0 < Z.pos c * 2 ^ (24 - d) * Z.pos mt) by nia.
  destruct (Z.log2_spec _ HMpos) as [M1 M2].
  destruct (Harith d (Z.pos c) Hd Hcd Hb) as [H23 H24]. cbv zeta in H23, H24.
  destruct (Z_lt_le_dec (Z.pos c * 2 ^ (24 - d) * Z.pos mt) (2 ^ 47)) as [Hlt | Hge].
  - destruct (H23 Hlt) as [He Hval]. rewrite <- Hval.
    apply scaleFrame_by_binade; try assumption; try lia.
    change (23 + 23) with 46. change (24 + 23) with 47. split; [| exact Hlt].
    apply Z.le_trans with (2 ^ Z.log2 (Z.pos c * 2 ^ (24 - d) * Z.pos mt)); [| exact M1].
    apply Z.pow_le_mono_r; lia.
  - destruct (H24 Hge) as [He Hval]. rewrite <- Hval.
    apply scaleFrame_by_binade; try assumption; try lia.
    change (23 + 24) with 47. change (24 + 24) with 48. split; [exact Hge |].
    apply Z.lt_le_trans with (2 ^ Z.succ (Z.log2 (Z.pos c * 2 ^ (24 - d) * Z.pos mt)));
      [exact M2 |].
    apply Z.pow_le_mono_r; lia.
Qed.

Lemma scaleFrame_same_pos (c : positive) :
  Z.pos c < 8388608 -> scaleFrame scale_same (Z.pos c) = Some (Z.pos c).
Proof.
  intros Hc.
  apply (scaleFrame_from_arith 8388608 (-23) 23 8388608 (fun c => c));
    try reflexivity; try lia.
  intros d c0 Hd Hc0 _. exact (same_arith d c0 Hd Hc0).
Qed.

Lemma scaleFrame_up_pos (c : positive) :
  Z.pos c <= 2097152 ->
  scaleFrame scale_24_to_60 (Z.pos c) = Some ((5 * Z.pos c + 1) / 2).
Proof.
  intros Hc.
  apply (scaleFrame_from_arith 10485760 (-22) 22 2097152 (fun c => (5 * c + 1) / 2));
    try reflexivity; try lia.
  exact up_arith.
Qed.

Lemma scaleFrame_down_pos (c : positive) :
  Z.pos c <= 5242880 ->
  scaleFrame scale_60_to_24 (Z.pos c) = Some ((4 * Z.pos c + 5) / 10).
Proof.
  intros Hc.
  apply (scaleFrame_from_arith 13421773 (-25) 23 5242880 (fun c => (4 * c + 5) / 10));
    try reflexivity; try lia.
  exact down_arith.
Qed.

(** *** The conversion steps between 24 and 60 frames per second *)

Lemma timeScale_24_to_60 : F32.div (F32.of_Q 60) (F32.of_Q 24) = scale_24_to_60.
Proof. reflexivity. Qed.

Lemma timeScale_60_to_24 : F32.div (F32.of_Q 24) (F32.of_Q 60) = scale_60_to_24.
Proof. reflexivity. Qed.

Lemma timeScale_24_to_24 : F32.div (F32.of_Q 24) (F32.of_Q 24) = scale_same.
Proof. reflexivity. Qed.

Lemma timeScale_60_to_60 : F32.div (F32.of_Q 60) (F32.of_Q 60) = scale_same.
Proof. reflexivity. Qed.

Lemma scaleFrame_zero (s : bool) (m : positive) (e : Z) :
  scaleFrame (S754_finite s m e) 0 = Some 0.
Proof. reflexivity. Qed.

(** At equal rates the step leaves the frame alone. *)
Lemma scaleFrame_same (c : Z) :
  Z.abs c < 4 * frameBound -> scaleFrame scale_same c = Some c.
Proof.
  unfold frameBound. intros Hc. destruct c as [| p | p].
  - apply scaleFrame_zero.
  - apply scaleFrame_same_pos. lia.
  - change (Z.neg p) with (- Z.pos p).
    apply scaleFrame_opp; [lia | apply scaleFrame_same_pos; lia | lia].
Qed.

(** Up from 24 to 60 frames per second the step gives [5c/2], a half
    rounded away from zero, and the step down gives [c] back. *)
Lemma scaleFrame_up (c : Z) :
  Z.abs c <= frameBound ->
  exists g : Z,
    scaleFrame scale_24_to_60 c = Some g /\ Z.abs (2 * g - 5 * c) <= 1 /\
    scaleFrame scale_60_to_24 g = Some c.
Proof.
  unfold frameBound. intros Hc.
  assert (Hpos : forall p : positive,
            Z.pos p <= 2097152 ->
            exists g : positive,
              scaleFrame scale_24_to_60 (Z.pos p) = Some (Z.pos g) /\
              Z.abs (2 * Z.pos g - 5 * Z.pos p) <= 1 /\
              scaleFrame scale_60_to_24 (Z.pos g) = Some (Z.pos p)).
  { intros p Hp.
    assert (Hg : 0 < (5 * Z.pos p + 1) / 2 <= 5242880)
      by (Z.to_euclidean_division_equations; lia).
    destruct ((5 * Z.pos p + 1) / 2) as [| g | g] eqn:Eg; try lia.
    exists g. split; [| split].
    - rewrite scaleFrame_up_pos by exact Hp. by rewrite Eg.
    - Z.to_euclidean_division_equations; lia.
    - rewrite scaleFrame_down_pos by lia. f_equal.
      Z.to_euclidean_division_equations; lia. }
  destruct c as [| p | p].
  - exists 0. repeat split; try apply scaleFrame_zero. simpl. lia.
  - destruct (Hpos p ltac:(lia)) as (g & Hg & Hnear & Hback).
    exists (Z.pos g). repeat split; assumption.
  - destruct (Hpos p ltac:(lia)) as (g & Hg & Hnear & Hback).
    exists (Z.neg g). split; [| split].
    + change (Z.neg p) with (- Z.pos p). change (Z.neg g) with (- Z.pos g).
      apply scaleFrame_opp; [lia | exact Hg | lia].
    + lia.
    + change (Z.neg p) with (- Z.pos p). change (Z.neg g) with (- Z.pos g).
      apply scaleFrame_opp; [lia | exact Hback | lia].
Qed.

(** Down from 60 to 24 frames per second the step gives [2c/5] rounded,
    and the step up gives a frame within one of [c]. *)
Lemma scaleFrame_down (c : Z) :
  Z.abs c <= frameBound ->
  exists g c' : Z,
    scaleFrame scale_60_to_24 c = Some g /\ Z.abs (5 * g - 2 * c) <= 2 /\
    scaleFrame scale_24_to_60 g = Some c' /\ Z.abs (c' - c) <= 1.
Proof.
  unfold frameBound. intros Hc.
  assert (Hpos : forall p : positive,
            Z.pos p <= 2097152 ->
            exists g c' : Z,
              0 <= g /\ 0 <= c' /\
              scaleFrame scale_60_to_24 (Z.pos p) = Some g /\
              Z.abs (5 * g - 2 * Z.pos p) <= 2 /\
              scaleFrame scale_24_to_60 g = Some c' /\ Z.abs (c' - Z.pos p) <= 1).
  { intros p Hp.
    assert (Hg : 0 <= (4 * Z.pos p + 5) / 10 <= 838861)
      by (Z.to_euclidean_division_equations; lia).
    exists ((4 * Z.pos p + 5) / 10).
    destruct ((4 * Z.pos p + 5) / 10) as [| g | g] eqn:Eg; try lia.
    - exists 0. repeat split; try lia.
      + rewrite scaleFrame_down_pos by lia. by rewrite Eg.
      + Z.to_euclidean_division_equations; lia.
      + Z.to_euclidean_division_equations; lia.
    - exists ((5 * Z.pos g + 1) / 2). repeat split; try lia.
      + Z.to_euclidean_division_equations; lia.
      + rewrite scaleFrame_down_pos by lia. by rewrite Eg.
      + Z.to_euclidean_division_equations; lia.
      + apply scaleFrame_up_pos. lia.
      + Z.to_euclidean_division_equations; lia. }
  destruct c as [| p | p].
  - exists 0, 0. repeat split; try apply scaleFrame_zero; simpl; lia.
  - destruct (Hpos p ltac:(lia)) as (g & c' & _ & _ & Hg & Hnear & Hback & Hone).
    exists g, c'. repeat split; assumption.
  - destruct (Hpos p ltac:(lia)) as (g & c' & G0 & C0 & Hg & Hnear & Hback & Hone).
    change (Z.neg p) with (- Z.pos p).
    exists (- g), (- c'). split; [| split; [| split]].
    + apply scaleFrame_opp; [lia | exact Hg | lia].
    + lia.
    + destruct (Z.eq_dec g 0) as [-> | Hg0].
      * change (Some 0 = Some c') in Hback. injection Hback as <-. apply scaleFrame_zero.
      * apply scaleFrame_opp; [exact Hg0 | exact Hback | lia].
    + lia.
Qed.

Lemma childFrameToLocal_scale (l : PAGLayer) (c : Z) (ro rc : Q) :
  frameRateInternal l = Fin ro ->
  childFrameToLocal l c (Fin rc) =
    z ← scaleFrame (F32.div (F32.of_Q ro) (F32.of_Q rc)) c; Some (z + startFrame l).
Proof. intros Hr. unfold childFrameToLocal. rewrite Hr. reflexivity. Qed.

Lemma localFrameToChild_scale (l : PAGLayer) (x : Z) (ro rc : Q) :
  frameRateInternal l = Fin ro ->
  localFrameToChild l x (Fin rc) =
    scaleFrame (F32.div (F32.of_Q rc) (F32.of_Q ro)) (x - startFrame l).
Proof. intros Hr. unfold localFrameToChild. rewrite Hr. reflexivity. Qed.

(** At equal rates both steps only move the frame by the start frame. *)
Lemma level_same (l : PAGLayer) (c : Z) (r : Q) :
  frameRateInternal l = Fin r -> r = 24%Q \/ r = 60%Q -> Z.abs c < 4 * frameBound ->
  childFrameToLocal l c (Fin r) = Some (c + startFrame l).
Proof.
  intros Hr Hrate Hc. rewrite (childFrameToLocal_scale l c r r Hr).
  destruct Hrate as [-> | ->].
  - by rewrite timeScale_24_to_24, scaleFrame_same.
  - by rewrite timeScale_60_to_60, scaleFrame_same.
Qed.

Lemma level_same_back (l : PAGLayer) (x : Z) (r : Q) :
  frameRateInternal l = Fin r -> r = 24%Q \/ r = 60%Q ->
  Z.abs (x - startFrame l) < 4 * frameBound ->
  localFrameToChild l x (Fin r) = Some (x - startFrame l).
Proof.
  intros Hr Hrate Hc. rewrite (localFrameToChild_scale l x r r Hr).
  destruct Hrate as [-> | ->].
  - by rewrite timeScale_24_to_24, scaleFrame_same.
  - by rewrite timeScale_60_to_60, scaleFrame_same.
Qed.

(** One step up, with rates that do not fall, and the same step down. A
    frame that changes its rate is of size [frameBound] at most, one that
    keeps it below four times that. *)
Lemma level_round_trip (l : PAGLayer) (c : Z) (rc ro : Q) :
  frameRateInternal l = Fin ro -> risingStep rc ro ->
  Z.abs c <= frameBound \/ (rc = ro /\ Z.abs c < 4 * frameBound) ->
  exists g : Z,
    childFrameToLocal l c (Fin rc) = Some (g + startFrame l) /\
    localFrameToChild l (g + startFrame l) (Fin rc) = Some c /\
    (rc = ro -> g = c) /\ 2 * Z.abs g <= 5 * Z.abs c + 1.
Proof.
  intros Hr Hstep Hc.
  assert (Hsame : rc = ro -> (ro = 24%Q \/ ro = 60%Q) ->
            exists g : Z,
              childFrameToLocal l c (Fin rc) = Some (g + startFrame l) /\
              localFrameToChild l (g + startFrame l) (Fin rc) = Some c /\
              (rc = ro -> g = c) /\ 2 * Z.abs g <= 5 * Z.abs c + 1).
  { intros -> Hrate.
    assert (Hc4 : Z.abs c < 4 * frameBound) by (unfold frameBound in *; lia).
    exists c. rewrite (level_same l c ro Hr Hrate Hc4).
    rewrite (level_same_back l _ ro Hr Hrate) by (rewrite Z.add_simpl_r; exact Hc4).
    rewrite Z.add_simpl_r.
    split; [reflexivity | split; [reflexivity | split; [reflexivity | lia]]]. }
  destruct Hstep as [[-> ->] | [[-> ->] | [-> ->]]].
  - apply Hsame; auto.
  - destruct Hc as [Hc | [Hne _]]; [| discriminate Hne].
    rewrite (childFrameToLocal_scale l c 60 24 Hr).
    destruct (scaleFrame_up c Hc) as (g & Hg & Hnear & Hback).
    exists g. rewrite (localFrameToChild_scale l _ 60 24 Hr).
    rewrite timeScale_24_to_60, timeScale_60_to_24, Hg, Z.add_simpl_r.
    split; [reflexivity | split; [exact Hback | split; [discriminate | lia]]].
  - apply Hsame; auto.
Qed.

(** One step up to an owner at 24 frames per second from a layer at 60,
    and the same step down. *)
Lemma level_round_trip_falling (l : PAGLayer) (c : Z) :
  frameRateInternal l = Fin 24 -> Z.abs c <= frameBound ->
  exists g c' : Z,
    childFrameToLocal l c (Fin 60) = Some (g + startFrame l) /\
    localFrameToChild l (g + startFrame l) (Fin 60) = Some c' /\
    Z.abs (c' - c) <= 1 /\ 5 * Z.abs g <= 2 * Z.abs c + 2.
Proof.
  intros Hr Hc.
  rewrite (childFrameToLocal_scale l c 24 60 Hr).
  destruct (scaleFrame_down c Hc) as (g & c' & Hg & Hnear & Hback & Hone).
  exists g, c'. rewrite (localFrameToChild_scale l _ 24 60 Hr).
  rewrite timeScale_24_to_60, timeScale_60_to_24, Hg, Z.add_simpl_r.
  split; [reflexivity | split; [exact Hback | split; [exact Hone | lia]]].
Qed.

Lemma timelineOwners_root (fuel : nat) (h : Store) :
  timelineOwners fuel h None = Some [].
Proof. by destruct fuel. Qed.

Lemma localFrameToGlobal_loop_root (fuel : nat) (h : Store) (f : Z) (rate : float) :
  localFrameToGlobal_loop fuel h None f rate = Some f.
Proof. by destruct fuel. Qed.

(** The two conversions on a two-level nesting, step by step. *)
Lemma two_level_conversions (h : Store) (this a b : nat) (rl ra rb : Q)
    (l la lb : PAGLayer) :
  h !! this = Some l -> getTimelineOwner h l = Some a ->
  h !! a = Some la -> getTimelineOwner h la = Some b ->
  h !! b = Some lb -> getTimelineOwner h lb = None ->
  frameRateInternal l = Fin rl ->
  frameRateInternal la = Fin ra ->
  (forall f : Z,
     localFrameToGlobal this f h =
       fa ← childFrameToLocal la f (Fin rl); childFrameToLocal lb fa (Fin ra)) /\
  (forall g : Z,
     globalToLocalFrame this g h =
       ga ← localFrameToChild lb g (Fin ra); localFrameToChild la ga (Fin rl)).
Proof.
  intros Hl Hoa Hla Hob Hlb Hroot Hrl Hra.
  assert (Hne : a <> b).
  { intros ->. rewrite Hla in Hlb. injection Hlb as ->. congruence. }
  assert (Hsize : (2 <= size h)%nat).
  { apply (NoDup_stored_length [a; b]).
    - apply NoDup_cons. split; [| apply NoDup_singleton].
      intros Hin. apply list_elem_of_singleton in Hin. contradiction.
    - intros k Hk. apply elem_of_cons in Hk as [-> | Hk]; [eauto |].
      apply elem_of_cons in Hk as [-> | Hk]; [eauto | inversion Hk]. }
  destruct (size h) as [| [| n]] eqn:Esize; [lia | lia |].
  split.
  - intros f. unfold localFrameToGlobal. rewrite Hl. simpl. rewrite Hoa, Esize.
    cbn [localFrameToGlobal_loop]. rewrite Hla. simpl. rewrite Hrl.
    destruct (childFrameToLocal la f (Fin rl)) as [fa |]; [| reflexivity]. simpl.
    rewrite Hob, Hlb. simpl. rewrite Hra.
    destruct (childFrameToLocal lb fa (Fin ra)) as [g |]; [| reflexivity]. simpl.
    rewrite Hroot. apply localFrameToGlobal_loop_root.
  - intros g. unfold globalToLocalFrame. rewrite Hl. simpl. rewrite Hoa, Esize.
    cbn [timelineOwners]. rewrite Hla. simpl. rewrite Hob, Hlb. simpl.
    rewrite Hroot, timelineOwners_root. simpl.
    rewrite Hlb. simpl. rewrite Hla. simpl. rewrite Hra.
    destruct (localFrameToChild lb g (Fin ra)) as [ga |]; [| reflexivity]. simpl.
    rewrite Hrl. by destruct (localFrameToChild la ga (Fin rl)).
Qed.



(** Where the rounding decides. With the rates falling, frame 1 of a 60 fps
    layer and composition in a 24 fps root comes back as frame 0. With the
    rates rising but the frame beyond [frameBound], frame 4194302 of a
    24 fps layer in a 24 fps composition that starts at frame 5 of a 60 fps
    root comes back as 4194303: the product with the [float] next to 2/5
    is rounded to 24 bits before [roundf] sees it. *)
Lemma round_trip_loses_frame :
  nestedTwoLevels (nestedStore 60 24) 2 1 0 60 60 24 /\
  roundTrip 2 1 (nestedStore 60 24) = Some 0.
Proof.
  split.
  - do 3 eexists. repeat split; reflexivity.
  - vm_compute. reflexivity.
Qed.

Lemma round_trip_beyond_range :
  nestedTwoLevels (nestedStore 24 60) 2 1 0 24 24 60 /\
  roundTrip 2 4194302 (nestedStore 24 60) = Some 4194303.
Proof.
  split.
  - do 3 eexists. repeat split; reflexivity.
  - vm_compute. reflexivity.
Qed.

(** ** The slide-left preset *)

Section SlidePresetFacts.

Context {E : External}.

(** [gotoTime] only writes content frames. *)
Lemma gotoTime_proj {A : Type} (f : PAGLayer -> A) :
  (forall v l, f (set_contentFrame v l) = f l) ->
  forall (fuel : nat) (this : nat) (layerTime : Z) (h : Store) (i : nat),
    f <$> (gotoTime fuel this layerTime h).2 !! i = f <$> h !! i.
Proof.
  intros Hf. induction fuel as [| n IH]; intros this layerTime h i; simpl; [reflexivity |].
  destruct (h !! this) as [l |] eqn:El; [| reflexivity].
  set (r := match _trackMatteLayer l with
            | Some m => gotoTime n m layerTime h
            | None => (false, h)
            end).
  assert (Hr : forall j, f <$> r.2 !! j = f <$> h !! j).
  { intros j. subst r. destruct (_trackMatteLayer l); [apply IH | reflexivity]. }
  destruct (r.2 !! this) as [l1 |] eqn:El1; [| apply Hr]. simpl.
  rewrite lookup_insert. case_decide; [subst i | apply Hr].
  simpl. rewrite Hf, <- Hr, El1. reflexivity.
Qed.

(** The content frame [gotoTime] gives the layer it is called on. *)
Lemma gotoTime_contentFrame (fuel : nat) (this : nat) (layerTime : Z) (h : Store)
    (l : PAGLayer) :
  h !! this = Some l ->
  contentFrame <$> (gotoTime (S fuel) this layerTime h).2 !! this =
    Some (TimeToFrame layerTime (frameRateInternal l) - startFrame l).
Proof.
  intros El. simpl. rewrite El.
  set (r := match _trackMatteLayer l with
            | Some m => gotoTime fuel m layerTime h
            | None => (false, h)
            end).
  assert (Hr : forall {A : Type} (f : PAGLayer -> A),
             (forall v l, f (set_contentFrame v l) = f l) ->
             f <$> r.2 !! this = f <$> h !! this).
  { intros A f Hf. subst r. destruct (_trackMatteLayer l); [by apply gotoTime_proj | reflexivity]. }
  pose proof (Hr _ frameRateInternal (fun _ _ => eq_refl)) as Hrate.
  pose proof (Hr _ startFrame (fun _ _ => eq_refl)) as Hstart.
  rewrite El in Hrate, Hstart.
  destruct (r.2 !! this) as [l1 |]; [| discriminate].
  simpl in Hrate, Hstart. injection Hrate as Hrate. injection Hstart as Hstart.
  simpl. rewrite lookup_insert_eq. simpl. by rewrite Hrate, Hstart.
Qed.

Lemma store_size_positive (h : Store) (this : nat) (l : PAGLayer) :
  h !! this = Some l -> exists n : nat, size h = S n.
Proof.
  intros El. destruct (size h) as [| n] eqn:Es; [| eauto].
  apply map_size_empty_inv in Es. subst h. by rewrite lookup_empty in El.
Qed.

(** [setProgress] moves the layer to the frame of the requested progress
    and leaves its [Layer] alone. *)
Lemma setProgress_layer (percent : double) (this : nat) (h : Store) (l : PAGLayer) :
  h !! this = Some l ->
  exists l1 : PAGLayer,
    setProgress percent this h !! this = Some l1 /\
    layer l1 = layer l /\
    contentFrame l1 =
      TimeToFrame (startTimeInternal l + ProgressToTime percent (durationInternal l))
        (frameRateInternal l) - startFrame l.
Proof.
  intros El. unfold setProgress, setProgressInternal, gotoTimeAndNotifyChanged.
  rewrite El. destruct (store_size_positive h this l El) as [n Hn]. rewrite Hn.
  set (t := startTimeInternal l + ProgressToTime percent (durationInternal l)).
  pose proof (gotoTime_contentFrame n this t h l El) as Hframe.
  pose proof (gotoTime_proj layer (fun _ _ => eq_refl) (S n) this t h this) as Hlayer.
  rewrite El in Hlayer. cbn [snd fst].
  set (r := gotoTime (S n) this t h) in *.
  set (h1 := if r.1 then notifyModified false this r.2 else r.2).
  assert (H1 : forall {A : Type} (f : PAGLayer -> A),
             (forall v l, f (set_contentVersion v l) = f l) ->
             f <$> h1 !! this = f <$> r.2 !! this).
  { intros A f Hf. subst h1. destruct r.1; [by apply notifyModified_proj | reflexivity]. }
  pose proof (H1 _ layer (fun _ _ => eq_refl)) as Hl1.
  pose proof (H1 _ contentFrame (fun _ _ => eq_refl)) as Hc1.
  rewrite Hlayer in Hl1. rewrite Hframe in Hc1.
  destruct (h1 !! this) as [l1 |]; [| discriminate].
  exists l1. simpl in Hl1, Hc1. injection Hl1 as Hl1. injection Hc1 as Hc1.
  split; [reflexivity |]. split; assumption.
Qed.

(** [setTransform2D] on a layer with a [Layer]: the written transform, the
    other members of the [Layer] and the content frame. *)
Lemma setTransform2D_layer (t : Transform2D) (this : nat) (h : Store) (l : PAGLayer)
    (ly : Text.TextLayer) :
  h !! this = Some l -> layer l = Some ly ->
  exists l2 : PAGLayer,
    setTransform2D (Some t) this h !! this = Some l2 /\
    layer l2 = Some (Text.set_transform
                       (Some (writeTransform2D t (match Text.transform ly with
                                                  | Some tr => tr
                                                  | None => Transform2D_MakeDefault
                                                  end))) ly) /\
    contentFrame l2 = contentFrame l.
Proof.
  intros El Ely. unfold setTransform2D. rewrite El, Ely.
  set (h1 := <[this := _]> h).
  pose proof (notifyModified_proj layer true this h1 this (fun _ _ => eq_refl)) as Hl.
  pose proof (notifyModified_proj contentFrame true this h1 this (fun _ _ => eq_refl)) as Hc.
  subst h1. rewrite lookup_insert_eq in Hl, Hc.
  destruct (notifyModified true this _ !! this) as [l2 |]; [| discriminate].
  exists l2. simpl in Hl, Hc. injection Hl as Hl. injection Hc as Hc.
  split; [reflexivity |]. split; assumption.
Qed.

(** A preset made for a layer of the store remembers the layer and starts
    and ends at the abscissas it was made with; [apply] keeps them. *)
Lemma Make_positions (a : nat) (duration : Z) (startX endX : float)
    (stagger trailing : double) (h : Store) (ps : SlideLeftPreset.t) :
  is_Some (h !! a) ->
  (SlideLeftPreset.Make (Some a) duration startX endX stagger trailing h).1 = Some ps ->
  SlideLeftPreset.weakLayer ps = Some a /\
  x (SlideLeftPreset.startPosition ps) = startX /\
  x (SlideLeftPreset.endPosition ps) = endX.
Proof.
  intros Ha. unfold SlideLeftPreset.Make. destruct (duration <=? 0); [discriminate |].
  cbn [fst]. intros [= <-].
  unfold SlideLeftPreset.new, SlideLeftPreset.lock. cbn [SlideLeftPreset.weakLayer].
  destruct (decide (is_Some (h !! a))) as [_ | Hn]; [| contradiction].
  unfold SlideLeftPreset.initialize, SlideLeftPreset.lock. cbn [SlideLeftPreset.weakLayer].
  destruct (decide (is_Some (h !! a))) as [_ | Hn]; [| contradiction].
  repeat split; reflexivity.
Qed.

Lemma apply_positions (progress : double) (ps : SlideLeftPreset.t) (h : Store) :
  SlideLeftPreset.weakLayer (SlideLeftPreset.apply progress ps h).1 =
    SlideLeftPreset.weakLayer ps /\
  SlideLeftPreset.startPosition (SlideLeftPreset.apply progress ps h).1 =
    SlideLeftPreset.startPosition ps /\
  SlideLeftPreset.endPosition (SlideLeftPreset.apply progress ps h).1 =
    SlideLeftPreset.endPosition ps.
Proof.
  unfold SlideLeftPreset.apply.
  destruct (SlideLeftPreset.lock _ h); [| repeat split; reflexivity].
  cbn [fst]. destruct (SlideLeftPreset.glyphProvider _); repeat split; reflexivity.
Qed.

Lemma EaseOutCubic_unit (q : Q) :
  (0 <= q)%Q -> (q <= 1)%Q ->
  exists e : Q, Slide.EaseOutCubic (Fin q) = Fin e /\ (e == easeOutCubic q)%Q.
Proof.
  intros H0 H1. unfold Slide.EaseOutCubic. rewrite Clamp01_unit by assumption.
  eexists. split; [reflexivity |]. unfold easeOutCubic. simpl. ring.
Qed.

Lemma slide_x_same (sx ex : double) (e e' : Q) :
  (e == e')%Q ->
  FP.same (FP.add sx (FP.mul (FP.sub ex sx) (Fin e)))
          (FP.add sx (FP.mul (FP.sub ex sx) (Fin e'))).
Proof.
  intros He. destruct sx as [| s], ex as [| x]; simpl; try exact I.
  rewrite He. reflexivity.
Qed.

(** What [apply(q)] does with any time helpers: it records [q], sets the
    unified position of the layer's transform to
    [x = startX + (endX - startX) * easeOutCubic(q)], and moves the layer to
    the content frame of the time [q * duration]; [getProgress()] then
    returns the progress of that frame, [FrameToProgress(frame, frames)]. *)
Lemma apply_position_and_frame (q : Q) (ps : SlideLeftPreset.t) (h : Store)
    (this : nat) (l : PAGLayer) (ly : Text.TextLayer) :
  (0 <= q)%Q -> (q <= 1)%Q ->
  SlideLeftPreset.weakLayer ps = Some this ->
  h !! this = Some l ->
  layer l = Some ly ->
  let startX := x (SlideLeftPreset.startPosition ps) in
  let endX := x (SlideLeftPreset.endPosition ps) in
  let r := SlideLeftPreset.apply (Fin q) ps h in
  let frame :=
    TimeToFrame (startTimeInternal l + ProgressToTime (Fin q) (durationInternal l))
      (frameRateInternal l) - startFrame l in
  SlideLeftPreset.currentProgress r.1 = Fin q /\
  (exists pos : Point,
     positionOf this r.2 = Some pos /\
     FP.same (x pos)
       (FP.add startX (FP.mul (FP.sub endX startX) (Fin (easeOutCubic q))))) /\
  contentFrame <$> r.2 !! this = Some frame /\
  getProgress this r.2 = Some (FrameToProgress frame (frameDuration l)).
Proof.
  intros H0 H1 Hweak El Ely startX endX r frame.
  destruct (EaseOutCubic_unit q H0 H1) as (e & He & Hee).
  destruct (setProgress_layer (Fin q) this h l El) as (l1 & El1 & Hly1 & Hc1).
  rewrite Ely in Hly1.
  assert (Hr : r = SlideLeftPreset.apply (Fin q) ps h) by reflexivity.
  unfold SlideLeftPreset.apply in Hr. rewrite Clamp01_unit in Hr by assumption.
  unfold SlideLeftPreset.lock in Hr. cbn [SlideLeftPreset.weakLayer
    SlideLeftPreset.set_currentProgress SlideLeftPreset.currentProgress] in Hr.
  rewrite Hweak, El in Hr.
  destruct (decide (is_Some (Some l))) as [_ | Hn]; [| exfalso; eauto].
  rewrite He in Hr.
  set (p2 := match SlideLeftPreset.glyphProvider _ with
             | Some g => _
             | None => _
             end) in Hr.
  assert (Hp2 : SlideLeftPreset.weakLayer p2 = Some this /\
                SlideLeftPreset.currentProgress p2 = Fin q /\
                SlideLeftPreset.startPosition p2 = SlideLeftPreset.startPosition ps /\
                SlideLeftPreset.endPosition p2 = SlideLeftPreset.endPosition ps).
  { subst p2. destruct (SlideLeftPreset.glyphProvider _); repeat split; assumption. }
  destruct Hp2 as (Hw2 & Hcp2 & Hsp2 & Hep2).
  unfold SlideLeftPreset.updateTransform, SlideLeftPreset.lock in Hr.
  rewrite Hw2, El1 in Hr.
  destruct (decide (is_Some (Some l1))) as [_ | Hn]; [| exfalso; eauto].
  rewrite Hsp2, Hep2 in Hr. fold startX endX in Hr.
  set (T := MkTransform2D _ _ _ _ _ _ _) in Hr.
  destruct (setTransform2D_layer T this _ l1 ly El1 Hly1) as (l2 & El2 & Hly2 & Hc2).
  set (h2 := setTransform2D (Some T) this _) in *.
  pose proof (notifyModified_proj layer true this h2 this (fun _ _ => eq_refl)) as Hl3.
  pose proof (notifyModified_proj contentFrame true this h2 this (fun _ _ => eq_refl)) as Hc3.
  rewrite El2 in Hl3, Hc3. simpl in Hl3, Hc3. rewrite Hly2 in Hl3. rewrite Hc2, Hc1 in Hc3.
  fold frame in Hc3.
  rewrite Hr. cbn [fst snd].
  destruct (notifyModified true this h2 !! this) as [l3 |] eqn:El3; [| discriminate].
  simpl in Hl3. injection Hl3 as Hl3. simpl in Hc3. injection Hc3 as Hc3.
  split; [exact Hcp2 |]. split; [| split].
  - eexists. split.
    + unfold positionOf, transformOf. rewrite El3. simpl. rewrite Hl3. simpl. reflexivity.
    + simpl. apply slide_x_same. exact Hee.
  - simpl. by rewrite Hc3.
  - unfold getProgress. rewrite El3. simpl. unfold getProgressInternal,
      stretchedContentFrame, stretchedFrameDuration, frameDuration.
    rewrite Hc3, Hl3, Ely. reflexivity.
Qed.

End SlidePresetFacts.

(** With the time helpers modelled from the spec, the progress of the
    frame that [setProgress(q)] reaches is within about one frame of [q]:
    on a layer of [D] frames at [rate] frames per second it is less than
    [1 + rate / 10^6] frames below [q] and less than [2 rate / 10^6] frames
    above it. *)
Lemma Reference_progress_near (q rate : Q) (S D : Z) :
  (0 <= q)%Q -> (q <= 1)%Q -> (0 < rate)%Q -> 0 < D ->
  let start := Reference.FrameToTime S (Fin rate) in
  let dur := Reference.FrameToTime D (Fin rate) in
  let frame :=
    Reference.TimeToFrame (start + Reference.ProgressToTime (Fin q) dur) (Fin rate) - S in
  exists g : Q,
    Reference.FrameToProgress frame D = Fin g /\
    (q * inject_Z D - (1 + rate / 1000000) < g * inject_Z D)%Q /\
    (g * inject_Z D < q * inject_Z D + 2 * rate / 1000000)%Q.
Proof.
  intros Hq0 Hq1 Hrate HD. cbv zeta.
  unfold Reference.FrameToTime, Reference.ProgressToTime, Reference.TimeToFrame.
  assert (Er : Qeq_bool rate 0 = false).
  { destruct (Qeq_bool rate 0) eqn:E0; [| reflexivity]. apply Qeq_bool_iff in E0. lra. }
  rewrite Er.
  set (a := Qceiling (inject_Z S * 1000000 / rate)).
  set (b := Qceiling (inject_Z D * 1000000 / rate)).
  set (c := Qfloor (q * inject_Z b)).
  set (F := Qfloor (inject_Z (a + c) * rate / 1000000)).
  pose proof (Qle_ceiling (inject_Z S * 1000000 / rate)) as A1.
  pose proof (Qceiling_lt (inject_Z S * 1000000 / rate)) as A2.
  pose proof (Qle_ceiling (inject_Z D * 1000000 / rate)) as B1.
  pose proof (Qceiling_lt (inject_Z D * 1000000 / rate)) as B2.
  pose proof (Qfloor_le (q * inject_Z b)) as C1.
  pose proof (Qlt_floor (q * inject_Z b)) as C2.
  pose proof (Qfloor_le (inject_Z (a + c) * rate / 1000000)) as F1.
  pose proof (Qlt_floor (inject_Z (a + c) * rate / 1000000)) as F2.
  fold a in A1, A2. fold b in B1, B2. fold c in C1, C2. fold F in F1, F2.
  unfold Z.sub in A2, B2. rewrite inject_Z_plus in A2, B2, C2, F1, F2.
  rewrite inject_Z_plus in F2.
  change (inject_Z (- (1))) with (- (1))%Q in A2, B2.
  change (inject_Z 1) with 1%Q in C2, F2.
  assert (HDq : (0 < inject_Z D)%Q) by (change 0%Q with (inject_Z 0); rewrite <- Zlt_Qlt; lia).
  set (Sq := inject_Z S) in *. set (Dq := inject_Z D) in *.
  set (A := inject_Z a) in *. set (B := inject_Z b) in *.
  set (C := inject_Z c) in *. set (Fq := inject_Z F) in *.
  set (u := (Sq * 1000000 / rate)%Q) in *.
  set (v := (Dq * 1000000 / rate)%Q) in *.
  set (w := ((A + C) * rate / 1000000)%Q) in *.
  assert (Eu : (u * rate == Sq * 1000000)%Q) by (unfold u; field; lra).
  assert (Ev : (v * rate == Dq * 1000000)%Q) by (unfold v; field; lra).
  assert (Ew : (w * 1000000 == (A + C) * rate)%Q) by (unfold w; field).
  assert (A1' : (u * rate <= A * rate)%Q) by nra.
  assert (A2' : (A * rate < u * rate + rate)%Q) by nra.
  assert (B1' : (v * rate <= B * rate)%Q) by nra.
  assert (B2' : (B * rate < v * rate + rate)%Q) by nra.
  assert (C1' : (C * rate <= q * (B * rate))%Q) by nra.
  assert (C2' : (q * (B * rate) < C * rate + rate)%Q) by nra.
  assert (Q1 : (q * (v * rate) <= q * (B * rate))%Q) by nra.
  assert (Q2 : (q * (B * rate) <= q * (v * rate) + rate)%Q) by nra.
  assert (Q3 : (q * (v * rate) == q * Dq * 1000000)%Q) by (rewrite Ev; ring).
  assert (Hlo : (q * Dq - (1 + rate / 1000000) < Fq - Sq)%Q).
  { apply Qmult_lt_r with (z := 1000000%Q); [reflexivity |].
    assert (E1 : ((q * Dq - (1 + rate / 1000000)) * 1000000
                  == q * Dq * 1000000 - 1000000 - rate)%Q) by field.
    rewrite E1. lra. }
  assert (Hhi : (Fq - Sq < q * Dq + 2 * rate / 1000000)%Q).
  { apply Qmult_lt_r with (z := 1000000%Q); [reflexivity |].
    assert (E1 : ((q * Dq + 2 * rate / 1000000) * 1000000
                  == q * Dq * 1000000 + 2 * rate)%Q) by field.
    rewrite E1. lra. }
  assert (Eframe : (inject_Z (F - S) == Fq - Sq)%Q).
  { unfold Z.sub. rewrite inject_Z_plus, inject_Z_opp. reflexivity. }
  assert (He : (0 < rate / 1000000)%Q) by (apply Qlt_shift_div_l; lra).
  set (e := (rate / 1000000)%Q) in *.
  assert (Ee : (2 * rate / 1000000 == 2 * e)%Q) by (unfold e; field).
  rewrite Ee in Hhi.
  unfold Reference.FrameToProgress.
  destruct (Z.leb_spec D 0) as [| _]; [lia |].
  unfold FP.div, FP.of_int. fold Dq.
  assert (ED : Qeq_bool Dq 0 = false).
  { destruct (Qeq_bool Dq 0) eqn:E0; [| reflexivity]. apply Qeq_bool_iff in E0. lra. }
  rewrite ED.
  set (x := (inject_Z (F - S) / Dq)%Q).
  assert (Ex : (x * Dq == Fq - Sq)%Q) by (unfold x; rewrite <- Eframe; field; lra).
  unfold FP.clamp, FP.lt, FP.zero, FP.one.
  destruct (Qle_bool 0 x) eqn:E0; simpl.
  - apply Qle_bool_iff in E0.
    destruct (Qle_bool x 1) eqn:E1; simpl.
    + exists x. split; [reflexivity |]. rewrite Ee, Ex. split; assumption.
    + assert (H1 : ~ (x <= 1)%Q) by (rewrite <- Qle_bool_iff; congruence).
      assert (Hx : (Dq < x * Dq)%Q) by nra.
      assert (Hqd : (q * Dq <= Dq)%Q) by nra.
      exists 1%Q. split; [reflexivity |]. rewrite Ee. split; lra.
  - assert (H0 : ~ (0 <= x)%Q) by (rewrite <- Qle_bool_iff; congruence).
    assert (Hx : (x * Dq < 0)%Q) by nra.
    assert (Hqd : (0 <= q * Dq)%Q) by nra.
    exists 0%Q. split; [reflexivity |]. rewrite Ee. split; lra.
Qed.




(** The scene of the repository's test at progress 1/2: the layer is moved
    to x = 240 - 200 * 7/8 = 65, the eased position. *)
Example slide_scene_midpoint :
  (fun s => x <$> positionOf 0 s.2) <$> slideSceneAt 3000000 (1 # 2)
    = Some (Some (Fin (520 # 8))).
Proof. vm_compute. reflexivity. Qed.

(** * Further properties *)

(** ** Audio versions and time moves *)

Lemma notifyAudioAncestors_walk (fuel : nat) (s : option nat) (h : Store) :
  notifyAudioAncestors fuel s h = alterAll audioBumped (ancestorWalk fuel s h) h.
Proof.
  revert s h. induction fuel as [| n IH]; intros s h; simpl; [reflexivity |].
  destruct s as [p |]; [| reflexivity].
  unfold alterAll. simpl. fold (alterAll audioBumped).
  unfold bumpAudioVersion. fold audioBumped.
  rewrite IH. rewrite ancestorWalk_alter by reflexivity. reflexivity.
Qed.

(** X1. In a tree, [notifyAudioModified] adds one to the audio version of the
    layer and of every layer of its owner chain [c], and changes nothing
    else: no other layer, and no content version. *)
Theorem notifyAudioModified_bumps_owner_chain (h : Store) (this : nat) (c : list nat) :
  chainFrom getParentOrOwner h (Some this) (this :: c) ->
  (forall i : nat,
     notifyAudioModified this h !! i =
       if decide (i ∈ this :: c)
       then (fun l => set_audioVersion (audioVersion l + 1) l) <$> h !! i
       else h !! i) /\
  (forall i : nat,
     contentVersion <$> notifyAudioModified this h !! i = contentVersion <$> h !! i).
Proof.
  intros Hchain.
  pose proof (chainFrom_NoDup _ _ _ _ Hchain) as Hnd.
  pose proof (chainFrom_length _ _ _ _ Hchain) as Hlen. simpl in Hlen.
  inversion Hchain as [| p l rest Hthis Hrest]; subst.
  assert (Heq : notifyAudioModified this h = alterAll audioBumped (this :: c) h).
  { unfold notifyAudioModified. rewrite notifyAudioAncestors_walk.
    unfold bumpAudioVersion. fold audioBumped.
    rewrite ancestorWalk_alter by reflexivity.
    rewrite lookup_alter_eq, Hthis. simpl.
    change (getParentOrOwner (audioBumped l)) with (getParentOrOwner l).
    rewrite (ancestorWalk_chain h _ c Hrest) by lia. reflexivity. }
  split.
  - intros i. rewrite Heq. apply alterAll_lookup. exact Hnd.
  - intros i. rewrite Heq. apply alterAll_proj. reflexivity.
Qed.

Lemma notifyAudioModified_bumps_owner_chain_witness :
  chainFrom getParentOrOwner sampleStore (Some 2%nat) [2; 1; 0]%nat /\
  audioVersion <$> notifyAudioModified 2 sampleStore !! 0%nat = Some 1 /\
  audioVersion <$> notifyAudioModified 2 sampleStore !! 3%nat = Some 0.
Proof.
  assert (H : chainFrom getParentOrOwner sampleStore (Some 2%nat) [2; 1; 0]%nat).
  { repeat (econstructor; [reflexivity |]). constructor. }
  split; [exact H |].
  destruct (notifyAudioModified_bumps_owner_chain _ _ _ H) as [Hl _].
  rewrite !Hl. split; reflexivity.
Defined.

Section TimeMoves.

Context {E : External}.

(** [gotoTimeAndNotifyChanged] on a stored layer: its new content frame,
    and what it keeps. *)
Lemma gotoTimeAndNotifyChanged_layer (this : nat) (targetTime : Z) (h : Store)
    (l : PAGLayer) :
  h !! this = Some l ->
  exists l1 : PAGLayer,
    (gotoTimeAndNotifyChanged this targetTime h).2 !! this = Some l1 /\
    contentFrame l1 = TimeToFrame targetTime (frameRateInternal l) - startFrame l /\
    layer l1 = layer l /\ file l1 = file l /\ startFrame l1 = startFrame l.
Proof.
  intros El. unfold gotoTimeAndNotifyChanged.
  destruct (store_size_positive h this l El) as [n Hn]. rewrite Hn.
  pose proof (gotoTime_contentFrame n this targetTime h l El) as Hframe.
  assert (Hg : forall {A : Type} (f : PAGLayer -> A),
             (forall v l, f (set_contentFrame v l) = f l) ->
             f <$> (gotoTime (S n) this targetTime h).2 !! this = Some (f l)).
  { intros A f Hf. rewrite (gotoTime_proj f Hf), El. reflexivity. }
  cbn [snd fst]. set (r := gotoTime (S n) this targetTime h) in *.
  set (h1 := if r.1 then notifyModified false this r.2 else r.2).
  assert (H1 : forall {A : Type} (f : PAGLayer -> A),
             (forall v l, f (set_contentVersion v l) = f l) ->
             f <$> h1 !! this = f <$> r.2 !! this).
  { intros A f Hf. subst h1. destruct r.1; [by apply notifyModified_proj | reflexivity]. }
  pose proof (H1 _ contentFrame (fun _ _ => eq_refl)) as Hc.
  pose proof (H1 _ layer (fun _ _ => eq_refl)) as Hl.
  pose proof (H1 _ file (fun _ _ => eq_refl)) as Hf.
  pose proof (H1 _ startFrame (fun _ _ => eq_refl)) as Hs.
  rewrite Hframe in Hc. rewrite (Hg _ layer (fun _ _ => eq_refl)) in Hl.
  rewrite (Hg _ file (fun _ _ => eq_refl)) in Hf.
  rewrite (Hg _ startFrame (fun _ _ => eq_refl)) in Hs.
  destruct (h1 !! this) as [l1 |]; [| discriminate].
  exists l1. simpl in *. split; [reflexivity |]. repeat split; congruence.
Qed.

(** The content versions after a move in time, for every layer. *)
Lemma gotoTimeAndNotifyChanged_versions_all (h : Store) (this : nat) (c : list nat)
    (targetTime : Z) :
  chainFrom getParentOrOwner h (Some this) (this :: c) ->
  let r := gotoTimeAndNotifyChanged this targetTime h in
  forall i : nat,
    contentVersion <$> r.2 !! i =
      (fun l => contentVersion l + (if r.1 && bool_decide (i ∈ c) then 1 else 0))
        <$> h !! i.
Proof.
  intros Hchain r i.
  assert (Hid : forall o : option PAGLayer,
            contentVersion <$> o = (fun l => contentVersion l + 0) <$> o).
  { intros [l |]; simpl; [f_equal; lia | reflexivity]. }
  unfold gotoTimeAndNotifyChanged in r. subst r. cbn [fst snd].
  set (g := gotoTime (size h) this targetTime h).
  assert (Hcv : forall j, contentVersion <$> g.2 !! j = contentVersion <$> h !! j).
  { intros j. apply gotoTime_proj. reflexivity. }
  destruct g.1; cbn [andb]; [| rewrite Hcv; apply Hid].
  assert (Hchain' : chainFrom getParentOrOwner g.2 (Some this) (this :: c)).
  { eapply chainFrom_ext; [| exact Hchain]. intros k. apply gotoTime_proj. reflexivity. }
  pose proof (chainFrom_NoDup _ _ _ _ Hchain') as Hnd.
  pose proof (chainFrom_length _ _ _ _ Hchain') as Hlen. simpl in Hlen.
  inversion Hchain' as [| p l rest Hthis Hrest]; subst.
  unfold notifyModified. rewrite notifyAncestors_walk, Hthis. simpl.
  rewrite (ancestorWalk_chain g.2 _ c Hrest) by lia.
  apply NoDup_cons in Hnd as [_ Hnd].
  rewrite alterAll_lookup by exact Hnd.
  destruct (decide (i ∈ c)) as [Hi | Hi].
  - rewrite bool_decide_eq_true_2 by exact Hi.
    pose proof (Hcv i) as Hi'. destruct (g.2 !! i), (h !! i); simpl in *; congruence.
  - rewrite bool_decide_eq_false_2 by exact Hi. rewrite Hcv. apply Hid.
Qed.

(** X2. A move in time that reports a change raises the content version of
    every layer of the owner chain [c] above the layer by one; one that
    reports no change raises none. No other layer's content version
    changes. (The layer's own version is left out: the call is
    [notifyModified()], whose default argument is declared outside src/.) *)
Theorem gotoTimeAndNotifyChanged_versions (h : Store) (this : nat) (c : list nat)
    (targetTime : Z) :
  chainFrom getParentOrOwner h (Some this) (this :: c) ->
  let r := gotoTimeAndNotifyChanged this targetTime h in
  forall i : nat,
    i <> this ->
    contentVersion <$> r.2 !! i =
      (fun l => contentVersion l + (if r.1 && bool_decide (i ∈ c) then 1 else 0))
        <$> h !! i.
Proof.
  intros Hchain r i _.
  exact (gotoTimeAndNotifyChanged_versions_all h this c targetTime Hchain i).
Qed.

End TimeMoves.

Lemma gotoTimeAndNotifyChanged_versions_witness :
  chainFrom getParentOrOwner sampleStore (Some 2%nat) [2; 1; 0]%nat /\
  contentVersion <$>
    (@gotoTimeAndNotifyChanged Reference.external 2 1000000 sampleStore).2 !! 1%nat
    = Some 1.
Proof.
  assert (H : chainFrom getParentOrOwner sampleStore (Some 2%nat) [2; 1; 0]%nat).
  { repeat (econstructor; [reflexivity |]). constructor. }
  split; [exact H |].
  rewrite (@gotoTimeAndNotifyChanged_versions Reference.external _ _ _ 1000000 H 1%nat)
    by discriminate.
  reflexivity.
Defined.

(** ** Attaching to a tree *)

Lemma onAddToStage_lookup (pagStage : nat) (c : list nat) :
  forall (h : Store) (this : nat) (fuel : nat),
    chainFrom _trackMatteLayer h (Some this) c -> (length c <= fuel)%nat ->
    onAddToStage fuel this pagStage h = alterAll (set_stage (Some pagStage)) c h.
Proof.
  induction c as [| p rest IH]; intros h this fuel Hc Hfuel.
  - inversion Hc.
  - inversion Hc as [| p' l rest' Hp Hrest]; subst.
    destruct fuel as [| n]; simpl in Hfuel; [lia |].
    simpl. rewrite Hp.
    destruct (_trackMatteLayer l) as [m |] eqn:Em.
    + apply IH; [| lia]. apply chainFrom_alter; [reflexivity | exact Hrest].
    + inversion Hrest. reflexivity.
Qed.

Lemma NoDup_reverse_chain (c : list nat) : NoDup c -> NoDup (reverse c).
Proof.
  intros H. apply NoDup_ListNoDup. rewrite reverse_Permutation. by apply NoDup_ListNoDup.
Qed.

(** X3. [attachToTree(newLocker, newStage)] on a layer whose track-matte
    chain is [c]: every layer of [c] ends with the mutex [newLocker] and,
    when a stage is given, with that stage; a null stage leaves every stage
    as it was. Layers outside [c] are untouched and no mutex is created. *)
Theorem attachToTree_shares_locker_and_stage (w : World) (this : nat) (c : list nat)
    (newLocker : nat) (newStage : option nat) :
  chainFrom _trackMatteLayer (layers w) (Some this) c ->
  let w' := attachToTree newLocker newStage this w in
  (forall i, i ∈ c -> rootLocker <$> layers w' !! i = Some newLocker) /\
  (forall i s, i ∈ c -> newStage = Some s -> stage <$> layers w' !! i = Some (Some s)) /\
  (newStage = None -> forall i, stage <$> layers w' !! i = stage <$> layers w !! i) /\
  (forall i, i ∉ c -> layers w' !! i = layers w !! i) /\
  nextLocker w' = nextLocker w.
Proof.
  intros Hc w'.
  pose proof (chainFrom_NoDup _ _ _ _ Hc) as Hnd.
  pose proof (chainFrom_length _ _ _ _ Hc) as Hlen.
  pose proof (NoDup_reverse_chain c Hnd) as Hrev.
  set (h1 := updateRootLocker (size (layers w)) this newLocker (layers w)).
  assert (Hh1 : h1 = alterAll (set_rootLocker newLocker) (reverse c) (layers w))
    by (by apply updateRootLocker_lookup).
  assert (Hc1 : chainFrom _trackMatteLayer h1 (Some this) c).
  { rewrite Hh1. apply alterAll_chain; [reflexivity | exact Hc]. }
  assert (Hlock : forall i, i ∈ c -> rootLocker <$> h1 !! i = Some newLocker).
  { intros i Hi. rewrite Hh1, alterAll_lookup_in by by rewrite ?elem_of_reverse.
    destruct (chainFrom_stored _ _ _ _ Hc i Hi) as [l Hl]. by rewrite Hl. }
  assert (Hout1 : forall i, i ∉ c -> h1 !! i = layers w !! i).
  { intros i Hi. rewrite Hh1. apply alterAll_lookup_notin. by rewrite elem_of_reverse. }
  assert (Hstage1 : forall i, stage <$> h1 !! i = stage <$> layers w !! i).
  { intros i. rewrite Hh1. apply alterAll_proj. reflexivity. }
  destruct newStage as [s |].
  - assert (Hl' : layers w' = alterAll (set_stage (Some s)) c h1).
    { subst w'. unfold attachToTree. cbn [layers]. fold h1.
      by apply onAddToStage_lookup. }
    split; [| split; [| split; [| split]]].
    + intros i Hi. rewrite Hl', alterAll_proj by reflexivity. by apply Hlock.
    + intros i s' Hi [= <-]. rewrite Hl', alterAll_lookup_in by assumption.
      destruct (chainFrom_stored _ _ _ _ Hc1 i Hi) as [l Hl]. by rewrite Hl.
    + discriminate.
    + intros i Hi. rewrite Hl', alterAll_lookup_notin by exact Hi. by apply Hout1.
    + reflexivity.
  - assert (Hl' : layers w' = h1) by reflexivity.
    split; [| split; [| split; [| split]]].
    + intros i Hi. rewrite Hl'. by apply Hlock.
    + discriminate.
    + intros _ i. rewrite Hl'. apply Hstage1.
    + intros i Hi. rewrite Hl'. by apply Hout1.
    + reflexivity.
Qed.

Lemma attachToTree_shares_locker_and_stage_witness :
  chainFrom _trackMatteLayer sampleStore (Some 1%nat) [1; 2]%nat /\
  rootLocker <$> layers (attachToTree 7 (Some 4%nat) 1 sampleWorld) !! 2%nat = Some 7%nat /\
  stage <$> layers (attachToTree 7 (Some 4%nat) 1 sampleWorld) !! 2%nat
    = Some (Some 4%nat).
Proof.
  assert (H : chainFrom _trackMatteLayer sampleStore (Some 1%nat) [1; 2]%nat).
  { repeat (econstructor; [reflexivity |]). constructor. }
  split; [exact H |].
  destruct (attachToTree_shares_locker_and_stage sampleWorld 1 _ 7 (Some 4%nat) H)
    as (Hlock & Hstage & _).
  split; [apply Hlock | apply (Hstage 2%nat 4%nat)]; repeat constructor.
Defined.

(** X4. [detachFromTree] takes the whole track-matte chain [c] off the
    stage exactly when the layer itself is on a stage; when the layer has
    no stage, no stage member changes, whatever the matte layers hold. *)
Theorem detachFromTree_leaves_stage (w : World) (this : nat) (c : list nat) :
  chainFrom _trackMatteLayer (layers w) (Some this) c ->
  let w' := detachFromTree this w in
  (is_Some (layers w !! this ≫= stage) ->
   forall i, i ∈ c -> stage <$> layers w' !! i = Some None) /\
  (layers w !! this ≫= stage = None ->
   forall i, stage <$> layers w' !! i = stage <$> layers w !! i).
Proof.
  intros Hc w'.
  pose proof (chainFrom_length _ _ _ _ Hc) as Hlen.
  set (h1 := match layers w !! this ≫= stage with
             | Some _ => onRemoveFromStage (size (layers w)) this (layers w)
             | None => layers w
             end).
  assert (Hc1 : chainFrom _trackMatteLayer h1 (Some this) c).
  { subst h1. destruct (layers w !! this ≫= stage); [| exact Hc].
    rewrite (onRemoveFromStage_lookup c) by assumption.
    apply alterAll_chain; [reflexivity | exact Hc]. }
  assert (Hl' : forall i, stage <$> layers w' !! i = stage <$> h1 !! i).
  { intros i. subst w'. unfold detachFromTree. cbn [layers]. fold h1.
    rewrite (updateRootLocker_lookup _ _ c) by assumption.
    apply alterAll_proj. reflexivity. }
  split.
  - intros [s Hs] i Hi. rewrite Hl'. subst h1. rewrite Hs.
    rewrite (onRemoveFromStage_lookup c) by assumption.
    rewrite alterAll_lookup_in by (eauto using chainFrom_NoDup).
    destruct (chainFrom_stored _ _ _ _ Hc i Hi) as [l Hl]. by rewrite Hl.
  - intros Hn i. rewrite Hl'. subst h1. by rewrite Hn.
Qed.

Lemma detachFromTree_leaves_stage_witness :
  let w := attachToTree 7 (Some 4%nat) 1 sampleWorld in
  chainFrom _trackMatteLayer (layers w) (Some 1%nat) [1; 2]%nat /\
  stage <$> layers (detachFromTree 1 w) !! 2%nat = Some None.
Proof.
  intros w.
  assert (H : chainFrom _trackMatteLayer (layers w) (Some 1%nat) [1; 2]%nat).
  { repeat (econstructor; [reflexivity |]). constructor. }
  split; [exact H |].
  destruct (detachFromTree_leaves_stage w 1 _ H) as [Hon _].
  apply Hon; [eexists; reflexivity | repeat constructor].
Defined.

(** ** Moving a layer and its track mattes in time *)

Section GotoTime.

Context {E : External}.

Lemma gotoTime_chain (layerTime : Z) (h : Store) (c : list nat) :
  forall (this : nat) (fuel : nat),
    chainFrom _trackMatteLayer h (Some this) c -> (length c <= fuel)%nat ->
    (forall i : nat,
       (gotoTime fuel this layerTime h).2 !! i =
         if decide (i ∈ c) then movedTo layerTime <$> h !! i else h !! i) /\
    (gotoTime fuel this layerTime h).1 = existsb (frameChangedAt layerTime h) c.
Proof.
  induction c as [| p rest IH]; intros this fuel Hc Hfuel.
  - inversion Hc.
  - pose proof (chainFrom_NoDup _ _ _ _ Hc) as Hnd. apply NoDup_cons in Hnd as [Hp _].
    inversion Hc as [| p' l rest' El Hrest]; subst.
    destruct fuel as [| n]; simpl in Hfuel; [lia |].
    simpl. rewrite El.
    set (r := match _trackMatteLayer l with
              | Some m => gotoTime n m layerTime h
              | None => (false, h)
              end).
    assert (Hr : (forall i, r.2 !! i =
                    if decide (i ∈ rest) then movedTo layerTime <$> h !! i else h !! i) /\
                 r.1 = existsb (frameChangedAt layerTime h) rest).
    { subst r. destruct (_trackMatteLayer l) as [m |].
      - apply IH; [exact Hrest | lia].
      - inversion Hrest. split; [intros i |]; reflexivity. }
    destruct Hr as [Hr2 Hr1].
    assert (Hthis : r.2 !! p = Some l).
    { rewrite Hr2. destruct (decide (p ∈ rest)); [contradiction | exact El]. }
    rewrite Hthis. cbn [fst snd]. split.
    + intros i. rewrite lookup_insert. destruct (decide (p = i)) as [<- | Hne].
      * rewrite decide_True by left. rewrite El. reflexivity.
      * rewrite Hr2. destruct (decide (i ∈ rest)) as [Hi | Hi].
        -- rewrite decide_True by (by right). reflexivity.
        -- rewrite decide_False; [reflexivity |].
           intros Hin. apply elem_of_cons in Hin as [-> | Hin]; contradiction.
    + rewrite Hr1. cbn [existsb].
      assert (Hp' : frameChangedAt layerTime h p =
                checkFrameChanged (layer l)
                  (TimeToFrame layerTime (frameRateInternal l) - startFrame l)
                  (contentFrame l))
        by (unfold frameChangedAt; rewrite El; reflexivity).
      rewrite Hp'.
      destruct (existsb _ rest); [by rewrite orb_true_r | by rewrite orb_false_r].
Qed.

(** X5. [gotoTime(layerTime)] on a layer whose track-matte chain is [c]
    (the layer first) moves every layer of [c] to the content frame of
    [layerTime] at that layer's own frame rate and start frame, changes
    nothing else in the store, and reports a change exactly when the cache
    of at least one layer of [c] reports one. *)
Theorem gotoTime_moves_matte_chain (layerTime : Z) (h : Store) (this : nat)
    (c : list nat) :
  chainFrom _trackMatteLayer h (Some this) c ->
  let r := gotoTime (size h) this layerTime h in
  (forall i l, i ∈ c -> h !! i = Some l ->
     exists l', r.2 !! i = Some l' /\
       contentFrame l' = TimeToFrame layerTime (frameRateInternal l) - startFrame l /\
       currentFrameInternal l' = TimeToFrame layerTime (frameRateInternal l) /\
       set_contentFrame (contentFrame l) l' = l) /\
  (forall i, i ∉ c -> r.2 !! i = h !! i) /\
  r.1 = existsb (frameChangedAt layerTime h) c.
Proof.
  intros Hc r.
  destruct (gotoTime_chain layerTime h c this (size h) Hc (chainFrom_length _ _ _ _ Hc))
    as [H2 H1].
  split; [| split].
  - intros i l Hi El. exists (movedTo layerTime l). subst r.
    rewrite H2, decide_True, El by exact Hi. split; [reflexivity |].
    split; [reflexivity |]. split.
    + unfold currentFrameInternal, stretchedContentFrame, movedTo. simpl. lia.
    + by destruct l.
  - intros i Hi. subst r. rewrite H2, decide_False by exact Hi. reflexivity.
  - exact H1.
Qed.

End GotoTime.

Lemma gotoTime_moves_matte_chain_witness :
  chainFrom _trackMatteLayer sampleStore (Some 1%nat) [1; 2]%nat /\
  contentFrame <$> (@gotoTime Reference.external (size sampleStore) 1 500000 sampleStore).2
    !! 2%nat = Some 30.
Proof.
  assert (H : chainFrom _trackMatteLayer sampleStore (Some 1%nat) [1; 2]%nat).
  { repeat (econstructor; [reflexivity |]). constructor. }
  split; [exact H |].
  destruct (@gotoTime_moves_matte_chain Reference.external 500000 sampleStore 1 _ H)
    as (Hin & _).
  destruct (Hin 2%nat (sampleLayer None (Some 1%nat) None 0)) as (l' & Hl' & Hc & _);
    [repeat constructor | reflexivity |].
  rewrite Hl'. simpl. rewrite Hc. reflexivity.
Defined.

(** ** Stepping through the frames *)

Lemma Qfloor_unique (q : Q) (z : Z) :
  (inject_Z z <= q)%Q -> (q < inject_Z z + 1)%Q -> Qfloor q = z.
Proof.
  intros Hlo Hhi.
  pose proof (Qfloor_le q) as F1. pose proof (Qlt_floor q) as F2.
  rewrite inject_Z_plus in F2. change (inject_Z 1) with 1%Q in F2.
  apply inject_Z_within_one; lra.
Qed.

(** For the reference helpers and a frame rate up to a million frames per
    second, the time of a frame lies in that frame. *)
Lemma Reference_frame_of_frame_time (r : Q) (f : Z) :
  (0 < r)%Q -> (r <= 1000000)%Q ->
  Reference.TimeToFrame (Reference.FrameToTime f (Fin r)) (Fin r) = f.
Proof.
  intros Hr Hmax. unfold Reference.TimeToFrame, Reference.FrameToTime.
  destruct (Qeq_bool r 0) eqn:E0; [apply Qeq_bool_iff in E0; lra |].
  pose proof (Qle_ceiling (inject_Z f * 1000000 / r)) as C1.
  pose proof (Qceiling_lt (inject_Z f * 1000000 / r)) as C2.
  unfold Z.sub in C2. rewrite inject_Z_plus in C2.
  change (inject_Z (- (1))) with (- (1))%Q in C2.
  set (x := (inject_Z f * 1000000 / r)%Q) in *.
  set (t := inject_Z (Qceiling x)) in *.
  assert (E1 : (x * r == inject_Z f * 1000000)%Q) by (subst x; field; lra).
  apply Qfloor_unique.
  - apply Qle_shift_div_l; [lra |]. nra.
  - apply Qlt_shift_div_r; [lra |]. nra.
Qed.

Section Stepping.

Context {E : External}.

(** X6. On a layer of more than one frame whose content frame is in range,
    and with time helpers that map the time of a frame back to that frame,
    [nextFrame] moves to the next content frame and wraps from the last to
    frame 0, [preFrame] moves to the previous one and wraps from frame 0 to
    the last, and each undoes the other. *)
Theorem nextFrame_preFrame_wrap (h : Store) (this : nat) (l : PAGLayer) :
  (forall f : Z,
     TimeToFrame (FrameToTime f (frameRateInternal l)) (frameRateInternal l) = f) ->
  h !! this = Some l ->
  1 < frameDuration l ->
  0 <= contentFrame l < frameDuration l ->
  contentFrame <$> nextFrameInternal this h !! this
    = Some ((contentFrame l + 1) mod frameDuration l) /\
  contentFrame <$> preFrameInternal this h !! this
    = Some ((contentFrame l - 1) mod frameDuration l) /\
  contentFrame <$> preFrameInternal this (nextFrameInternal this h) !! this
    = Some (contentFrame l) /\
  contentFrame <$> nextFrameInternal this (preFrameInternal this h) !! this
    = Some (contentFrame l).
Proof.
  intros Hrt El HD Hcf.
  assert (Hstep : forall (h0 : Store) (l0 : PAGLayer),
            h0 !! this = Some l0 -> layer l0 = layer l -> file l0 = file l ->
            startFrame l0 = startFrame l ->
            0 <= contentFrame l0 < frameDuration l ->
            (exists l1, nextFrameInternal this h0 !! this = Some l1 /\
               contentFrame l1 = (contentFrame l0 + 1) mod frameDuration l /\
               layer l1 = layer l /\ file l1 = file l /\ startFrame l1 = startFrame l) /\
            (exists l1, preFrameInternal this h0 !! this = Some l1 /\
               contentFrame l1 = (contentFrame l0 - 1) mod frameDuration l /\
               layer l1 = layer l /\ file l1 = file l /\ startFrame l1 = startFrame l)).
  { intros h0 l0 E0 Hly Hfile Hs Hc0.
    assert (HD0 : frameDuration l0 = frameDuration l) by (unfold frameDuration; by rewrite Hly).
    assert (Hr0 : frameRateInternal l0 = frameRateInternal l)
      by (unfold frameRateInternal; by rewrite Hfile).
    unfold nextFrameInternal, preFrameInternal, stretchedFrameDuration. rewrite E0, HD0.
    destruct (Z.leb_spec (frameDuration l) 1) as [| _]; [lia |].
    split.
    - destruct (gotoTimeAndNotifyChanged_layer this
                  (FrameToTime (startFrame l0 + nextContentFrame l0) (frameRateInternal l0))
                  h0 l0 E0) as (l1 & E1 & Hc1 & Hl1 & Hf1 & Hs1).
      exists l1. split; [exact E1 |]. rewrite Hr0, Hrt in Hc1.
      split; [| repeat split; congruence].
      rewrite Hc1. unfold nextContentFrame, stretchedFrameDuration, stretchedContentFrame.
      rewrite HD0. destruct (Z.leb_spec (frameDuration l) (contentFrame l0 + 1)).
      + replace (contentFrame l0 + 1) with (frameDuration l) by lia.
        rewrite Z_mod_same_full. lia.
      + rewrite Z.mod_small by lia. lia.
    - destruct (gotoTimeAndNotifyChanged_layer this
                  (FrameToTime (startFrame l0 + preContentFrame l0) (frameRateInternal l0))
                  h0 l0 E0) as (l1 & E1 & Hc1 & Hl1 & Hf1 & Hs1).
      exists l1. split; [exact E1 |]. rewrite Hr0, Hrt in Hc1.
      split; [| repeat split; congruence].
      rewrite Hc1. unfold preContentFrame, stretchedFrameDuration, stretchedContentFrame.
      rewrite HD0. destruct (Z.ltb_spec (contentFrame l0 - 1) 0).
      + replace (contentFrame l0 - 1) with (- (1)) by lia.
        rewrite <- (Z_mod_plus_full (- (1)) 1 (frameDuration l)).
        rewrite Z.mod_small by lia. lia.
      + rewrite Z.mod_small by lia. lia. }
  destruct (Hstep h l El eq_refl eq_refl eq_refl Hcf) as [(ln & En & Hcn & Hln & Hfn & Hsn)
                                                          (lp & Ep & Hcp & Hlp & Hfp & Hsp)].
  assert (Rn : 0 <= contentFrame ln < frameDuration l)
    by (rewrite Hcn; apply Z.mod_pos_bound; lia).
  assert (Rp : 0 <= contentFrame lp < frameDuration l)
    by (rewrite Hcp; apply Z.mod_pos_bound; lia).
  destruct (Hstep _ ln En Hln Hfn Hsn Rn) as [_ (lnp & Enp & Hcnp & _)].
  destruct (Hstep _ lp Ep Hlp Hfp Hsp Rp) as [(lpn & Epn & Hcpn & _) _].
  rewrite En, Ep, Enp, Epn. simpl. rewrite Hcn, Hcp, Hcnp, Hcpn.
  repeat split; f_equal.
  - rewrite Hcn. rewrite Zminus_mod_idemp_l.
    replace (contentFrame l + 1 - 1) with (contentFrame l) by lia.
    apply Z.mod_small. lia.
  - rewrite Hcp. rewrite Zplus_mod_idemp_l.
    replace (contentFrame l - 1 + 1) with (contentFrame l) by lia.
    apply Z.mod_small. lia.
Qed.

End Stepping.

Lemma nextFrame_preFrame_wrap_witness :
  contentFrame <$> @nextFrameInternal Reference.external 0 sampleTextStore !! 0%nat
    = Some (1 mod 180).
Proof.
  destruct (@nextFrame_preFrame_wrap Reference.external sampleTextStore 0
              (PAGLayer_new None (Some sampleTextLayer) 0)) as (Hn & _).
  - intros f. apply (Reference_frame_of_frame_time 60 f); [reflexivity | discriminate].
  - reflexivity.
  - reflexivity.
  - split; [discriminate | reflexivity].
  - exact Hn.
Defined.

(** ** Segmentation of the glyphs *)

Section Segmentation.

Import TextMotion.

Lemma rangesWithin_weaken (lo lo' n : nat) (ranges : list UnitRange) :
  (lo' <= lo)%nat -> rangesWithin lo n ranges -> rangesWithin lo' n ranges.
Proof.
  destruct ranges as [| r rest]; simpl; [done |].
  intros Hlo (H1 & H2 & H3 & H4). repeat split; [lia | lia | lia | exact H4].
Qed.

Lemma rangesWithin_not_covered (lo n k : nat) (ranges : list UnitRange) :
  rangesWithin lo n ranges -> (k < lo)%nat -> covered ranges k = false.
Proof.
  revert lo. induction ranges as [| r rest IH]; intros lo; simpl; [done |].
  intros (H1 & H2 & H3 & H4) Hk.
  rewrite (IH _ H4) by lia. rewrite orb_false_r.
  apply andb_false_iff. left. apply Nat.leb_gt. lia.
Qed.

Lemma rangesWithin_beyond (lo n k : nat) (ranges : list UnitRange) :
  rangesWithin lo n ranges -> (n <= k)%nat -> covered ranges k = false.
Proof.
  revert lo. induction ranges as [| r rest IH]; intros lo; simpl; [done |].
  intros (H1 & H2 & H3 & H4) Hk.
  rewrite (IH _ H4) by lia. rewrite orb_false_r.
  apply andb_false_iff. right. apply Nat.ltb_ge. lia.
Qed.

Lemma letterRanges_within (glyphs : list Text.GlyphHandle) (i : nat) :
  rangesWithin i (i + length glyphs) (letterRanges i glyphs).
Proof.
  revert i. induction glyphs as [| g rest IH]; intros i; simpl; [done |].
  specialize (IH (S i)).
  replace (S i + length rest)%nat with (i + S (length rest))%nat in IH by lia.
  destruct (IsWhitespaceGlyph g).
  - eapply rangesWithin_weaken; [| exact IH]. lia.
  - simpl. repeat split; [lia | lia | lia | exact IH].
Qed.

Lemma wordRanges_app (glyphs : list Text.GlyphHandle) :
  forall (i : nat) (inWord : bool) (startIndex : nat) (ranges : list UnitRange),
    wordRanges i inWord startIndex glyphs ranges =
    ranges ++ wordRanges i inWord startIndex glyphs [].
Proof.
  induction glyphs as [| g rest IH]; intros i inWord startIndex ranges; simpl.
  - destruct inWord; [reflexivity | by rewrite app_nil_r].
  - destruct (IsWhitespaceGlyph g), inWord; try apply IH.
    rewrite (IH _ _ _ (ranges ++ _)), (IH _ _ _ [_]), <- app_assoc. reflexivity.
Qed.

Lemma wordRanges_within (glyphs : list Text.GlyphHandle) :
  forall (i : nat) (inWord : bool) (startIndex : nat),
    (inWord = true -> (startIndex < i)%nat) ->
    rangesWithin (if inWord then startIndex else i) (i + length glyphs)
      (wordRanges i inWord startIndex glyphs []).
Proof.
  induction glyphs as [| g rest IH]; intros i inWord startIndex Hs; simpl.
  - destruct inWord; simpl; [| done]. specialize (Hs eq_refl). lia.
  - replace (i + S (length rest))%nat with (S i + length rest)%nat by lia.
    destruct (IsWhitespaceGlyph g), inWord.
    + specialize (Hs eq_refl). rewrite wordRanges_app. simpl.
      repeat split; [lia | lia | lia |].
      eapply rangesWithin_weaken; [| apply (IH (S i) false startIndex); done]. simpl. lia.
    + eapply rangesWithin_weaken; [| apply (IH (S i) false startIndex); done]. simpl. lia.
    + specialize (Hs eq_refl). apply (IH (S i) true startIndex). lia.
    + apply (IH (S i) true i). lia.
Qed.

Lemma BuildRanges_within (effect : TextMotionEffect.t) (glyphs : list Text.GlyphHandle) :
  rangesWithin 0 (length glyphs) (BuildRanges effect glyphs).
Proof.
  destruct glyphs as [| g rest]; [done |].
  assert (Hfull : rangesWithin 0 (length (g :: rest)) [MkUnitRange 0 (length (g :: rest))])
    by (simpl; lia).
  unfold BuildRanges.
  set (ranges := match effect with
                 | TextMotionEffect.Letter => letterRanges 0 (g :: rest)
                 | TextMotionEffect.Word => wordRanges 0 false 0 (g :: rest) []
                 | TextMotionEffect.None => [MkUnitRange 0 (length (g :: rest))]
                 end).
  assert (Hr : rangesWithin 0 (length (g :: rest)) ranges).
  { subst ranges. destruct effect.
    - exact Hfull.
    - apply (letterRanges_within (g :: rest) 0).
    - apply (wordRanges_within (g :: rest) 0 false 0). done. }
  destruct ranges; [exact Hfull | exact Hr].
Qed.

Lemma BuildRanges_nil_iff (effect : TextMotionEffect.t) (glyphs : list Text.GlyphHandle) :
  BuildRanges effect glyphs = [] <-> glyphs = [].
Proof.
  split.
  - destruct glyphs as [| g rest]; [done |]. unfold BuildRanges.
    destruct (match effect with
              | TextMotionEffect.Letter => _
              | TextMotionEffect.Word => _
              | TextMotionEffect.None => _
              end); discriminate.
  - intros ->. reflexivity.
Qed.

(** X7. [BuildRanges] returns no range only for no glyph. For every effect
    its ranges come in increasing order, none is empty, none overlaps the
    one before it, and none reaches beyond the number of glyphs; so there
    are at most as many ranges as glyphs. *)
Theorem BuildRanges_well_formed (effect : TextMotionEffect.t)
    (glyphs : list Text.GlyphHandle) :
  (BuildRanges effect glyphs = [] <-> glyphs = []) /\
  rangesWithin 0 (length glyphs) (BuildRanges effect glyphs) /\
  (length (BuildRanges effect glyphs) <= length glyphs)%nat.
Proof.
  split; [| split].
  - apply BuildRanges_nil_iff.
  - apply BuildRanges_within.
  - pose proof (BuildRanges_within effect glyphs) as H.
    assert (Hlen : forall ranges lo n, rangesWithin lo n ranges ->
                     (lo + length ranges <= Nat.max lo n)%nat).
    { induction ranges as [| r rest IH]; intros lo n; simpl; [lia |].
      intros (H1 & H2 & H3 & H4). specialize (IH _ _ H4). lia. }
    specialize (Hlen _ _ _ H). lia.
Qed.

Lemma letterRanges_covered (glyphs : list Text.GlyphHandle) :
  forall (i k : nat) (g : Text.GlyphHandle),
    glyphs !! k = Some g ->
    covered (letterRanges i glyphs) (i + k) = negb (IsWhitespaceGlyph g).
Proof.
  induction glyphs as [| g0 rest IH]; intros i k g Hk; [done |].
  destruct k as [| k']; simpl in Hk.
  - injection Hk as ->. simpl. rewrite Nat.add_0_r.
    pose proof (letterRanges_within rest (S i)) as Hw.
    destruct (IsWhitespaceGlyph g); simpl.
    + eapply rangesWithin_not_covered; [exact Hw | lia].
    + rewrite Nat.leb_refl. replace (i <? S i)%nat with true; [done |].
      symmetry. apply Nat.ltb_lt. lia.
  - specialize (IH (S i) k' g Hk).
    replace (S i + k')%nat with (i + S k')%nat in IH by lia.
    simpl. destruct (IsWhitespaceGlyph g0); [exact IH |].
    simpl. rewrite IH.
    replace (i + S k' <? S i)%nat with false; [by rewrite andb_false_r |].
    symmetry. apply Nat.ltb_ge. lia.
Qed.

Lemma wordRanges_pending_covered (glyphs : list Text.GlyphHandle) :
  forall (i startIndex j : nat),
    (startIndex <= j < i)%nat ->
    covered (wordRanges i true startIndex glyphs []) j = true.
Proof.
  assert (Hin : forall s i j, (s <= j < i)%nat -> (s <=? j)%nat && (j <? i)%nat = true).
  { intros s i j Hj. apply andb_true_iff. split; [apply Nat.leb_le | apply Nat.ltb_lt]; lia. }
  induction glyphs as [| g rest IH]; intros i startIndex j Hj; simpl.
  - rewrite Hin by exact Hj. reflexivity.
  - destruct (IsWhitespaceGlyph g).
    + rewrite wordRanges_app. unfold covered. rewrite existsb_app. simpl.
      rewrite Hin by exact Hj. reflexivity.
    + apply IH. lia.
Qed.

Lemma wordRanges_covered (glyphs : list Text.GlyphHandle) :
  forall (i : nat) (inWord : bool) (startIndex k : nat) (g : Text.GlyphHandle),
    (inWord = true -> (startIndex < i)%nat) ->
    glyphs !! k = Some g ->
    covered (wordRanges i inWord startIndex glyphs []) (i + k) = negb (IsWhitespaceGlyph g).
Proof.
  induction glyphs as [| g0 rest IH]; intros i inWord startIndex k g Hs Hk; [done |].
  destruct k as [| k']; simpl in Hk.
  - injection Hk as ->. rewrite Nat.add_0_r. simpl.
    destruct (IsWhitespaceGlyph g) eqn:Ews, inWord; simpl.
    + rewrite wordRanges_app. unfold covered. rewrite existsb_app. simpl.
      rewrite Nat.ltb_irrefl, andb_false_r. simpl.
      eapply rangesWithin_not_covered; [apply (wordRanges_within rest (S i) false); done |].
      simpl. lia.
    + eapply rangesWithin_not_covered; [apply (wordRanges_within rest (S i) false); done |].
      simpl. lia.
    + apply wordRanges_pending_covered. specialize (Hs eq_refl). lia.
    + apply wordRanges_pending_covered. lia.
  - replace (i + S k')%nat with (S i + k')%nat by lia. simpl.
    destruct (IsWhitespaceGlyph g0), inWord.
    + rewrite wordRanges_app. unfold covered. rewrite existsb_app. simpl.
      replace (S (i + k') <? i)%nat with false by (symmetry; apply Nat.ltb_ge; lia).
      rewrite andb_false_r. simpl. apply (IH (S i) false startIndex k' g); done.
    + apply (IH (S i) false startIndex k' g); done.
    + apply (IH (S i) true startIndex k' g); [| done]. specialize (Hs eq_refl). lia.
    + apply (IH (S i) true i k' g); [| done]. lia.
Qed.

(** X8. When at least one glyph is not whitespace, the ranges of the
    [Letter] and of the [Word] effect cover exactly the glyphs that are not
    whitespace; otherwise (effect [None], or whitespace only) the ranges
    cover every glyph. No range ever covers an index beyond the glyphs. *)
Theorem BuildRanges_covers_visible_glyphs (effect : TextMotionEffect.t)
    (glyphs : list Text.GlyphHandle) (k : nat) :
  covered (BuildRanges effect glyphs) k =
    match glyphs !! k with
    | Some g =>
        match effect with
        | TextMotionEffect.None => true
        | _ => if forallb IsWhitespaceGlyph glyphs then true
               else negb (IsWhitespaceGlyph g)
        end
    | None => false
    end.
Proof.
  destruct (glyphs !! k) as [g |] eqn:Ek.
  - assert (Hk : (k < length glyphs)%nat) by (eapply lookup_lt_Some; exact Ek).
    assert (Hfull : covered [MkUnitRange 0 (length glyphs)] k = true).
    { simpl. rewrite orb_false_r. apply Nat.ltb_lt. exact Hk. }
    destruct glyphs as [| g0 rest]; [done |].
    destruct effect.
    + exact Hfull.
    + destruct (forallb IsWhitespaceGlyph (g0 :: rest)) eqn:Eall.
      * rewrite BuildRanges_whitespace; [exact Hfull | | done].
        apply Forall_forall. intros x Hx. rewrite forallb_forall in Eall.
        apply Eall. apply list_elem_of_In. exact Hx.
      * pose proof (letterRanges_covered (g0 :: rest) 0 k g Ek) as Hc.
        unfold BuildRanges.
        destruct (letterRanges 0 (g0 :: rest)) as [| r rs] eqn:El; [| exact Hc].
        simpl in Hc. rewrite Hfull. destruct (IsWhitespaceGlyph g) eqn:Eg; [| done].
        exfalso. apply not_true_iff_false in Eall. apply Eall.
        apply forallb_forall. intros x Hx. apply list_elem_of_In in Hx.
        apply list_elem_of_lookup in Hx as [j Hj].
        pose proof (letterRanges_covered (g0 :: rest) 0 j x Hj) as Hcj.
        rewrite El in Hcj. simpl in Hcj. by destruct (IsWhitespaceGlyph x).
    + destruct (forallb IsWhitespaceGlyph (g0 :: rest)) eqn:Eall.
      * rewrite BuildRanges_whitespace; [exact Hfull | | done].
        apply Forall_forall. intros x Hx. rewrite forallb_forall in Eall.
        apply Eall. apply list_elem_of_In. exact Hx.
      * pose proof (wordRanges_covered (g0 :: rest) 0 false 0 k g ltac:(done) Ek) as Hc.
        unfold BuildRanges.
        destruct (wordRanges 0 false 0 (g0 :: rest) []) as [| r rs] eqn:El; [| exact Hc].
        simpl in Hc. rewrite Hfull. destruct (IsWhitespaceGlyph g) eqn:Eg; [| done].
        exfalso. apply not_true_iff_false in Eall. apply Eall.
        apply forallb_forall. intros x Hx. apply list_elem_of_In in Hx.
        apply list_elem_of_lookup in Hx as [j Hj].
        pose proof (wordRanges_covered (g0 :: rest) 0 false 0 j x ltac:(done) Hj) as Hcj.
        rewrite El in Hcj. simpl in Hcj. by destruct (IsWhitespaceGlyph x).
  - apply lookup_ge_None in Ek.
    eapply rangesWithin_beyond; [apply BuildRanges_within | exact Ek].
Qed.

End Segmentation.

(** ** What [apply] and [clear] leave on the layer *)

Section TextMotionFurther.

Context {E : External}.

Import TextMotion.

Lemma makeAnimator_within (options : TextMotionOptions) (ly : Text.TextLayer)
    (rate : float) (doc : Text.TextDocument) (n rangeCount i : nat) (r : UnitRange) :
  (start r < end_ r)%nat -> (end_ r <= n)%nat ->
  makeAnimator options ly rate doc n rangeCount i r =
    Some {| Text.selectors := [makeSelector options n r];
            Text.typographyProperties :=
              Some (makeTypography options doc
                      (rangeStartFrame options ly rate rangeCount i)
                      (rangeEndFrame options ly rate rangeCount i)) |}.
Proof.
  intros H1 H2. unfold makeAnimator. cbv zeta.
  rewrite !Nat.min_l by lia.
  destruct (Nat.leb_spec (end_ r) (start r)) as [| _]; [lia |].
  by destruct r.
Qed.

Lemma buildAnimators_within (options : TextMotionOptions) (ly : Text.TextLayer)
    (rate : float) (doc : Text.TextDocument) (n rangeCount : nat)
    (ranges : list UnitRange) :
  forall lo i : nat,
    rangesWithin lo n ranges ->
    length (buildAnimators options ly rate doc n rangeCount i ranges) = length ranges /\
    Forall (fun a => exists r, r ∈ ranges /\
                       Text.selectors a = [makeSelector options n r])
      (buildAnimators options ly rate doc n rangeCount i ranges).
Proof.
  induction ranges as [| r rest IH]; intros lo i; simpl; [done |].
  intros (H1 & H2 & H3 & H4).
  rewrite makeAnimator_within by assumption.
  destruct (IH _ (S i) H4) as [Hlen Hall]. simpl. split; [by rewrite Hlen |].
  constructor.
  - exists r. split; [left | reflexivity].
  - eapply Forall_impl; [exact Hall |]. intros a (r' & Hr' & Ha).
    exists r'. split; [by right | exact Ha].
Qed.

Lemma generatedAnimators_length (options : TextMotionOptions) (rate : float)
    (ly : Text.TextLayer) :
  length (generatedAnimators options rate ly) =
  length (BuildRanges (effect options) (layerGlyphs ly)).
Proof.
  unfold generatedAnimators, layerGlyphs.
  destruct (Text.getTextDocument ly) as [doc |]; [| reflexivity].
  cbv zeta.
  eapply proj1, buildAnimators_within, BuildRanges_within.
Qed.

Lemma buildAnimators_per_range (options : TextMotionOptions) (ly : Text.TextLayer)
    (rate : float) (doc : Text.TextDocument) (n rangeCount : nat)
    (ranges : list UnitRange) :
  forall lo i : nat,
    rangesWithin lo n ranges ->
    Forall2 (fun a r => Text.selectors a = [makeSelector options n r])
      (buildAnimators options ly rate doc n rangeCount i ranges) ranges.
Proof.
  induction ranges as [| r rest IH]; intros lo i; simpl; [constructor |].
  intros (H1 & H2 & H3 & H4).
  rewrite makeAnimator_within by assumption.
  constructor; [reflexivity | exact (IH _ (S i) H4)].
Qed.

Lemma generatedAnimators_per_range (options : TextMotionOptions) (rate : float)
    (ly : Text.TextLayer) :
  Forall2 (fun a r =>
             Text.selectors a = [makeSelector options (length (layerGlyphs ly)) r])
    (generatedAnimators options rate ly)
    (BuildRanges (effect options) (layerGlyphs ly)).
Proof.
  unfold generatedAnimators, layerGlyphs.
  destruct (Text.getTextDocument ly) as [doc |].
  - cbv zeta. eapply buildAnimators_per_range, BuildRanges_within.
  - rewrite (proj2 (BuildRanges_nil_iff (effect options) []) eq_refl). constructor.
Qed.

(** X9. On a preset with a layer, [apply] keeps the first
    [baseAnimatorCount] animators of the layer, as they were, and appends
    to them one animator for each range of [BuildRanges], in the order of
    the ranges, each with the one selector of its range: no turn of the
    loop is skipped. It returns [true] exactly when the layer has a text
    document with at least one glyph. *)
Theorem apply_one_animator_per_range (options : TextMotionOptions)
    (p : TextMotionPreset) (ly : Text.TextLayer) :
  layer p = Some ly ->
  (exists generated : list Text.TextAnimator,
     presetAnimators (apply options p).2 =
       take (baseAnimatorCount p) (Text.animators ly) ++ generated /\
     Forall2 (fun a r =>
                Text.selectors a = [makeSelector options (length (layerGlyphs ly)) r])
       generated (BuildRanges (effect options) (layerGlyphs ly))) /\
  (apply options p).1 = match layerGlyphs ly with
                        | [] => false
                        | _ :: _ => true
                        end.
Proof.
  intros Hly.
  destruct (apply_layer options p ly Hly) as (ly' & Hl' & Han & Hres & _).
  pose proof (generatedAnimators_length options (frameRate p) ly) as Hlen.
  split.
  - exists (generatedAnimators options (frameRate p) ly). split.
    + unfold presetAnimators. rewrite Hl'. exact Han.
    + apply generatedAnimators_per_range.
  - rewrite Hres.
    pose proof (BuildRanges_nil_iff (effect options) (layerGlyphs ly)) as Hempty.
    destruct (generatedAnimators options (frameRate p) ly) as [| a rest];
      destruct (layerGlyphs ly) as [| g glyphs]; try reflexivity.
    + simpl in Hlen. symmetry in Hlen. apply length_zero_iff_nil in Hlen.
      apply Hempty in Hlen. discriminate.
    + rewrite (proj2 Hempty eq_refl) in Hlen. discriminate.
Qed.

Lemma ToPercent_ratio (v n : nat) :
  (0 < n)%nat ->
  ToPercent v n = Fin (inject_Z (Z.of_nat v) / inject_Z (Z.of_nat n)).
Proof.
  intros Hn. unfold ToPercent.
  destruct (Nat.eqb_spec n 0) as [| _]; [lia |].
  unfold FP.div, FP.of_int.
  destruct (Qeq_bool (inject_Z (Z.of_nat n)) 0) eqn:E0; [| reflexivity].
  apply Qeq_bool_iff in E0. unfold Qeq in E0. simpl in E0. lia.
Qed.

(** X10. Every animator that [apply] generates has one range selector, and
    the selector's start and end are fractions with
    0 <= start < end <= 1 (in exact arithmetic). *)
Theorem generated_selectors_in_unit_interval (options : TextMotionOptions)
    (rate : float) (ly : Text.TextLayer) :
  Forall (fun a => exists lo hi : Q,
                     selectsSpan a (Fin lo) (Fin hi) /\
                     (0 <= lo)%Q /\ (lo < hi)%Q /\ (hi <= 1)%Q)
    (generatedAnimators options rate ly).
Proof.
  unfold generatedAnimators.
  destruct (Text.getTextDocument ly) as [doc |]; [| constructor].
  cbv zeta. set (glyphs := concat (GetLines doc)).
  pose proof (BuildRanges_within (effect options) glyphs) as Hw.
  destruct (buildAnimators_within options ly rate doc (length glyphs)
              (length (BuildRanges (effect options) glyphs))
              (BuildRanges (effect options) glyphs) 0%nat 0%nat Hw) as [_ Hall].
  eapply Forall_impl; [exact Hall |]. intros a (r & Hr & Ha).
  assert (Hr' : (start r < end_ r)%nat /\ (end_ r <= length glyphs)%nat).
  { clear - Hw Hr. revert Hw. generalize 0%nat at 1.
    induction (BuildRanges (effect options) glyphs) as [| r0 rest IH]; intros lo; simpl.
    - inversion Hr.
    - intros (H1 & H2 & H3 & H4). apply elem_of_cons in Hr as [-> | Hr]; [lia |].
      eapply IH; eassumption. }
  destruct Hr' as [Hlt Hle].
  assert (Hn : (0 < length glyphs)%nat) by lia.
  exists (inject_Z (Z.of_nat (start r)) / inject_Z (Z.of_nat (length glyphs)))%Q,
         (inject_Z (Z.of_nat (end_ r)) / inject_Z (Z.of_nat (length glyphs)))%Q.
  assert (Hpos : (0 < inject_Z (Z.of_nat (length glyphs)))%Q).
  { unfold Qlt. simpl. lia. }
  split; [| split; [| split]].
  - exists (makeSelector options (length glyphs) r). split; [exact Ha |].
    simpl. rewrite !ToPercent_ratio by exact Hn. split; reflexivity.
  - apply Qle_shift_div_l; [exact Hpos |]. unfold Qle. simpl. lia.
  - unfold Qdiv. apply Qmult_lt_compat_r; [by apply Qinv_lt_0_compat |].
    rewrite <- Zlt_Qlt. lia.
  - apply Qle_shift_div_r; [exact Hpos |]. rewrite Qmult_1_l, <- Zle_Qle. lia.
Qed.

(** X11. [clear] after [apply] on a preset made for a layer puts the layer
    back: the animators, the grouping and every other member are those of
    the layer before. One trace remains: when [apply] got as far as the
    glyphs and the layer had an options object without a grouping
    alignment, the alignment (0.5, 0.5) that [apply] created stays. An
    options object that [apply] created itself is deleted again. *)
Theorem clear_after_apply_restores (options : TextMotionOptions) (rate : float)
    (ly : Text.TextLayer) :
  let p := clear (apply options (TextMotionPreset_new (Some ly) rate)).2 in
  layer p =
    Some (match layerGlyphs ly with
          | [] => ly
          | _ :: _ => Text.set_moreOption (withAlignment <$> Text.moreOption ly) ly
          end) /\
  createdMoreOption p = false /\
  baseAnimatorCount p = length (Text.animators ly) /\
  originalGrouping p = match Text.moreOption ly with
                       | Some m => Text.anchorPointGrouping m
                       | None => Text.Character
                       end.
Proof.
  cbv zeta.
  set (p0 := TextMotionPreset_new (Some ly) rate).
  assert (Hc0 : clear p0 =
                MkTextMotionPreset (Some ly) rate (length (Text.animators ly)) false
                  (originalGrouping p0)).
  { unfold clear, p0. simpl. rewrite popAnimators_take by lia.
    rewrite take_ge by lia. f_equal. destruct ly as [t s d ia st an mo]. simpl.
    destruct mo as [[g al] |]; reflexivity. }
  unfold apply. change (layer p0) with (Some ly). cbv zeta. rewrite Hc0.
  cbn [layer frameRate baseAnimatorCount createdMoreOption originalGrouping].
  unfold layerGlyphs.
  destruct (Text.getTextDocument ly) as [doc |] eqn:Edoc.
  - destruct (concat (GetLines doc)) as [| g glyphs] eqn:Eg.
    + cbn [snd]. rewrite <- Hc0 at 1.
      assert (Hcc : clear (clear p0) = clear p0).
      { rewrite Hc0. unfold clear. simpl. rewrite popAnimators_take by lia.
        rewrite take_ge by lia. f_equal. f_equal. destruct ly as [t s d ia st an mo]. simpl.
        destruct mo as [[g al] |]; reflexivity. }
      rewrite Hcc, Hc0. repeat split; reflexivity.
    + cbn [snd]. unfold clear. cbn [layer createdMoreOption baseAnimatorCount frameRate
                                    originalGrouping].
      rewrite popAnimators_take by (simpl; rewrite length_app; lia).
      simpl. rewrite take_app_length.
      destruct ly as [t s d ia st an mo]. simpl.
      destruct mo as [[gr al] |]; simpl; repeat split; reflexivity.
  - cbn [snd]. rewrite <- Hc0 at 1.
    assert (Hcc : clear (clear p0) = clear p0).
    { rewrite Hc0. unfold clear. simpl. rewrite popAnimators_take by lia.
      rewrite take_ge by lia. f_equal. f_equal. destruct ly as [t s d ia st an mo]. simpl.
      destruct mo as [[g al] |]; reflexivity. }
    rewrite Hcc, Hc0. repeat split; reflexivity.
Qed.

End TextMotionFurther.

Lemma apply_one_animator_per_range_witness :
  length (presetAnimators
            (@TextMotion.apply Reference.external staggeredFade
               (TextMotion.TextMotionPreset_new (Some (shortTextLayer "a b")) (Fin 60))).2)
    = 2%nat.
Proof.
  destruct (@apply_one_animator_per_range Reference.external staggeredFade
              (TextMotion.TextMotionPreset_new (Some (shortTextLayer "a b")) (Fin 60))
              (shortTextLayer "a b") eq_refl) as [(generated & Hall & Hper) _].
  rewrite Hall, length_app, (Forall2_length _ _ _ Hper). reflexivity.
Defined.

(** ** The stagger of the ranges *)

Section Stagger.

Import TextMotion.

Lemma clamp_unit (t : Q) :
  exists c : Q,
    FP.clamp (Fin t) FP.zero FP.one = Fin c /\
    (0 <= c)%Q /\ (c <= 1)%Q /\
    ((t <= 0)%Q -> (c == 0)%Q) /\ ((1 <= t)%Q -> (c == 1)%Q) /\
    ((0 <= t)%Q -> (t <= 1)%Q -> (c == t)%Q).
Proof.
  unfold FP.clamp, FP.lt, FP.zero, FP.one.
  destruct (Qle_bool 0 t) eqn:E0; simpl.
  - apply Qle_bool_iff in E0.
    destruct (Qle_bool t 1) eqn:E1; simpl.
    + apply Qle_bool_iff in E1. exists t. repeat split; try lra; intros; lra.
    + assert (~ (t <= 1)%Q) by (rewrite <- Qle_bool_iff; congruence).
      exists 1%Q. repeat split; try lra; intros; lra.
  - assert (~ (0 <= t)%Q) by (rewrite <- Qle_bool_iff; congruence).
    exists 0%Q. repeat split; try lra; intros; lra.
Qed.

Lemma ApplyEffectSmooth_unit (smooth : TextMotionEffectSmooth.t) (a b : Q) :
  (a <= b)%Q ->
  exists va vb : Q,
    ApplyEffectSmooth smooth (Fin a) = Fin va /\
    ApplyEffectSmooth smooth (Fin b) = Fin vb /\
    (0 <= va)%Q /\ (va <= vb)%Q /\ (vb <= 1)%Q /\
    ((a <= 0)%Q -> (va == 0)%Q) /\ ((1 <= b)%Q -> (vb == 1)%Q) /\
    ApplyEffectSmooth smooth NaN = NaN.
Proof.
  intros Hab.
  destruct (clamp_unit a) as (ca & Ea & A0 & A1 & Alo & Ahi & Amid).
  destruct (clamp_unit b) as (cb & Eb & B0 & B1 & Blo & Bhi & Bmid).
  assert (Hc : (ca <= cb)%Q).
  { destruct (Qlt_le_dec 0 a) as [Ha | Ha]; [| rewrite (Alo Ha); exact B0].
    destruct (Qlt_le_dec b 1) as [Hb | Hb]; [| rewrite (Bhi Hb); exact A1].
    rewrite Amid, Bmid by lra. exact Hab. }
  unfold ApplyEffectSmooth. cbv zeta. rewrite Ea, Eb.
  destruct smooth; simpl; eexists; eexists;
    (split; [reflexivity |]); (split; [reflexivity |]).
  - repeat split; assumption.
  - (* Smooth: t * t * (3 - 2 * t) *)
    repeat split.
    + nra.
    + assert (0 <= (cb - ca) * (3 * (ca + cb) - 2 * (ca * ca + ca * cb + cb * cb)))%Q; [| nra].
      apply Qmult_le_0_compat; [lra |]. nra.
    + assert (0 <= (1 - cb) * (1 - cb) * (1 + 2 * cb))%Q; [| nra].
      apply Qmult_le_0_compat; [nra | lra].
    + intros Ha. rewrite (Alo Ha). reflexivity.
    + intros Hb. rewrite (Bhi Hb). reflexivity.
  - (* EaseIn: t * t *)
    repeat split.
    + nra.
    + nra.
    + nra.
    + intros Ha. rewrite (Alo Ha). reflexivity.
    + intros Hb. rewrite (Bhi Hb). reflexivity.
  - (* EaseOut: 1 - (1 - t) * (1 - t) *)
    repeat split.
    + nra.
    + nra.
    + nra.
    + intros Ha. rewrite (Alo Ha). reflexivity.
    + intros Hb. rewrite (Bhi Hb). reflexivity.
Qed.

Lemma delayUS_nonneg (options : TextMotionOptions) :
  exists d : Q, delayUS options = Fin d /\ (0 <= d)%Q.
Proof.
  unfold delayUS, FP.max, FP.lt, FP.zero.
  destruct (effectDelay options) as [| d]; simpl.
  - exists 0%Q. split; [reflexivity | lra].
  - destruct (Qle_bool d 0) eqn:Ed; simpl.
    + exists 0%Q. split; [reflexivity | lra].
    + assert (~ (d <= 0)%Q) by (rewrite <- Qle_bool_iff; congruence).
      exists d. split; [reflexivity | lra].
Qed.

Lemma stagger_offsets_spec (options : TextMotionOptions) (rangeCount i j : nat) :
  (i <= j)%nat -> (j < rangeCount)%nat ->
  exists oi oj total : Q,
    offsetUS options rangeCount i = Fin oi /\
    offsetUS options rangeCount j = Fin oj /\
    totalStaggerUS options rangeCount = Fin total /\
    (0 <= oi)%Q /\ (oi <= oj)%Q /\ (oj <= total)%Q /\
    (i = 0%nat -> (oi == 0)%Q) /\
    (effect options <> TextMotionEffect.None -> j = (rangeCount - 1)%nat ->
     (oj == total)%Q).
Proof.
  intros Hij Hj.
  destruct (delayUS_nonneg options) as (d & Ed & Hd).
  assert (HI : (0 <= inject_Z (Z.of_nat i))%Q)
    by (change 0%Q with (inject_Z 0); rewrite <- Zle_Qle; lia).
  assert (HIJ : (inject_Z (Z.of_nat i) <= inject_Z (Z.of_nat j))%Q)
    by (rewrite <- Zle_Qle; lia).
  assert (HJN : (inject_Z (Z.of_nat j) <= inject_Z (Z.of_nat (rangeCount - 1)))%Q)
    by (rewrite <- Zle_Qle; lia).
  set (I := inject_Z (Z.of_nat i)) in *.
  set (J := inject_Z (Z.of_nat j)) in *.
  set (N := inject_Z (Z.of_nat (rangeCount - 1))) in *.
  assert (Htotal : exists total : Q,
             totalStaggerUS options rangeCount = Fin total /\
             ((1 < rangeCount)%nat -> total = (d * N)%Q) /\
             (~ (1 < rangeCount)%nat -> total = 0%Q)).
  { unfold totalStaggerUS. rewrite Ed.
    destruct (Nat.ltb_spec 1 rangeCount) as [Hn | Hn].
    - eexists. split; [reflexivity |]. split; [reflexivity | lia].
    - eexists. split; [reflexivity |]. split; [lia | reflexivity]. }
  destruct Htotal as (total & Et & Tmany & Tone).
  assert (Hzero : ~ (1 < rangeCount)%nat \/ effect options = TextMotionEffect.None ->
                  offsetUS options rangeCount i = Fin 0 /\
                  offsetUS options rangeCount j = Fin 0).
  { intros Hz. unfold offsetUS.
    destruct (effect options); [split; reflexivity | |];
      (destruct Hz as [Hz | Hz]; [| discriminate]);
      (destruct (Nat.ltb_spec 1 rangeCount); [lia | split; reflexivity]). }
  assert (Htot0 : (0 <= total)%Q).
  { destruct (lt_dec 1 rangeCount) as [Hn | Hn].
    - rewrite (Tmany Hn). apply Qmult_le_0_compat; [exact Hd | lra].
    - rewrite (Tone Hn). lra. }
  destruct (lt_dec 1 rangeCount) as [Hn | Hn].
  2:{ destruct (Hzero (or_introl Hn)) as [Ei Ej].
      exists 0%Q, 0%Q, total. rewrite Ei, Ej, Et.
      repeat split; try lra.
      intros _ _. rewrite (Tone Hn). reflexivity. }
  assert (Hdec : effect options = TextMotionEffect.None \/
                 effect options <> TextMotionEffect.None)
    by (destruct (effect options); [by left | by right | by right]).
  destruct Hdec as [Hnone | Hsome].
  { destruct (Hzero (or_intror Hnone)) as [Ei Ej].
    exists 0%Q, 0%Q, total. rewrite Ei, Ej, Et.
    repeat split; try lra. intros Hne. contradiction. }
  assert (Hoff : forall k : nat,
            offsetUS options rangeCount k =
            match effectSmooth options with
            | TextMotionEffectSmooth.None =>
                FP.mul (delayUS options) (FP.of_int (Z.of_nat k))
            | smooth =>
                FP.mul (ApplyEffectSmooth smooth
                          (FP.div (FP.of_int (Z.of_nat k))
                                  (FP.of_int (Z.of_nat (rangeCount - 1)))))
                       (totalStaggerUS options rangeCount)
            end).
  { intros k. unfold offsetUS.
    destruct (effect options); [contradiction | |];
      (destruct (Nat.ltb_spec 1 rangeCount); [reflexivity | lia]). }
  assert (HN : (1 <= N)%Q) by (subst N; change 1%Q with (inject_Z 1); rewrite <- Zle_Qle; lia).
  rewrite (Tmany Hn) in *.
  assert (Hsmooth : forall smooth : TextMotionEffectSmooth.t,
            (forall k : nat,
               offsetUS options rangeCount k =
               FP.mul (ApplyEffectSmooth smooth
                         (FP.div (FP.of_int (Z.of_nat k))
                                 (FP.of_int (Z.of_nat (rangeCount - 1)))))
                      (totalStaggerUS options rangeCount)) ->
            smooth <> TextMotionEffectSmooth.None ->
            exists oi oj total' : Q,
              offsetUS options rangeCount i = Fin oi /\
              offsetUS options rangeCount j = Fin oj /\
              totalStaggerUS options rangeCount = Fin total' /\
              (0 <= oi)%Q /\ (oi <= oj)%Q /\ (oj <= total')%Q /\
              (i = 0%nat -> (oi == 0)%Q) /\
              (effect options <> TextMotionEffect.None -> j = (rangeCount - 1)%nat ->
               (oj == total')%Q)).
  { intros smooth Hk _.
    assert (Hdiv : forall k : nat,
              FP.div (FP.of_int (Z.of_nat k)) (FP.of_int (Z.of_nat (rangeCount - 1))) =
              Fin (inject_Z (Z.of_nat k) / N)).
    { intros k. unfold FP.div, FP.of_int. fold N.
      destruct (Qeq_bool N 0) eqn:E0; [| reflexivity].
      apply Qeq_bool_iff in E0. lra. }
    assert (Hab : (I / N <= J / N)%Q).
    { unfold Qdiv. apply Qmult_le_compat_r; [exact HIJ |].
      apply Qlt_le_weak, Qinv_lt_0_compat. lra. }
    destruct (ApplyEffectSmooth_unit smooth (I / N) (J / N) Hab)
      as (va & vb & Eva & Evb & V0 & Vab & V1 & Vlo & Vhi & _).
    exists (va * (d * N))%Q, (vb * (d * N))%Q, (d * N)%Q.
    rewrite !Hk, !Hdiv, Et. fold I J. rewrite Eva, Evb.
    split; [reflexivity |]. split; [reflexivity |]. split; [reflexivity |].
    repeat split.
    - apply Qmult_le_0_compat; assumption.
    - apply Qmult_le_compat_r; assumption.
    - rewrite <- (Qmult_1_l (d * N)) at 2. apply Qmult_le_compat_r; assumption.
    - intros Hi. rewrite Vlo; [ring |].
      assert (HI0 : (I == 0)%Q) by (subst I; rewrite Hi; reflexivity).
      rewrite HI0. unfold Qdiv. rewrite Qmult_0_l. lra.
    - intros _ Hlast. rewrite Vhi; [ring |].
      assert (HJ1 : (J == N)%Q) by (subst J N; rewrite Hlast; reflexivity).
      rewrite HJ1. unfold Qdiv. rewrite Qmult_inv_r by lra. lra. }
  destruct (effectSmooth options) eqn:Esm.
  - exists (d * I)%Q, (d * J)%Q, (d * N)%Q.
    rewrite !Hoff, Ed, Et. unfold FP.mul, FP.of_int. simpl. fold I J.
    repeat split; try nra.
    + intros Hi. assert (I == 0)%Q by (subst I; rewrite Hi; reflexivity). nra.
    + intros _ Hlast. subst J N. rewrite Hlast. reflexivity.
  - apply (Hsmooth TextMotionEffectSmooth.Smooth); [exact Hoff | discriminate].
  - apply (Hsmooth TextMotionEffectSmooth.EaseIn); [exact Hoff | discriminate].
  - apply (Hsmooth TextMotionEffectSmooth.EaseOut); [exact Hoff | discriminate].
Qed.

(** X13. In exact arithmetic (no rounding, no overflow) and for a finite
    or NaN [effectDelay] (the model has no infinite delay; a negative or
    NaN delay counts as 0): the offsets at which the ranges start are in
    the order of the ranges. For i <= j the offset of range i is at most
    that of range j; all lie between 0 and the total stagger; the first
    range starts at 0 and, when the effect staggers at all, the last one at
    the total stagger. This holds for every smoothing mode. *)
Theorem stagger_offsets_ordered (options : TextMotionOptions) (rangeCount i j : nat) :
  (i <= j)%nat -> (j < rangeCount)%nat ->
  exists oi oj total : Q,
    offsetUS options rangeCount i = Fin oi /\
    offsetUS options rangeCount j = Fin oj /\
    totalStaggerUS options rangeCount = Fin total /\
    (0 <= oi)%Q /\ (oi <= oj)%Q /\ (oj <= total)%Q /\
    (i = 0%nat -> (oi == 0)%Q) /\
    (effect options <> TextMotionEffect.None -> j = (rangeCount - 1)%nat ->
     (oj == total)%Q).
Proof.
  exact (stagger_offsets_spec options rangeCount i j).
Qed.

(** X12. In exact arithmetic, for every smoothing mode
    [ApplyEffectSmooth] maps every finite number into [0, 1], sends every
    t <= 0 to 0 and every t >= 1 to 1, and leaves a NaN a NaN; for the
    modes None, EaseIn and EaseOut it never decreases. (For Smooth the
    order is not stated: the rounding of the product [t * t * (3 - 2 t)] in
    [double] can turn two neighbouring values round.) *)
Theorem ApplyEffectSmooth_range_and_order (smooth : TextMotionEffectSmooth.t) (a b : Q) :
  (a <= b)%Q ->
  exists va vb : Q,
    ApplyEffectSmooth smooth (Fin a) = Fin va /\
    ApplyEffectSmooth smooth (Fin b) = Fin vb /\
    (0 <= va)%Q /\ (va <= 1)%Q /\ (0 <= vb)%Q /\ (vb <= 1)%Q /\
    (smooth <> TextMotionEffectSmooth.Smooth -> (va <= vb)%Q) /\
    ((a <= 0)%Q -> (va == 0)%Q) /\ ((1 <= b)%Q -> (vb == 1)%Q) /\
    ApplyEffectSmooth smooth NaN = NaN.
Proof.
  intros Hab.
  destruct (ApplyEffectSmooth_unit smooth a b Hab)
    as (va & vb & Ea & Eb & H0 & Hle & H1 & Hlo & Hhi & Hnan).
  exists va, vb. repeat split; try assumption; try lra.
Qed.

End Stagger.

Lemma ApplyEffectSmooth_range_and_order_witness :
  exists va vb : Q,
    TextMotion.ApplyEffectSmooth TextMotionEffectSmooth.EaseIn (Fin (1 # 2)) = Fin va /\
    TextMotion.ApplyEffectSmooth TextMotionEffectSmooth.EaseIn (Fin 1) = Fin vb /\
    (va <= vb)%Q /\ (vb <= 1)%Q.
Proof.
  destruct (ApplyEffectSmooth_range_and_order TextMotionEffectSmooth.EaseIn (1 # 2) 1)
    as (va & vb & Ea & Eb & _ & _ & _ & Hb1 & Hab & _); [discriminate |].
  exists va, vb. repeat split; try assumption. apply Hab. discriminate.
Defined.

Lemma stagger_offsets_ordered_witness :
  exists oi oj : Q,
    TextMotion.offsetUS staggeredFade 3 1 = Fin oi /\
    TextMotion.offsetUS staggeredFade 3 2 = Fin oj /\
    (oi <= oj)%Q.
Proof.
  destruct (stagger_offsets_ordered staggeredFade 3 1 2)
    as (oi & oj & total & Ei & Ej & _ & _ & Hij & _); [lia | lia |].
  exists oi, oj. repeat split; assumption.
Defined.

(** ** The glyph transforms of the slide *)

Section GlyphProvider.

Import Slide SlideLeftGlyphProvider.

Variable p : SlideLeftGlyphProvider.t.
Variables time baseEased perGlyphDelay activeDuration : double.

Let step := computeGlyph p time baseEased perGlyphDelay activeDuration.

(** [Q i offset alpha flag]: what turn [i] of the loop writes to [dx] and
    [alpha], and whether it sets [applied]. *)
Variable Q : nat -> float -> float -> bool -> Prop.

Hypothesis step_writes : forall (out : Output) (i : nat),
  exists (offset a : float) (flag : bool),
    step out i = MkOutput (<[i := offset]> (dx out)) (<[i := FP.zero]> (dy out))
                   (<[i := a]> (alpha out)) (if flag then true else applied out) /\
    Q i offset a flag.

Lemma computeGlyph_loop (n : nat) :
  forall (s : nat) (out : Output),
    let r := foldl step out (seq s n) in
    (length (dx r) = length (dx out) /\ length (dy r) = length (dy out) /\
     length (alpha r) = length (alpha out)) /\
    (forall i : nat, ~ (s <= i < s + n)%nat ->
       dx r !! i = dx out !! i /\ dy r !! i = dy out !! i /\
       alpha r !! i = alpha out !! i) /\
    (forall i : nat, (s <= i < s + n)%nat ->
       exists (offset a : float) (flag : bool),
         Q i offset a flag /\
         ((i < length (dx out))%nat -> dx r !! i = Some offset) /\
         ((i < length (dy out))%nat -> dy r !! i = Some FP.zero) /\
         ((i < length (alpha out))%nat -> alpha r !! i = Some a)) /\
    ((forall i offset a flag, (s <= i < s + n)%nat -> Q i offset a flag -> flag = true) ->
     (0 < n)%nat -> applied r = true) /\
    ((forall i offset a flag, (s <= i < s + n)%nat -> Q i offset a flag -> flag = false) ->
     applied r = applied out).
Proof.
  induction n as [| n IH]; intros s out; cbn zeta.
  - simpl. repeat split; try reflexivity; intros; lia.
  - simpl seq. simpl foldl.
    destruct (step_writes out s) as (off & a & fl & Es & HQ).
    specialize (IH (S s) (step out s)). cbn zeta in IH.
    destruct IH as ((L1 & L2 & L3) & Hout & Hin & Htrue & Hfalse).
    assert (S1 : length (dx (step out s)) = length (dx out))
      by (rewrite Es; simpl; apply length_insert).
    assert (S2 : length (dy (step out s)) = length (dy out))
      by (rewrite Es; simpl; apply length_insert).
    assert (S3 : length (alpha (step out s)) = length (alpha out))
      by (rewrite Es; simpl; apply length_insert).
    assert (W1 : forall i, i <> s -> dx (step out s) !! i = dx out !! i)
      by (intros i Hi; rewrite Es; simpl; apply list_lookup_insert_ne; congruence).
    assert (W2 : forall i, i <> s -> dy (step out s) !! i = dy out !! i)
      by (intros i Hi; rewrite Es; simpl; apply list_lookup_insert_ne; congruence).
    assert (W3 : forall i, i <> s -> alpha (step out s) !! i = alpha out !! i)
      by (intros i Hi; rewrite Es; simpl; apply list_lookup_insert_ne; congruence).
    assert (A1 : applied (step out s) = if fl then true else applied out)
      by (rewrite Es; reflexivity).
    split; [repeat split; congruence |].
    split; [| split; [| split]].
    + intros i Hi. destruct (Hout i ltac:(lia)) as (O1 & O2 & O3).
      rewrite O1, O2, O3, W1, W2, W3 by lia. repeat split; reflexivity.
    + intros i Hi. destruct (decide (i = s)) as [-> | Hne].
      * exists off, a, fl. split; [exact HQ |].
        destruct (Hout s ltac:(lia)) as (O1 & O2 & O3).
        repeat split; intros Hlen.
        -- etrans; [exact O1 |]. rewrite Es. simpl. apply list_lookup_insert_eq. exact Hlen.
        -- etrans; [exact O2 |]. rewrite Es. simpl. apply list_lookup_insert_eq. exact Hlen.
        -- etrans; [exact O3 |]. rewrite Es. simpl. apply list_lookup_insert_eq. exact Hlen.
      * destruct (Hin i ltac:(lia)) as (off' & a' & fl' & HQ' & I1 & I2 & I3).
        exists off', a', fl'. split; [exact HQ' |].
        rewrite S1 in I1. rewrite S2 in I2. rewrite S3 in I3.
        repeat split; assumption.
    + intros Hall _. destruct n as [| n'].
      * cbn [foldl seq]. rewrite A1, (Hall s off a fl ltac:(lia) HQ). reflexivity.
      * apply Htrue; [| lia]. intros i o a' f Hi. apply Hall. lia.
    + intros Hall. rewrite Hfalse, A1, (Hall s off a fl ltac:(lia) HQ); [reflexivity |].
      intros i o a' f Hi. apply Hall. lia.
Qed.

End GlyphProvider.

Section GlyphProviderFacts.

Import Slide SlideLeftGlyphProvider.

Ltac qb E :=
  first [ apply Qle_bool_iff in E
        | apply not_true_iff_false in E; rewrite Qle_bool_iff in E ].

Lemma providerState_fields (duration : Z) (delta : Q) (stagger trailing : double)
    (p : SlideLeftGlyphProvider.t) :
  providerState duration delta stagger trailing p ->
  durationUS p = Z.max duration 1 /\
  translationDeltaX p = Fin delta /\
  exists s tr : Q,
    staggerFraction p = Fin s /\ (0 <= s)%Q /\ (s <= 95 # 100)%Q /\
    trailingFactor p = Fin tr /\ (0 <= tr)%Q.
Proof.
  induction 1 as [| progress p Hp IH]; [| exact IH].
  split; [reflexivity |]. split; [reflexivity |].
  assert (Hs : exists s : Q, FP.max FP.zero (FP.min stagger (Fin (95 # 100))) = Fin s /\
                 (0 <= s)%Q /\ (s <= 95 # 100)%Q).
  { unfold FP.max, FP.min, FP.lt, FP.zero. destruct stagger as [| x]; simpl.
    - exists 0%Q. repeat split; [lra | discriminate].
    - destruct (Qle_bool x (95 # 100)) eqn:E1; simpl; qb E1.
      + destruct (Qle_bool x 0) eqn:E2; simpl; qb E2.
        * exists 0%Q. repeat split; [lra | discriminate].
        * exists x. repeat split; lra.
      + exists (95 # 100)%Q. repeat split; [discriminate | lra]. }
  assert (Ht : exists tr : Q, FP.max FP.zero trailing = Fin tr /\ (0 <= tr)%Q).
  { unfold FP.max, FP.lt, FP.zero. destruct trailing as [| x]; simpl.
    - exists 0%Q. split; [reflexivity | lra].
    - destruct (Qle_bool x 0) eqn:E2; simpl; qb E2.
      + exists 0%Q. split; [reflexivity | lra].
      + exists x. split; [reflexivity | lra]. }
  destruct Hs as (s & Es & S0 & S1). destruct Ht as (tr & Et & T0).
  exists s, tr. simpl. rewrite Es, Et. repeat split; assumption.
Qed.

Lemma glyphPhase_unit (T g A : Q) (i : nat) :
  (0 < A)%Q -> (0 <= glyphPhase T g A i)%Q /\ (glyphPhase T g A i <= 1)%Q.
Proof.
  intros HA. unfold glyphPhase. cbv zeta.
  set (local := (T - g * inject_Z (Z.of_nat i))%Q).
  destruct (Qle_bool local 0) eqn:E1; qb E1; [lra |].
  destruct (Qle_bool A local) eqn:E2; qb E2; [lra |].
  split.
  - apply Qle_shift_div_l; lra.
  - apply Qle_shift_div_r; lra.
Qed.

Lemma glyphPhase_antitone (T g A : Q) (i j : nat) :
  (0 < A)%Q -> (0 <= g)%Q -> (i <= j)%nat ->
  (glyphPhase T g A j <= glyphPhase T g A i)%Q.
Proof.
  intros HA Hg Hij.
  pose proof (glyphPhase_unit T g A i HA) as [Hi0 Hi1].
  pose proof (glyphPhase_unit T g A j HA) as [Hj0 Hj1].
  assert (HIJ : (inject_Z (Z.of_nat i) <= inject_Z (Z.of_nat j))%Q)
    by (rewrite <- Zle_Qle; lia).
  assert (Hl : (T - g * inject_Z (Z.of_nat j) <= T - g * inject_Z (Z.of_nat i))%Q) by nra.
  revert Hi0 Hi1 Hj0 Hj1. unfold glyphPhase. cbv zeta.
  set (li := (T - g * inject_Z (Z.of_nat i))%Q) in *.
  set (lj := (T - g * inject_Z (Z.of_nat j))%Q) in *.
  destruct (Qle_bool lj 0) eqn:J1; qb J1; [intros; lra |].
  destruct (Qle_bool li 0) eqn:I1; qb I1; [lra |].
  destruct (Qle_bool A li) eqn:I2; qb I2; [intros; lra |].
  destruct (Qle_bool A lj) eqn:J2; qb J2; [lra |].
  intros _ _ _ _. unfold Qdiv. apply Qmult_le_compat_r; [exact Hl |].
  apply Qlt_le_weak, Qinv_lt_0_compat, HA.
Qed.

Lemma cubicOut_unit (c : Q) :
  (0 <= c)%Q -> (c <= 1)%Q -> (0 <= cubicOut c)%Q /\ (cubicOut c <= 1)%Q.
Proof.
  intros H0 H1. unfold cubicOut.
  assert (0 <= (1 - c) * (1 - c))%Q by nra.
  assert ((1 - c) * (1 - c) <= 1)%Q by nra.
  split; nra.
Qed.

Lemma cubicOut_monotone (a b : Q) :
  (0 <= a)%Q -> (a <= b)%Q -> (b <= 1)%Q -> (cubicOut a <= cubicOut b)%Q.
Proof.
  intros H0 Hab H1. unfold cubicOut.
  assert ((1 - b) * (1 - b) <= (1 - a) * (1 - a))%Q by nra.
  assert (0 <= (1 - b) * (1 - b))%Q by nra.
  nra.
Qed.

Lemma EaseOutCubic_cubicOut (c : Q) :
  (0 <= c)%Q -> (c <= 1)%Q -> EaseOutCubic (Fin c) = Fin (cubicOut c).
Proof.
  intros H0 H1. unfold EaseOutCubic. cbv zeta. rewrite Clamp01_unit by assumption.
  reflexivity.
Qed.

Lemma computeGlyph_writes (p : SlideLeftGlyphProvider.t) (T b g A delta tr : Q) :
  translationDeltaX p = Fin delta -> trailingFactor p = Fin tr -> (0 < A)%Q ->
  forall (out : Output) (i : nat),
    exists (offset a : float) (flag : bool),
      computeGlyph p (Fin T) (Fin b) (Fin g) (Fin A) out i =
        MkOutput (<[i := offset]> (dx out)) (<[i := FP.zero]> (dy out))
          (<[i := a]> (alpha out)) (if flag then true else applied out) /\
      glyphWrites T b g A delta tr i offset a flag.
Proof.
  intros Hd Htr HA out i.
  pose proof (glyphPhase_unit T g A i HA) as [C0 C1].
  pose proof (cubicOut_unit _ C0 C1) as [E0 E1].
  assert (Ht : (let local := FP.sub (Fin T) (FP.mul (Fin g) (FP.of_int (Z.of_nat i))) in
                if FP.le local FP.zero then FP.zero
                else if FP.ge local (Fin A) then FP.one
                else FP.div local (Fin A)) = Fin (glyphPhase T g A i)).
  { unfold glyphPhase. cbv zeta. unfold FP.ge, FP.le, FP.sub, FP.mul, FP.div, FP.of_int,
      FP.lift2, FP.zero, FP.one.
    destruct (Qle_bool (T - g * inject_Z (Z.of_nat i)) 0); [reflexivity |].
    destruct (Qle_bool A (T - g * inject_Z (Z.of_nat i))); [reflexivity |].
    destruct (Qeq_bool A 0) eqn:EA; [| reflexivity].
    apply Qeq_bool_iff in EA. lra. }
  cbv zeta in Ht. unfold computeGlyph. cbv zeta. rewrite Ht, Hd, Htr.
  rewrite EaseOutCubic_cubicOut by assumption.
  rewrite Clamp01_unit by assumption.
  eexists _, _, _. split; [| split; [reflexivity | split; reflexivity]].
  reflexivity.
Qed.

Lemma clamp_Fin (x hi : Q) :
  (0 <= hi)%Q ->
  exists T : Q, FP.clamp (Fin x) FP.zero (Fin hi) = Fin T /\
    (0 <= T)%Q /\ (T <= hi)%Q /\
    ((x <= 0)%Q -> (T == 0)%Q) /\ ((hi <= x)%Q -> (T == hi)%Q).
Proof.
  intros Hhi. unfold FP.clamp, FP.lt, FP.zero.
  destruct (Qle_bool 0 x) eqn:E0; simpl; qb E0.
  - destruct (Qle_bool x hi) eqn:E1; simpl; qb E1.
    + exists x. repeat split; try lra; intros; lra.
    + exists hi. repeat split; try lra; intros; lra.
  - exists 0%Q. repeat split; try lra; intros; lra.
Qed.

Lemma effectiveTime_Fin (p : SlideLeftGlyphProvider.t) (layerTimeUS : Z) :
  1 <= durationUS p ->
  exists x T : Q,
    (if FP.ge (manualTimeUS p) FP.zero then manualTimeUS p
     else FP.of_int layerTimeUS) = Fin x /\
    effectiveTime p layerTimeUS = Fin T /\
    (0 <= T)%Q /\ (T <= inject_Z (durationUS p))%Q /\
    ((x <= 0)%Q -> (T == 0)%Q) /\
    ((inject_Z (durationUS p) <= x)%Q -> (T == inject_Z (durationUS p))%Q).
Proof.
  intros HD.
  assert (HD' : (0 <= inject_Z (durationUS p))%Q)
    by (change 0%Q with (inject_Z 0); rewrite <- Zle_Qle; lia).
  assert (Hx : exists x : Q,
             (if FP.ge (manualTimeUS p) FP.zero then manualTimeUS p
              else FP.of_int layerTimeUS) = Fin x).
  { destruct (manualTimeUS p) as [| m]; simpl; [eexists; reflexivity |].
    destruct (Qle_bool 0 m); eexists; reflexivity. }
  destruct Hx as (x & Ex). exists x.
  destruct (clamp_Fin x (inject_Z (durationUS p)) HD') as (T & ET & T0 & T1 & Tlo & Thi).
  exists T. unfold effectiveTime. cbv zeta. rewrite Ex.
  repeat split; assumption.
Qed.

Lemma compute_constructed (duration : Z) (delta : Q) (stagger trailing : double)
    (p : SlideLeftGlyphProvider.t) (layerTimeUS totalGlyphs : Z)
    (dx0 dy0 alpha0 : list float) :
  providerState duration delta stagger trailing p ->
  0 < totalGlyphs ->
  exists T b g A s tr : Q,
    effectiveTime p layerTimeUS = Fin T /\
    (0 <= T)%Q /\ (T <= inject_Z (durationUS p))%Q /\
    (b == cubicOut (T / inject_Z (durationUS p)))%Q /\
    (0 <= g)%Q /\
    (g * inject_Z (totalGlyphs - 1) <= inject_Z (durationUS p) * s)%Q /\
    (A == inject_Z (durationUS p) - inject_Z (durationUS p) * s)%Q /\
    (0 <= s)%Q /\ (s <= 95 # 100)%Q /\ (0 <= tr)%Q /\
    translationDeltaX p = Fin delta /\ trailingFactor p = Fin tr /\
    compute p layerTimeUS totalGlyphs (Some dx0) (Some dy0) (Some alpha0) =
      (let r := foldl (computeGlyph p (Fin T) (Fin b) (Fin g) (Fin A))
                  (MkOutput dx0 dy0 alpha0 false) (seq 0 (Z.to_nat totalGlyphs)) in
       (applied r, (Some (dx r), Some (dy r), Some (alpha r)))).
Proof.
  intros Hp Hn.
  destruct (providerState_fields _ _ _ _ _ Hp) as (HD & Hdelta & s & tr & Es & S0 & S1 & Etr & T0).
  assert (HD1 : 1 <= durationUS p) by lia.
  destruct (effectiveTime_Fin p layerTimeUS HD1) as (x & T & _ & ET & TT0 & TT1 & _).
  set (D := inject_Z (durationUS p)) in *.
  assert (HDq : (1 <= D)%Q)
    by (subst D; change 1%Q with (inject_Z 1); rewrite <- Zle_Qle; lia).
  assert (HDne : Qeq_bool D 0 = false).
  { destruct (Qeq_bool D 0) eqn:E0; [| reflexivity]. apply Qeq_bool_iff in E0. lra. }
  assert (Hbase : (0 <= T / D)%Q /\ (T / D <= 1)%Q).
  { split; [apply Qle_shift_div_l | apply Qle_shift_div_r]; lra. }
  destruct Hbase as [B0 B1].
  assert (Hg : exists g : Q,
             (if 1 <? totalGlyphs
              then FP.div (Fin (D * s)) (FP.of_int (totalGlyphs - 1))
              else FP.zero) = Fin g /\
             (0 <= g)%Q /\ (g * inject_Z (totalGlyphs - 1) <= D * s)%Q).
  { destruct (Z.ltb_spec 1 totalGlyphs) as [Hmany | Hone].
    - assert (HN : (1 <= inject_Z (totalGlyphs - 1))%Q)
        by (change 1%Q with (inject_Z 1); rewrite <- Zle_Qle; lia).
      unfold FP.div, FP.of_int.
      destruct (Qeq_bool (inject_Z (totalGlyphs - 1)) 0) eqn:E0;
        [apply Qeq_bool_iff in E0; lra |].
      eexists. split; [reflexivity |]. split.
      + apply Qle_shift_div_l; [lra |]. nra.
      + unfold Qdiv. rewrite <- Qmult_assoc, (Qmult_comm (/ _)), Qmult_inv_r by lra. lra.
    - exists 0%Q. split; [reflexivity |]. split; [lra |].
      replace (totalGlyphs - 1) with 0 by lia. nra. }
  destruct Hg as (g & Eg & G0 & G1).
  exists T, (cubicOut (T / D)), g, (D - D * s)%Q, s, tr.
  repeat (split; [first [assumption | reflexivity] |]).
  unfold compute. destruct (Z.leb_spec totalGlyphs 0) as [| _]; [lia |].
  cbv zeta. rewrite ET.
  destruct (Z.ltb_spec 0 (durationUS p)) as [_ |]; [| lia].
  assert (Ebase : FP.div (Fin T) (FP.of_int (durationUS p)) = Fin (T / D)).
  { unfold FP.div, FP.of_int. fold D. rewrite HDne. reflexivity. }
  rewrite Ebase, EaseOutCubic_cubicOut by assumption.
  rewrite Es.
  assert (E1 : FP.of_int (durationUS p) = Fin D) by reflexivity.
  rewrite E1.
  assert (E2 : FP.mul (Fin D) (Fin s) = Fin (D * s)) by reflexivity.
  rewrite E2, Eg.
  assert (E3 : FP.sub (Fin D) (Fin (D * s)) = Fin (D - D * s)) by reflexivity.
  rewrite E3.
  assert (Eact : FP.le (Fin (D - D * s)) kEpsilon = false).
  { unfold FP.le, kEpsilon. destruct (Qle_bool (D - D * s) (1 # 1000000)) eqn:E; [| reflexivity].
    qb E. nra. }
  rewrite Eact. reflexivity.
Qed.

Lemma active_duration_positive (D s A : Q) :
  (1 <= D)%Q -> (0 <= s)%Q -> (s <= 95 # 100)%Q -> (A == D - D * s)%Q -> (0 < A)%Q.
Proof. intros HD S0 S1 ->. nra. Qed.

Lemma durationUS_rational (d : Z) : 1 <= d -> (1 <= inject_Z d)%Q.
Proof. intros Hd. change 1%Q with (inject_Z 1). rewrite <- Zle_Qle. exact Hd. Qed.

Lemma index_rational (i : nat) (n : Z) :
  Z.of_nat i < n -> (inject_Z (Z.of_nat i) <= inject_Z (n - 1))%Q /\
                    (0 <= inject_Z (Z.of_nat i))%Q.
Proof.
  intros Hi. split.
  - rewrite <- Zle_Qle. lia.
  - change 0%Q with (inject_Z 0). rewrite <- Zle_Qle. lia.
Qed.

(** X14. In exact arithmetic (no rounding, no overflow), for every
    provider the constructor makes from a finite [translationDeltaX] and a
    [stagger] and a [trailing] that are finite or NaN (no infinite
    parameter), after any calls of [setProgress] with finite or NaN
    arguments, and at every layer time, [compute] with non-null arrays and
    [totalGlyphs > 0] keeps the lengths of the arrays, leaves every entry
    at an index from [totalGlyphs] on untouched, writes 0 to [dy], writes
    to [alpha] numbers of [0, 1] that never increase with the glyph index,
    and writes to [dx] finite offsets of size at most
    |translationDeltaX| * trailingFactor. *)
Theorem compute_output_invariants (duration : Z) (delta : Q) (stagger trailing : double)
    (p : SlideLeftGlyphProvider.t) (layerTimeUS totalGlyphs : Z)
    (dx0 dy0 alpha0 : list float) :
  providerState duration delta stagger trailing p ->
  0 < totalGlyphs ->
  exists (dx1 dy1 alpha1 : list float) (tr : Q),
    (compute p layerTimeUS totalGlyphs (Some dx0) (Some dy0) (Some alpha0)).2 =
      (Some dx1, Some dy1, Some alpha1) /\
    trailingFactor p = Fin tr /\
    length dx1 = length dx0 /\ length dy1 = length dy0 /\
    length alpha1 = length alpha0 /\
    (forall i : nat, totalGlyphs <= Z.of_nat i ->
       dx1 !! i = dx0 !! i /\ dy1 !! i = dy0 !! i /\ alpha1 !! i = alpha0 !! i) /\
    (forall i : nat, Z.of_nat i < totalGlyphs -> (i < length dy0)%nat ->
       dy1 !! i = Some FP.zero) /\
    (forall i : nat, Z.of_nat i < totalGlyphs -> (i < length dx0)%nat ->
       exists q : Q, dx1 !! i = Some (Fin q) /\ (Qabs q <= Qabs delta * tr)%Q) /\
    (forall i j : nat, (i <= j)%nat -> Z.of_nat j < totalGlyphs ->
       (j < length alpha0)%nat ->
       exists ai aj : Q,
         alpha1 !! i = Some (Fin ai) /\ alpha1 !! j = Some (Fin aj) /\
         (0 <= aj)%Q /\ (aj <= ai)%Q /\ (ai <= 1)%Q).
Proof.
  intros Hp Hn.
  destruct (compute_constructed duration delta stagger trailing p layerTimeUS totalGlyphs
              dx0 dy0 alpha0 Hp Hn)
    as (T & b & g & A & s & tr & ET & T0 & T1 & Eb & G0 & G1 & EA & S0 & S1 & Tr0 &
        Hdelta & Htr & Ec).
  destruct (providerState_fields _ _ _ _ _ Hp) as (HD & _).
  pose proof (durationUS_rational (durationUS p) ltac:(lia)) as HDq.
  pose proof (active_duration_positive _ _ _ HDq S0 S1 EA) as HA.
  destruct (computeGlyph_loop p (Fin T) (Fin b) (Fin g) (Fin A)
              (glyphWrites T b g A delta tr)
              (computeGlyph_writes p T b g A delta tr Hdelta Htr HA)
              (Z.to_nat totalGlyphs) 0%nat (MkOutput dx0 dy0 alpha0 false))
    as ((L1 & L2 & L3) & Hout & Hin & _).
  cbv zeta in Ec. rewrite Ec. cbn [snd].
  eexists _, _, _, tr. split; [reflexivity |]. split; [exact Htr |].
  split; [exact L1 |]. split; [exact L2 |]. split; [exact L3 |].
  assert (Hb : (0 <= b)%Q /\ (b <= 1)%Q).
  { rewrite Eb. apply cubicOut_unit.
    - apply Qle_shift_div_l; lra.
    - apply Qle_shift_div_r; lra. }
  split; [| split; [| split]].
  - intros i Hi. apply Hout. lia.
  - intros i Hi Hlen. destruct (Hin i ltac:(lia)) as (off & a & fl & _ & _ & Hdy & _).
    apply Hdy. exact Hlen.
  - intros i Hi Hlen.
    destruct (Hin i ltac:(lia)) as (off & a & fl & (Eoff & _) & Hdx & _).
    subst off. eexists. split; [exact (Hdx Hlen) |].
    pose proof (glyphPhase_unit T g A i HA) as [C0 C1].
    pose proof (cubicOut_unit _ C0 C1) as [E0 E1].
    rewrite !Qabs_Qmult, (Qabs_pos tr) by exact Tr0.
    apply Qmult_le_compat_r; [| exact Tr0].
    rewrite <- (Qmult_1_l (Qabs delta)) at 2.
    apply Qmult_le_compat_r; [| apply Qabs_nonneg].
    apply Qabs_Qle_condition. lra.
  - intros i j Hij Hj Hlen.
    destruct (Hin i ltac:(lia)) as (offi & ai & fli & (_ & Eai & _) & _ & _ & Hai).
    destruct (Hin j ltac:(lia)) as (offj & aj & flj & (_ & Eaj & _) & _ & _ & Haj).
    simpl in Hai, Haj.
    subst ai aj. eexists _, _. split; [apply Hai; lia |].
    split; [exact (Haj Hlen) |].
    pose proof (glyphPhase_unit T g A i HA) as [Ci0 Ci1].
    pose proof (glyphPhase_unit T g A j HA) as [Cj0 Cj1].
    pose proof (glyphPhase_antitone T g A i j HA G0 Hij) as Hanti.
    pose proof (cubicOut_unit _ Ci0 Ci1) as [_ Ei1].
    pose proof (cubicOut_unit _ Cj0 Cj1) as [Ej0 _].
    pose proof (cubicOut_monotone _ _ Cj0 Hanti Ci1).
    repeat split; assumption.
Qed.

Lemma setProgress_time (p : SlideLeftGlyphProvider.t) (q : Q) :
  1 <= durationUS p ->
  exists m : Q,
    manualTimeUS (setProgress (Fin q) p) = Fin m /\
    FP.ge (Fin m) FP.zero = true /\
    ((1 <= q)%Q -> (m == inject_Z (durationUS p))%Q) /\
    ((q <= 0)%Q -> (m == 0)%Q).
Proof.
  intros HD. pose proof (durationUS_rational _ HD) as HDq.
  destruct (Clamp01_Fin q) as (c & Ec & C0 & C1).
  assert (Hends : ((1 <= q)%Q -> (c == 1)%Q) /\ ((q <= 0)%Q -> (c == 0)%Q)).
  { revert Ec. unfold Clamp01, FP.gt, FP.lt, FP.zero, FP.one.
    destruct (Qle_bool 0 q) eqn:E0; simpl; qb E0.
    - destruct (Qle_bool q 1) eqn:E1; simpl; qb E1; intros [= <-]; split; intros; lra.
    - intros [= <-]. split; intros; lra. }
  destruct Hends as [Hhi Hlo].
  exists (c * inject_Z (durationUS p))%Q. simpl. rewrite Ec. split; [reflexivity |].
  split.
  - unfold FP.ge, FP.le, FP.zero. apply Qle_bool_iff. nra.
  - split; intros Hq; [rewrite (Hhi Hq) | rewrite (Hlo Hq)]; ring.
Qed.

(** The time [compute] works with is the end of the slide, or its start. *)
Lemma effectiveTime_ends (duration : Z) (delta : Q) (stagger trailing : double)
    (p0 p : SlideLeftGlyphProvider.t) (layerTimeUS : Z) (T : Q) (atEnd : bool) :
  providerState duration delta stagger trailing p0 ->
  (exists q : Q, p = setProgress (Fin q) p0 /\
                 if atEnd then (1 <= q)%Q else (q <= 0)%Q) \/
  (p = new duration (Fin delta) stagger trailing /\
   if atEnd then durationUS p <= layerTimeUS else layerTimeUS <= 0) ->
  effectiveTime p layerTimeUS = Fin T ->
  if atEnd then (T == inject_Z (durationUS p))%Q else (T == 0)%Q.
Proof.
  intros Hp0 Hcase ET.
  destruct (providerState_fields _ _ _ _ _ Hp0) as (HD0 & _).
  assert (HD : 1 <= durationUS p).
  { destruct Hcase as [(q & -> & _) | (-> & _)]; simpl; lia. }
  destruct (effectiveTime_Fin p layerTimeUS HD) as (x & T' & Ex & ET' & _ & _ & Tlo & Thi).
  rewrite ET in ET'. injection ET' as <-.
  destruct Hcase as [(q & -> & Hq) | (-> & Hlt)].
  - destruct (setProgress_time p0 q ltac:(lia)) as (m & Em & Hge & Mhi & Mlo).
    rewrite Em, Hge in Ex. injection Ex as <-.
    change (durationUS (setProgress (Fin q) p0)) with (durationUS p0) in *.
    destruct atEnd.
    + apply Thi. rewrite (Mhi Hq). lra.
    + apply Tlo. rewrite (Mlo Hq). lra.
  - simpl in Ex. injection Ex as <-.
    destruct atEnd.
    + apply Thi. rewrite <- Zle_Qle. exact Hlt.
    + apply Tlo. change 0%Q with (inject_Z 0). rewrite <- Zle_Qle. exact Hlt.
Qed.

Lemma compute_end_state (duration : Z) (delta : Q) (stagger trailing : double)
    (p0 p : SlideLeftGlyphProvider.t) (layerTimeUS totalGlyphs : Z)
    (dx0 dy0 alpha0 : list float) :
  providerState duration delta stagger trailing p0 ->
  (exists q : Q, p = setProgress (Fin q) p0 /\ (1 <= q)%Q) \/
  (p = new duration (Fin delta) stagger trailing /\ durationUS p <= layerTimeUS) ->
  0 < totalGlyphs ->
  (Z.to_nat totalGlyphs <= length dx0)%nat ->
  (Z.to_nat totalGlyphs <= length alpha0)%nat ->
  exists dx1 dy1 alpha1 : list float,
    compute p layerTimeUS totalGlyphs (Some dx0) (Some dy0) (Some alpha0) =
      (true, (Some dx1, Some dy1, Some alpha1)) /\
    forall i : nat, Z.of_nat i < totalGlyphs ->
      exists x a : Q,
        dx1 !! i = Some (Fin x) /\ (x == 0)%Q /\
        alpha1 !! i = Some (Fin a) /\ (a == 1)%Q.
Proof.
  intros Hp0 Hcase Hn Ldx Lalpha.
  assert (Hp : providerState duration delta stagger trailing p).
  { destruct Hcase as [(q & -> & _) | (-> & _)]; by constructor. }
  destruct (compute_constructed duration delta stagger trailing p layerTimeUS totalGlyphs
              dx0 dy0 alpha0 Hp Hn)
    as (T & b & g & A & s & tr & ET & T0 & T1 & Eb & G0 & G1 & EA & S0 & S1 & Tr0 &
        Hdelta & Htr & Ec).
  destruct (providerState_fields _ _ _ _ _ Hp) as (HD & _).
  pose proof (durationUS_rational (durationUS p) ltac:(lia)) as HDq.
  pose proof (active_duration_positive _ _ _ HDq S0 S1 EA) as HA.
  pose proof (effectiveTime_ends duration delta stagger trailing p0 p layerTimeUS T true
                Hp0 Hcase ET) as HT.
  simpl in HT.
  assert (Hphase : forall i : nat, Z.of_nat i < totalGlyphs -> glyphPhase T g A i = 1%Q).
  { intros i Hi. destruct (index_rational i totalGlyphs Hi) as [I1 I0].
    unfold glyphPhase. cbv zeta.
    set (local := (T - g * inject_Z (Z.of_nat i))%Q).
    assert (Hl : (A <= local)%Q) by (subst local; nra).
    destruct (Qle_bool local 0) eqn:E1; qb E1; [lra |].
    destruct (Qle_bool A local) eqn:E2; qb E2; [reflexivity | contradiction]. }
  assert (Hb : (b == 1)%Q).
  { rewrite Eb. unfold cubicOut.
    assert (Hq : (T / inject_Z (durationUS p) == 1)%Q) by (rewrite HT; field; lra).
    rewrite Hq. reflexivity. }
  destruct (computeGlyph_loop p (Fin T) (Fin b) (Fin g) (Fin A)
              (glyphWrites T b g A delta tr)
              (computeGlyph_writes p T b g A delta tr Hdelta Htr HA)
              (Z.to_nat totalGlyphs) 0%nat (MkOutput dx0 dy0 alpha0 false))
    as (_ & _ & Hin & Htrue & _).
  cbv zeta in Ec. rewrite Ec.
  rewrite Htrue; [| | lia].
  2:{ intros i offset a flag Hi (_ & Ea & Efl). subst a flag.
      rewrite Hphase by lia. apply orb_true_r. }
  eexists _, _, _. split; [reflexivity |].
  intros i Hi.
  destruct (Hin i ltac:(lia)) as (off & a & fl & (Eoff & Ea & _) & Hdx & _ & Halpha).
  subst off a. rewrite Hphase in Hdx, Halpha by exact Hi. simpl in Hdx, Halpha.
  eexists _, _. split; [apply Hdx; lia |]. split; [| split; [apply Halpha; lia |]].
  - rewrite Hb. unfold cubicOut. ring.
  - reflexivity.
Qed.

(** X15. In exact arithmetic (no rounding, no overflow), on a provider
    the constructor made from a finite [translationDeltaX] and a [stagger]
    and a [trailing] that are finite or NaN (no infinite parameter): at the
    end of the slide, that is after [setProgress(q)] with a finite q >= 1,
    or on a new provider at a layer time of at least the duration,
    [compute] on arrays of at least [totalGlyphs > 0] entries returns
    [true] and leaves every glyph settled: offset 0 and alpha 1. *)
Theorem compute_settles_at_end (duration : Z) (delta : Q) (stagger trailing : double)
    (p0 p : SlideLeftGlyphProvider.t) (layerTimeUS totalGlyphs : Z)
    (dx0 dy0 alpha0 : list float) :
  providerState duration delta stagger trailing p0 ->
  (exists q : Q, p = setProgress (Fin q) p0 /\ (1 <= q)%Q) \/
  (p = new duration (Fin delta) stagger trailing /\ durationUS p <= layerTimeUS) ->
  0 < totalGlyphs ->
  (Z.to_nat totalGlyphs <= length dx0)%nat ->
  (Z.to_nat totalGlyphs <= length alpha0)%nat ->
  exists dx1 dy1 alpha1 : list float,
    compute p layerTimeUS totalGlyphs (Some dx0) (Some dy0) (Some alpha0) =
      (true, (Some dx1, Some dy1, Some alpha1)) /\
    forall i : nat, Z.of_nat i < totalGlyphs ->
      exists x a : Q,
        dx1 !! i = Some (Fin x) /\ (x == 0)%Q /\
        alpha1 !! i = Some (Fin a) /\ (a == 1)%Q.
Proof.
  exact (compute_end_state duration delta stagger trailing p0 p layerTimeUS totalGlyphs
           dx0 dy0 alpha0).
Qed.

Lemma compute_start_state (duration : Z) (delta : Q) (stagger trailing : double)
    (p0 p : SlideLeftGlyphProvider.t) (layerTimeUS totalGlyphs : Z)
    (dx0 dy0 alpha0 : list float) :
  providerState duration delta stagger trailing p0 ->
  (exists q : Q, p = setProgress (Fin q) p0 /\ (q <= 0)%Q) \/
  (p = new duration (Fin delta) stagger trailing /\ layerTimeUS <= 0) ->
  0 < totalGlyphs ->
  (Z.to_nat totalGlyphs <= length dx0)%nat ->
  (Z.to_nat totalGlyphs <= length alpha0)%nat ->
  exists dx1 dy1 alpha1 : list float,
    compute p layerTimeUS totalGlyphs (Some dx0) (Some dy0) (Some alpha0) =
      (false, (Some dx1, Some dy1, Some alpha1)) /\
    forall i : nat, Z.of_nat i < totalGlyphs ->
      exists x a : Q,
        dx1 !! i = Some (Fin x) /\ (x == 0)%Q /\
        alpha1 !! i = Some (Fin a) /\ (a == 0)%Q.
Proof.
  intros Hp0 Hcase Hn Ldx Lalpha.
  assert (Hp : providerState duration delta stagger trailing p).
  { destruct Hcase as [(q & -> & _) | (-> & _)]; by constructor. }
  destruct (compute_constructed duration delta stagger trailing p layerTimeUS totalGlyphs
              dx0 dy0 alpha0 Hp Hn)
    as (T & b & g & A & s & tr & ET & T0 & T1 & Eb & G0 & G1 & EA & S0 & S1 & Tr0 &
        Hdelta & Htr & Ec).
  destruct (providerState_fields _ _ _ _ _ Hp) as (HD & _).
  pose proof (durationUS_rational (durationUS p) ltac:(lia)) as HDq.
  pose proof (active_duration_positive _ _ _ HDq S0 S1 EA) as HA.
  pose proof (effectiveTime_ends duration delta stagger trailing p0 p layerTimeUS T false
                Hp0 Hcase ET) as HT.
  simpl in HT.
  assert (Hphase : forall i : nat, glyphPhase T g A i = 0%Q).
  { intros i.
    assert (I0 : (0 <= inject_Z (Z.of_nat i))%Q)
      by (change 0%Q with (inject_Z 0); rewrite <- Zle_Qle; lia).
    unfold glyphPhase. cbv zeta.
    set (local := (T - g * inject_Z (Z.of_nat i))%Q).
    assert (Hl : (local <= 0)%Q) by (subst local; nra).
    destruct (Qle_bool local 0) eqn:E1; qb E1; [reflexivity | contradiction]. }
  assert (Hb : (b == 0)%Q).
  { rewrite Eb. unfold cubicOut.
    assert (Hq : (T / inject_Z (durationUS p) == 0)%Q) by (rewrite HT; field; lra).
    rewrite Hq. reflexivity. }
  destruct (computeGlyph_loop p (Fin T) (Fin b) (Fin g) (Fin A)
              (glyphWrites T b g A delta tr)
              (computeGlyph_writes p T b g A delta tr Hdelta Htr HA)
              (Z.to_nat totalGlyphs) 0%nat (MkOutput dx0 dy0 alpha0 false))
    as (_ & _ & Hin & _ & Hfalse).
  cbv zeta in Ec. rewrite Ec.
  rewrite Hfalse.
  2:{ intros i offset a flag Hi (Eoff & Ea & Efl). subst offset a flag.
      rewrite Hphase. apply orb_false_iff. split; [| reflexivity].
      unfold FP.gt, FP.lt, FP.abs, kEpsilon. apply negb_false_iff, Qle_bool_iff.
      assert (Hz : ((cubicOut 0 - b) * delta * tr == 0)%Q)
        by (rewrite Hb; unfold cubicOut; ring).
      rewrite Hz. discriminate. }
  eexists _, _, _. split; [reflexivity |].
  intros i Hi.
  destruct (Hin i ltac:(lia)) as (off & a & fl & (Eoff & Ea & _) & Hdx & _ & Halpha).
  subst off a. rewrite Hphase in Hdx, Halpha. simpl in Hdx, Halpha.
  eexists _, _. split; [apply Hdx; lia |]. split; [| split; [apply Halpha; lia |]].
  - rewrite Hb. unfold cubicOut. ring.
  - reflexivity.
Qed.

(** X16. In exact arithmetic (no rounding, no overflow), on a provider
    the constructor made from a finite [translationDeltaX] and a [stagger]
    and a [trailing] that are finite or NaN (no infinite parameter): at the
    start of the slide, that is after [setProgress(q)] with a finite
    q <= 0, or on a new provider at a layer time of 0 or less, [compute] on
    arrays of at least [totalGlyphs > 0] entries writes offset 0 and
    alpha 0 for every glyph and returns [false], although it has written
    the arrays. *)
Theorem compute_at_start (duration : Z) (delta : Q) (stagger trailing : double)
    (p0 p : SlideLeftGlyphProvider.t) (layerTimeUS totalGlyphs : Z)
    (dx0 dy0 alpha0 : list float) :
  providerState duration delta stagger trailing p0 ->
  (exists q : Q, p = setProgress (Fin q) p0 /\ (q <= 0)%Q) \/
  (p = new duration (Fin delta) stagger trailing /\ layerTimeUS <= 0) ->
  0 < totalGlyphs ->
  (Z.to_nat totalGlyphs <= length dx0)%nat ->
  (Z.to_nat totalGlyphs <= length alpha0)%nat ->
  exists dx1 dy1 alpha1 : list float,
    compute p layerTimeUS totalGlyphs (Some dx0) (Some dy0) (Some alpha0) =
      (false, (Some dx1, Some dy1, Some alpha1)) /\
    forall i : nat, Z.of_nat i < totalGlyphs ->
      exists x a : Q,
        dx1 !! i = Some (Fin x) /\ (x == 0)%Q /\
        alpha1 !! i = Some (Fin a) /\ (a == 0)%Q.
Proof.
  exact (compute_start_state duration delta stagger trailing p0 p layerTimeUS totalGlyphs
           dx0 dy0 alpha0).
Qed.

End GlyphProviderFacts.

Lemma compute_output_invariants_witness :
  exists alpha1 : list float,
    (SlideLeftGlyphProvider.compute
       (SlideLeftGlyphProvider.new 1000 (Fin (- 200)) (Fin (6 # 10)) (Fin 1))
       500 2 (Some [NaN; NaN; NaN]) (Some [NaN; NaN; NaN]) (Some [NaN; NaN; NaN])).2.2
      = Some alpha1 /\
    alpha1 !! 2%nat = Some NaN.
Proof.
  destruct (compute_output_invariants 1000 (- 200) (Fin (6 # 10)) (Fin 1)
              (SlideLeftGlyphProvider.new 1000 (Fin (- 200)) (Fin (6 # 10)) (Fin 1))
              500 2 [NaN; NaN; NaN] [NaN; NaN; NaN] [NaN; NaN; NaN])
    as (dx1 & dy1 & alpha1 & tr & E & _ & _ & _ & _ & Hout & _);
    [constructor | reflexivity |].
  exists alpha1. split; [exact (f_equal snd E) |].
  destruct (Hout 2%nat) as (_ & _ & Ha); [discriminate | exact Ha].
Defined.

Lemma compute_settles_at_end_witness :
  (SlideLeftGlyphProvider.compute
     (SlideLeftGlyphProvider.setProgress (Fin 1)
        (SlideLeftGlyphProvider.new 1000 (Fin (- 200)) (Fin (6 # 10)) (Fin 1)))
     0 2 (Some [NaN; NaN]) (Some [NaN; NaN]) (Some [NaN; NaN])).1 = true.
Proof.
  destruct (compute_settles_at_end 1000 (- 200) (Fin (6 # 10)) (Fin 1)
              (SlideLeftGlyphProvider.new 1000 (Fin (- 200)) (Fin (6 # 10)) (Fin 1))
              (SlideLeftGlyphProvider.setProgress (Fin 1)
                 (SlideLeftGlyphProvider.new 1000 (Fin (- 200)) (Fin (6 # 10)) (Fin 1)))
              0 2 [NaN; NaN] [NaN; NaN] [NaN; NaN])
    as (dx1 & dy1 & alpha1 & E & _).
  - constructor.
  - left. exists 1%Q. split; [reflexivity | discriminate].
  - reflexivity.
  - simpl. lia.
  - simpl. lia.
  - exact (f_equal fst E).
Defined.

Lemma compute_at_start_witness :
  (SlideLeftGlyphProvider.compute
     (SlideLeftGlyphProvider.new 1000 (Fin (- 200)) (Fin (6 # 10)) (Fin 1))
     0 2 (Some [NaN; NaN]) (Some [NaN; NaN]) (Some [NaN; NaN])).1 = false.
Proof.
  destruct (compute_at_start 1000 (- 200) (Fin (6 # 10)) (Fin 1)
              (SlideLeftGlyphProvider.new 1000 (Fin (- 200)) (Fin (6 # 10)) (Fin 1))
              (SlideLeftGlyphProvider.new 1000 (Fin (- 200)) (Fin (6 # 10)) (Fin 1))
              0 2 [NaN; NaN] [NaN; NaN] [NaN; NaN])
    as (dx1 & dy1 & alpha1 & E & _).
  - constructor.
  - right. split; [reflexivity | lia].
  - reflexivity.
  - simpl. lia.
  - simpl. lia.
  - exact (f_equal fst E).
Defined.

(** ** Reading a transform back *)

Section TransformRoundTrip.

Lemma DeepCloneProperty_idempotent {T : Type} (clone : Keyframe T -> Keyframe T)
    (src : option (Property T)) :
  (forall k, clone (clone k) = clone k) ->
  DeepCloneProperty clone (DeepCloneProperty clone src) = DeepCloneProperty clone src.
Proof.
  intros Hc. destruct src as [[v [kfs |]] |]; simpl; [| reflexivity | reflexivity].
  unfold AnimatableProperty_new. simpl. rewrite map_map.
  rewrite (map_ext _ clone) by (intros k; apply Hc).
  destruct (map clone kfs); reflexivity.
Qed.

Lemma DeepCloneProperty_is_Some {T : Type} (clone : Keyframe T -> Keyframe T)
    (src : option (Property T)) :
  is_Some (DeepCloneProperty clone src) <-> is_Some src.
Proof.
  destruct src as [[v [kfs |]] |]; simpl; split; intros H; eauto; by inversion H.
Qed.

Lemma DeepClone_Point_idempotent (src : option (Property Point)) :
  DeepClone_Point (DeepClone_Point src) = DeepClone_Point src.
Proof. apply DeepCloneProperty_idempotent. reflexivity. Qed.

Lemma DeepClone_float_idempotent (src : option (Property float)) :
  DeepClone_float (DeepClone_float src) = DeepClone_float src.
Proof. apply DeepCloneProperty_idempotent. reflexivity. Qed.

Lemma DeepClone_Opacity_idempotent (src : option (Property Opacity)) :
  DeepClone_Opacity (DeepClone_Opacity src) = DeepClone_Opacity src.
Proof. apply DeepCloneProperty_idempotent. reflexivity. Qed.

Lemma DeepClone_Point_Some (pp : Property Point) :
  exists q : Property Point,
    DeepClone_Point (Some pp) = Some q /\ DeepClone_Point (Some q) = Some q.
Proof.
  pose proof (DeepClone_Point_idempotent (Some pp)) as Hi.
  destruct (DeepClone_Point (Some pp)) as [q |] eqn:Eq.
  - exists q. split; [reflexivity | exact Hi].
  - destruct pp as [v [kfs |]]; discriminate.
Qed.

Lemma copyTransform2D_idempotent (t : Transform2D) :
  copyTransform2D (copyTransform2D t) = copyTransform2D t.
Proof.
  destruct t as [a p x y s r o].
  unfold copyTransform2D.
  cbn [anchorPoint position xPosition yPosition scale rotation opacity].
  rewrite !DeepClone_Point_idempotent, DeepClone_float_idempotent,
    DeepClone_Opacity_idempotent.
  destruct p as [pp |].
  - destruct (DeepClone_Point_Some pp) as (q & Eq & Eqq). rewrite Eq, Eqq. reflexivity.
  - rewrite !DeepClone_float_idempotent. reflexivity.
Qed.

Lemma writeTransform2D_complete (t target : Transform2D) :
  completeTransform t -> writeTransform2D t target = copyTransform2D t.
Proof.
  destruct t as [a p x y s r o].
  intros ([a' Ea] & [s' Es] & [r' Er] & [o' Eo] & Hpos). simpl in *. subst a s r o.
  unfold writeTransform2D, copyTransform2D. cbv zeta.
  cbn [anchorPoint position xPosition yPosition scale rotation opacity].
  destruct p as [pp |].
  - reflexivity.
  - destruct Hpos as [[pp Hpp] | ([px Epx] & [py Epy])]; [discriminate |].
    subst x y. reflexivity.
Qed.

Lemma Transform2D_ext (t u : Transform2D) :
  anchorPoint t = anchorPoint u -> position t = position u ->
  xPosition t = xPosition u -> yPosition t = yPosition u ->
  scale t = scale u -> rotation t = rotation u -> opacity t = opacity u ->
  t = u.
Proof. destruct t, u. simpl. by intros -> -> -> -> -> -> ->. Qed.

(** The members of the transform that [setTransform2D] leaves. *)
Lemma writeTransform2D_members (t target : Transform2D) :
  let pick {T : Type} (clone : option (Property T) -> option (Property T))
           (new old : option (Property T)) :=
    match new with
    | Some _ => clone new
    | None => old
    end in
  anchorPoint (writeTransform2D t target) =
    pick DeepClone_Point (anchorPoint t) (anchorPoint target) /\
  position (writeTransform2D t target) = DeepClone_Point (position t) /\
  xPosition (writeTransform2D t target) =
    match position t with
    | Some _ => None
    | None => pick DeepClone_float (xPosition t) (xPosition target)
    end /\
  yPosition (writeTransform2D t target) =
    match position t with
    | Some _ => None
    | None => pick DeepClone_float (yPosition t) (yPosition target)
    end /\
  scale (writeTransform2D t target) = pick DeepClone_Point (scale t) (scale target) /\
  rotation (writeTransform2D t target) =
    pick DeepClone_float (rotation t) (rotation target) /\
  opacity (writeTransform2D t target) =
    pick DeepClone_Opacity (opacity t) (opacity target).
Proof.
  cbv zeta. unfold writeTransform2D. cbv zeta.
  destruct (anchorPoint t), (position t);
    cbn [anchorPoint position xPosition yPosition scale rotation opacity];
    repeat split; reflexivity.
Qed.

Lemma writeTransform2D_own_copy (tr : Transform2D) :
  writeTransform2D (copyTransform2D tr) tr = copyTransform2D tr.
Proof.
  assert (Hp : forall (T : Type) (clone : Keyframe T -> Keyframe T)
                      (src : option (Property T)),
             (forall k, clone (clone k) = clone k) ->
             match DeepCloneProperty clone src with
             | Some _ => DeepCloneProperty clone (DeepCloneProperty clone src)
             | None => src
             end = DeepCloneProperty clone src).
  { intros T clone src Hc. rewrite DeepCloneProperty_idempotent by exact Hc.
    destruct src as [[v [kfs |]] |]; reflexivity. }
  pose proof (fun src => Hp Point CloneKeyframeDerived_Point src (fun _ => eq_refl)) as HP.
  pose proof (fun src => Hp float CloneKeyframeDerived_scalar src (fun _ => eq_refl)) as HF.
  pose proof (fun src => Hp Opacity CloneKeyframeDerived_scalar src (fun _ => eq_refl)) as HO.
  destruct (writeTransform2D_members (copyTransform2D tr) tr)
    as (Ma & Mp & Mx & My & Ms & Mr & Mo).
  cbv zeta in Ma, Mx, My, Ms, Mr, Mo.
  destruct tr as [a p x y s r o].
  apply Transform2D_ext.
  - rewrite Ma. apply HP.
  - rewrite Mp. cbn [copyTransform2D position].
    destruct p as [pp |]; [| reflexivity]. apply DeepClone_Point_idempotent.
  - rewrite Mx. cbn [copyTransform2D position xPosition].
    destruct p as [pp |].
    + destruct (DeepClone_Point_Some pp) as (q & Eq & _). rewrite Eq. reflexivity.
    + apply HF.
  - rewrite My. cbn [copyTransform2D position yPosition].
    destruct p as [pp |].
    + destruct (DeepClone_Point_Some pp) as (q & Eq & _). rewrite Eq. reflexivity.
    + apply HF.
  - rewrite Ms. apply HP.
  - rewrite Mr. apply HF.
  - rewrite Mo. apply HO.
Qed.

Lemma getTransform2D_transformOf (this : nat) (h : Store) :
  getTransform2D this h = copyTransform2D <$> transformOf this h.
Proof.
  unfold getTransform2D, transformOf.
  destruct (h !! this) as [l |]; [| reflexivity]. simpl.
  destruct (layer l) as [ly |]; [| reflexivity]. simpl.
  destruct (Text.transform ly); reflexivity.
Qed.

(** X17. On a layer object with a [Layer], [getTransform2D] after
    [setTransform2D(t)] returns a deep clone of [t] whenever [t] names every
    member (anchor point, scale, rotation, opacity, and the position either
    unified or as both x and y): nothing of the transform the layer had
    before shows through. *)
Theorem getTransform2D_after_setTransform2D (h : Store) (this : nat) (l : PAGLayer)
    (ly : Text.TextLayer) (t : Transform2D) :
  h !! this = Some l -> layer l = Some ly -> completeTransform t ->
  getTransform2D this (setTransform2D (Some t) this h) = Some (copyTransform2D t).
Proof.
  intros El Ely Ht.
  rewrite getTransform2D_transformOf, (setTransform2D_transform h this l ly t El Ely).
  simpl. rewrite writeTransform2D_complete by exact Ht.
  rewrite copyTransform2D_idempotent. reflexivity.
Qed.

(** X18. Writing back what [getTransform2D] returned does not change what
    [getTransform2D] returns, for every layer object (with or without a
    [Layer] or a transform). *)
Theorem setTransform2D_of_getTransform2D (h : Store) (this : nat) :
  getTransform2D this (setTransform2D (getTransform2D this h) this h) =
  getTransform2D this h.
Proof.
  destruct (getTransform2D this h) as [t |] eqn:Eg; [| exact Eg].
  rewrite getTransform2D_transformOf in Eg.
  unfold transformOf in Eg.
  destruct (h !! this) as [l |] eqn:El; [| discriminate]. simpl in Eg.
  destruct (layer l) as [ly |] eqn:Ely; [| discriminate]. simpl in Eg.
  destruct (Text.transform ly) as [tr |] eqn:Etr; [| discriminate]. simpl in Eg.
  injection Eg as <-.
  rewrite getTransform2D_transformOf,
    (setTransform2D_transform h this l ly (copyTransform2D tr) El Ely), Etr.
  simpl. rewrite writeTransform2D_own_copy, copyTransform2D_idempotent. reflexivity.
Qed.

End TransformRoundTrip.

Lemma getTransform2D_after_setTransform2D_witness :
  getTransform2D 0 (setTransform2D (Some Transform2D_MakeDefault) 0 sampleTextStore)
    = Some (copyTransform2D Transform2D_MakeDefault).
Proof.
  apply (getTransform2D_after_setTransform2D sampleTextStore 0
           (PAGLayer_new None (Some sampleTextLayer) 0) sampleTextLayer
           Transform2D_MakeDefault eq_refl eq_refl).
  unfold completeTransform. simpl. repeat split; eauto.
Defined.

(** ** Frames through any depth of nesting *)

Section DeepRoundTrip.

Lemma globalToLocalFrame_loop_shift (h : Store) (l l1 : PAGLayer) (o1 : nat)
    (rest : list nat) :
  h !! o1 = Some l1 ->
  forall (n : nat) (g : Z),
    globalToLocalFrame_loop h l (o1 :: rest) (S n) g =
    globalToLocalFrame_loop h l1 rest n g ≫= fun g' =>
      localFrameToChild l1 g' (frameRateInternal l).
Proof.
  intros E1. induction n as [| i IH]; intros g.
  - simpl. rewrite E1. simpl.
    destruct (localFrameToChild l1 g (frameRateInternal l)); reflexivity.
  - change (globalToLocalFrame_loop h l (o1 :: rest) (S (S i)) g) with
      (owner ← (o1 :: rest) !! S i ≫= (h !!.);
       childFrameRate ← frameRateInternal <$> ((o1 :: rest) !! i ≫= (h !!.));
       g' ← localFrameToChild owner g childFrameRate;
       globalToLocalFrame_loop h l (o1 :: rest) (S i) g').
    change (globalToLocalFrame_loop h l1 rest (S i) g) with
      (owner ← rest !! i ≫= (h !!.);
       childFrameRate ← match i with
                         | O => Some (frameRateInternal l1)
                         | S j => frameRateInternal <$> (rest !! j ≫= (h !!.))
                         end;
       g' ← localFrameToChild owner g childFrameRate;
       globalToLocalFrame_loop h l1 rest i g').
    change ((o1 :: rest) !! S i) with (rest !! i).
    destruct (rest !! i ≫= (h !!.)) as [owner |]; [| reflexivity]. simpl.
    assert (Hrate : frameRateInternal <$> ((o1 :: rest) !! i ≫= (h !!.)) =
                    match i with
                    | O => Some (frameRateInternal l1)
                    | S j => frameRateInternal <$> (rest !! j ≫= (h !!.))
                    end).
    { destruct i as [| j]; [simpl; rewrite E1; reflexivity | reflexivity]. }
    rewrite Hrate.
    destruct (match i with
              | O => Some (frameRateInternal l1)
              | S j => frameRateInternal <$> (rest !! j ≫= (h !!.))
              end) as [rate |]; [| reflexivity]. simpl.
    destruct (localFrameToChild owner g rate) as [g' |]; [| reflexivity]. simpl.
    apply IH.
Qed.

Lemma startSpan_nonneg (h : Store) (owners : list nat) : 0 <= startSpan h owners.
Proof. induction owners as [| o rest IH]; simpl; [lia |]. destruct (h !! o); lia. Qed.

Lemma round_trip_through_owners (h : Store) (owners : list nat) :
  forall (l : PAGLayer) (r : Q) (f : Z) (fuel : nat),
    frameRateInternal l = Fin r ->
    chainFrom (getTimelineOwner h) h (getTimelineOwner h l) owners ->
    ratesRise h r owners ->
    (r = 24%Q -> Z.abs f + startSpan h owners <= frameBound) ->
    2 * (Z.abs f + startSpan h owners) <= 5 * frameBound + 1 ->
    (length owners <= fuel)%nat ->
    exists G : Z,
      localFrameToGlobal_loop fuel h (getTimelineOwner h l) f (Fin r) = Some G /\
      timelineOwners fuel h (getTimelineOwner h l) = Some owners /\
      globalToLocalFrame_loop h l owners (length owners) G = Some f.
Proof.
  induction owners as [| o1 rest IH]; intros l r f fuel Hr Hc Hrise Hf24 Hf Hfuel.
  - inversion Hc as [Hnone |]. exists f.
    rewrite localFrameToGlobal_loop_root, timelineOwners_root. repeat split; reflexivity.
  - inversion Hc as [| p l1 rest' E1 Hrest Hown]; subst.
    destruct Hrise as (lo & ro & Elo & Hro & Hstep & Hrise).
    rewrite E1 in Elo. injection Elo as <-.
    destruct fuel as [| n]; simpl in Hfuel; [lia |].
    simpl in Hf, Hf24. rewrite E1 in Hf, Hf24.
    pose proof (startSpan_nonneg h rest) as Hspan.
    assert (Hbound : Z.abs f <= frameBound \/ (r = ro /\ Z.abs f < 4 * frameBound)).
    { destruct Hstep as [[-> ->] | [[-> ->] | [-> ->]]].
      - left. specialize (Hf24 eq_refl). lia.
      - left. specialize (Hf24 eq_refl). lia.
      - right. split; [reflexivity | unfold frameBound in *; lia]. }
    destruct (level_round_trip l1 f r ro Hro Hstep Hbound) as (g & Hu & Hd & Hsame & Hg).
    assert (Hnext : (ro = 24%Q ->
                     Z.abs (g + startFrame l1) + startSpan h rest <= frameBound) /\
                    2 * (Z.abs (g + startFrame l1) + startSpan h rest)
                      <= 5 * frameBound + 1).
    { destruct Hstep as [[-> ->] | [[-> ->] | [-> ->]]].
      - rewrite (Hsame eq_refl). specialize (Hf24 eq_refl). split; [intros _; lia | lia].
      - specialize (Hf24 eq_refl). split; [discriminate | lia].
      - rewrite (Hsame eq_refl). split; [discriminate | lia]. }
    destruct Hnext as [Hn24 Hn].
    destruct (IH l1 ro (g + startFrame l1) n Hro Hrest Hrise Hn24 Hn ltac:(lia))
      as (G & Hup & Hlist & Hdown).
    exists G. split; [| split].
    + simpl. rewrite E1. simpl. rewrite Hu. simpl. rewrite Hro. exact Hup.
    + simpl. rewrite E1. simpl. rewrite Hlist. reflexivity.
    + cbn [length]. rewrite (globalToLocalFrame_loop_shift h l l1 o1 rest E1), Hdown.
      simpl. rewrite Hr. exact Hd.
Qed.

(** X19. At any depth of nesting, computed in binary32 as the source
    computes it: when every frame rate from the layer up through its
    timeline owners is 24 or 60 and no owner runs at a lower rate than the
    layer below it, [globalToLocalFrame(localFrameToGlobal(f))] is [f] for
    every frame [f] with [|f| + s <= frameBound] (2^21), where [s] adds up
    the sizes of the owners' start frames. *)
Theorem round_trip_any_depth (h : Store) (this : nat) (l : PAGLayer) (r : Q)
    (owners : list nat) (f : Z) :
  h !! this = Some l ->
  frameRateInternal l = Fin r ->
  chainFrom (getTimelineOwner h) h (getTimelineOwner h l) owners ->
  ratesRise h r owners ->
  Z.abs f + startSpan h owners <= frameBound ->
  roundTrip this f h = Some f.
Proof.
  intros El Hr Hc Hrise Hf.
  pose proof (chainFrom_length _ _ _ _ Hc) as Hlen.
  pose proof (startSpan_nonneg h owners) as Hspan.
  assert (Hf2 : 2 * (Z.abs f + startSpan h owners) <= 5 * frameBound + 1)
    by (unfold frameBound in *; lia).
  destruct (round_trip_through_owners h owners l r f (size h) Hr Hc Hrise
              (fun _ => Hf) Hf2 Hlen)
    as (G & Hup & Hlist & Hdown).
  unfold roundTrip, localFrameToGlobal, globalToLocalFrame.
  rewrite El. simpl. rewrite Hr, Hup. simpl. rewrite Hlist. simpl. exact Hdown.
Qed.

End DeepRoundTrip.

Lemma deepStore_ratesRise : ratesRise deepStore 24 [2; 1; 0]%nat.
Proof.
  simpl. do 2 eexists. split; [reflexivity |]. split; [reflexivity |].
  split; [left; split; reflexivity |].
  do 2 eexists. split; [reflexivity |]. split; [reflexivity |].
  split; [right; left; split; reflexivity |].
  do 2 eexists. split; [reflexivity |]. split; [reflexivity |].
  split; [right; right; split; reflexivity | exact I].
Qed.

Lemma round_trip_any_depth_witness :
  roundTrip 3 7 deepStore = Some 7.
Proof.
  apply (round_trip_any_depth deepStore 3 (timedLayer 24 (Some 2%nat) 0) 24 [2; 1; 0]%nat 7).
  - reflexivity.
  - reflexivity.
  - repeat (econstructor; [reflexivity |]). constructor.
  - exact deepStore_ratesRise.
  - vm_compute. discriminate.
Defined.

(** ** The accessors of the web bindings *)

Section BindingFacts.

Import Transform2DBindings.

(** X20. [_setPosition(v)] on any transform, also one that has both kinds
    of position, leaves a transform with the unified position only, and
    the three position getters then agree with [v]; the other members and
    the keyframes of an existing position stay. *)
Theorem setPosition_unifies (t : Transform2D) (v : Point) :
  let t' := _setPosition t v in
  positionExclusive t' /\ xPosition t' = None /\ yPosition t' = None /\
  _getPosition t' = v /\ _getXPosition t' = x v /\ _getYPosition t' = y v /\
  (keyframes <$> position t' =
     Some (match position t with
           | Some p => keyframes p
           | None => None
           end)) /\
  _getAnchorPoint t' = _getAnchorPoint t /\ _getScale t' = _getScale t /\
  _getRotation t' = _getRotation t /\ _getOpacity t' = _getOpacity t.
Proof.
  cbv zeta. unfold positionExclusive, _setPosition, _getPosition, _getXPosition,
    _getYPosition, assignValue.
  destruct (position t) as [p |]; simpl; repeat split; auto.
Qed.

(** X21. On a transform that holds at most one kind of position,
    [_setXPosition(v)] and [_setYPosition(v)] are read back by their
    getters, leave the other coordinate as it was, keep the transform
    exclusive, and [_getPosition] shows the new coordinate. *)
Theorem setXPosition_setYPosition_read_back (t : Transform2D) (v : float) :
  positionExclusive t ->
  (let t' := _setXPosition t v in
   positionExclusive t' /\ _getXPosition t' = v /\
   _getYPosition t' = _getYPosition t /\
   _getPosition t' = MkPoint v (_getYPosition t)) /\
  (let t' := _setYPosition t v in
   positionExclusive t' /\ _getYPosition t' = v /\
   _getXPosition t' = _getXPosition t /\
   _getPosition t' = MkPoint (_getXPosition t) v).
Proof.
  unfold positionExclusive, _setXPosition, _setYPosition, _getPosition, _getXPosition,
    _getYPosition, assignValue.
  intros [Hp | [Hx Hy]].
  - rewrite Hp. cbv zeta. simpl.
    destruct (xPosition t) as [px |], (yPosition t) as [py |]; simpl;
      repeat split; auto.
  - rewrite Hx, Hy. cbv zeta.
    destruct (position t) as [p |]; simpl; repeat split; auto.
Qed.

(** X22. On a transform that holds a unified position and an [xPosition]
    at once, [_setXPosition(v)] is not read back: it writes the unified
    position, while [_getXPosition] goes on reading the old [xPosition]. *)
Theorem setXPosition_lost_when_both (t : Transform2D) (p : Property Point)
    (px : Property float) (v : float) :
  position t = Some p -> xPosition t = Some px ->
  _getXPosition (_setXPosition t v) = value px /\
  x (_getPosition (_setXPosition t v)) = v.
Proof.
  intros Hp Hx. unfold _setXPosition, _getXPosition, _getPosition.
  rewrite Hp. simpl. rewrite Hx. split; reflexivity.
Qed.

(** X23. The round through the bindings: take the transform of a layer
    with [getTransform2D], change a coordinate with [_setXPosition(v)] or
    [_setYPosition(v)], write it back with [setTransform2D]; if the
    position written to is not animated, [getTransform2D] then shows [v]
    for that coordinate. *)
Theorem position_edit_through_bindings (h : Store) (this : nat) (t : Transform2D)
    (v : float) :
  getTransform2D this h = Some t ->
  (forall p, position t = Some p -> keyframes p = None) ->
  (forall px, xPosition t = Some px -> keyframes px = None) ->
  (forall py, yPosition t = Some py -> keyframes py = None) ->
  _getXPosition <$> getTransform2D this (setTransform2D (Some (_setXPosition t v)) this h)
    = Some v /\
  _getYPosition <$> getTransform2D this (setTransform2D (Some (_setYPosition t v)) this h)
    = Some v.
Proof.
  intros Hget Hp Hx Hy.
  rewrite getTransform2D_transformOf in Hget. unfold transformOf in Hget.
  destruct (h !! this) as [l |] eqn:El; [| discriminate]. simpl in Hget.
  destruct (layer l) as [ly |] eqn:Ely; [| discriminate]. simpl in Hget.
  destruct (Text.transform ly) as [tr |] eqn:Etr; [| discriminate]. simpl in Hget.
  injection Hget as Ht.
  rewrite !getTransform2D_transformOf,
    !(setTransform2D_transform h this l ly _ El Ely), Etr.
  simpl.
  set (tx := writeTransform2D (_setXPosition t v) tr).
  set (ty := writeTransform2D (_setYPosition t v) tr).
  destruct (writeTransform2D_members (_setXPosition t v) tr) as (_ & Xp & Xx & _).
  destruct (writeTransform2D_members (_setYPosition t v) tr) as (_ & Yp & _ & Yy & _).
  cbv zeta in Xx, Yy. fold tx in Xp, Xx. fold ty in Yp, Yy.
  assert (Hexcl : position t = None \/ (xPosition t = None /\ yPosition t = None)).
  { rewrite <- Ht. simpl. destruct (position tr); [right; split; reflexivity | by left]. }
  unfold _getXPosition, _getYPosition, copyTransform2D.
  cbn [position xPosition yPosition].
  unfold _setXPosition in Xp, Xx. unfold _setYPosition in Yp, Yy.
  destruct (position t) as [p |] eqn:Ep.
  - specialize (Hp p eq_refl). destruct p as [pv pk]. simpl in Hp. subst pk.
    cbn [position xPosition yPosition value keyframes] in Xp, Xx, Yp, Yy.
    rewrite Xp, Yp. simpl. split; reflexivity.
  - cbn [position xPosition yPosition] in Xp, Xx, Yp, Yy.
    rewrite Xp, Yp, Xx, Yy.
    assert (Hax : DeepClone_float (assignValue v (xPosition t)) = Some (Property_new v)).
    { destruct (xPosition t) as [px |] eqn:Ex; [| reflexivity].
      specialize (Hx px eq_refl). simpl. rewrite Hx. reflexivity. }
    assert (Hay : DeepClone_float (assignValue v (yPosition t)) = Some (Property_new v)).
    { destruct (yPosition t) as [py |] eqn:Ey; [| reflexivity].
      specialize (Hy py eq_refl). simpl. rewrite Hy. reflexivity. }
    assert (Hsx : exists q, assignValue v (xPosition t) = Some q)
      by (destruct (xPosition t); eexists; reflexivity).
    assert (Hsy : exists q, assignValue v (yPosition t) = Some q)
      by (destruct (yPosition t); eexists; reflexivity).
    destruct Hsx as (qx & Eqx). destruct Hsy as (qy & Eqy).
    rewrite Eqx, Eqy. rewrite <- Eqx, <- Eqy, Hax, Hay. simpl. split; reflexivity.
Qed.

End BindingFacts.

Lemma setXPosition_setYPosition_read_back_witness :
  Transform2DBindings._getXPosition
    (Transform2DBindings._setXPosition Transform2D_MakeDefault (Fin 7)) = Fin 7.
Proof.
  destruct (setXPosition_setYPosition_read_back Transform2D_MakeDefault (Fin 7))
    as [(_ & H & _) _].
  - right. split; reflexivity.
  - exact H.
Defined.

Lemma setXPosition_lost_when_both_witness :
  Transform2DBindings._getXPosition
    (Transform2DBindings._setXPosition
       (MkTransform2D None (Some (Property_new Point_Zero))
          (Some (Property_new (Fin 1))) None None None None) (Fin 7)) = Fin 1.
Proof.
  destruct (setXPosition_lost_when_both
              (MkTransform2D None (Some (Property_new Point_Zero))
                 (Some (Property_new (Fin 1))) None None None None)
              (Property_new Point_Zero) (Property_new (Fin 1)) (Fin 7) eq_refl eq_refl)
    as [H _].
  exact H.
Defined.

Lemma position_edit_through_bindings_witness :
  Transform2DBindings._getXPosition <$>
    getTransform2D 0
      (setTransform2D
         (Some (Transform2DBindings._setXPosition
                  (copyTransform2D
                     (MkTransform2D None (Some (Property_new Point_Zero))
                        (Some (Property_new (Fin 1))) (Some (Property_new (Fin 2)))
                        None None None)) (Fin 7)))
         0 sampleTextStore)
    = Some (Fin 7).
Proof.
  destruct (position_edit_through_bindings sampleTextStore 0
              (copyTransform2D
                 (MkTransform2D None (Some (Property_new Point_Zero))
                    (Some (Property_new (Fin 1))) (Some (Property_new (Fin 2)))
                    None None None)) (Fin 7)) as [H _].
  - reflexivity.
  - intros p [= <-]. reflexivity.
  - intros px [=].
  - intros py [=].
  - exact H.
Defined.

(** ** The transform the slide preset writes *)

Section SlideTransform.

Context {E : External}.

Import Transform2DBindings.

Lemma Clamp01_ends (q : Q) :
  exists c : Q,
    Slide.Clamp01 (Fin q) = Fin c /\ (0 <= c)%Q /\ (c <= 1)%Q /\
    ((q <= 0)%Q -> (c == 0)%Q) /\ ((1 <= q)%Q -> (c == 1)%Q) /\
    ((0 <= q)%Q -> (q <= 1)%Q -> c = q).
Proof.
  unfold Slide.Clamp01, FP.gt, FP.lt, FP.zero, FP.one.
  destruct (Qle_bool 0 q) eqn:E0; simpl.
  - apply Qle_bool_iff in E0.
    destruct (Qle_bool q 1) eqn:E1; simpl.
    + apply Qle_bool_iff in E1. exists q. repeat split; try lra; intros; lra.
    + assert (~ (q <= 1)%Q) by (rewrite <- Qle_bool_iff; congruence).
      exists 1%Q. repeat split; try lra; intros; lra.
  - assert (~ (0 <= q)%Q) by (rewrite <- Qle_bool_iff; congruence).
    exists 0%Q. repeat split; try lra; intros; lra.
Qed.


End SlideTransform.


(** ** From the preset to the glyphs *)

Section PresetToGlyphs.

Context {E : External}.

Import SlideLeftGlyphProvider.

Lemma Make_glyphProvider (a : nat) (duration : Z) (sx ex : Q)
    (stagger trailing : double) (h : Store) (ps : SlideLeftPreset.t) :
  is_Some (h !! a) ->
  (SlideLeftPreset.Make (Some a) duration (Fin sx) (Fin ex) stagger trailing h).1 = Some ps ->
  SlideLeftPreset.weakLayer ps = Some a /\
  exists g0 : SlideLeftGlyphProvider.t,
    SlideLeftPreset.glyphProvider ps = Some g0 /\
    providerState duration (ex - sx) stagger trailing g0 /\
    g0 = setProgress FP.zero (new duration (Fin (ex - sx)) stagger trailing).
Proof.
  intros Ha. unfold SlideLeftPreset.Make. destruct (duration <=? 0); [discriminate |].
  cbn [fst]. intros [= <-].
  unfold SlideLeftPreset.new, SlideLeftPreset.lock. cbn [SlideLeftPreset.weakLayer].
  destruct (decide (is_Some (h !! a))) as [_ | Hn]; [| contradiction].
  unfold SlideLeftPreset.initialize, SlideLeftPreset.lock. cbn [SlideLeftPreset.weakLayer].
  destruct (decide (is_Some (h !! a))) as [_ | Hn]; [| contradiction].
  split; [reflexivity |]. eexists. split; [reflexivity |].
  split; [apply provider_setProgress, provider_new | reflexivity].
Qed.

(** X25. The preset drives its glyph provider. In exact arithmetic (no
    rounding, no overflow), for a preset made by [Make] with finite
    [startX] and [endX] and a [stagger] and a [trailing] that are finite or
    NaN (no infinite parameter), after [apply(q)] with a finite q on a live
    layer the provider the preset holds is at the same progress, whatever
    the layer time given to [compute]: for q >= 1 [compute] returns [true]
    with offset 0 and alpha 1 for every glyph, for q <= 0 it returns
    [false] with offset 0 and alpha 0 for every glyph. *)
Theorem apply_reaches_glyph_provider (a : nat) (duration : Z) (sx ex q : Q)
    (stagger trailing : double) (h h' : Store) (ps : SlideLeftPreset.t)
    (layerTimeUS totalGlyphs : Z) (dx0 dy0 alpha0 : list float) :
  is_Some (h !! a) ->
  (SlideLeftPreset.Make (Some a) duration (Fin sx) (Fin ex) stagger trailing h).1 = Some ps ->
  is_Some (h' !! a) ->
  ((1 <= q)%Q \/ (q <= 0)%Q) ->
  0 < totalGlyphs ->
  (Z.to_nat totalGlyphs <= length dx0)%nat ->
  (Z.to_nat totalGlyphs <= length alpha0)%nat ->
  exists (g : SlideLeftGlyphProvider.t) (dx1 dy1 alpha1 : list float),
    SlideLeftPreset.glyphProvider (SlideLeftPreset.apply (Fin q) ps h').1 = Some g /\
    compute g layerTimeUS totalGlyphs (Some dx0) (Some dy0) (Some alpha0) =
      (if Qle_bool 1 q then true else false, (Some dx1, Some dy1, Some alpha1)) /\
    forall i : nat, Z.of_nat i < totalGlyphs ->
      exists x al : Q,
        dx1 !! i = Some (Fin x) /\ (x == 0)%Q /\
        alpha1 !! i = Some (Fin al) /\ (al == if Qle_bool 1 q then 1 else 0)%Q.
Proof.
  intros Ha HMake Ha' Hq Hn Ldx Lalpha.
  destruct (Make_glyphProvider a duration sx ex stagger trailing h ps Ha HMake)
    as (Hweak & g0 & Hg0 & Hstate & _).
  destruct (Clamp01_ends q) as (c & Ec & C0 & C1 & Clo & Chi & _).
  assert (Hg : SlideLeftPreset.glyphProvider (SlideLeftPreset.apply (Fin q) ps h').1 =
               Some (setProgress (Fin c) g0)).
  { unfold SlideLeftPreset.apply, SlideLeftPreset.lock.
    cbn [SlideLeftPreset.weakLayer SlideLeftPreset.set_currentProgress
         SlideLeftPreset.currentProgress SlideLeftPreset.glyphProvider].
    rewrite Hweak. destruct (decide (is_Some (h' !! a))) as [_ | Hn']; [| contradiction].
    cbn [fst]. rewrite Hg0, Ec. reflexivity. }
  exists (setProgress (Fin c) g0).
  destruct Hq as [Hq | Hq].
  - assert (Hb : Qle_bool 1 q = true) by (apply Qle_bool_iff; exact Hq).
    rewrite Hb.
    destruct (compute_end_state duration (ex - sx) stagger trailing g0
                (setProgress (Fin c) g0) layerTimeUS totalGlyphs dx0 dy0 alpha0 Hstate)
      as (dx1 & dy1 & alpha1 & Ecomp & Hall); try assumption.
    { left. exists c. split; [reflexivity |]. rewrite (Chi Hq). lra. }
    exists dx1, dy1, alpha1. repeat split; assumption.
  - destruct (Qle_bool 1 q) eqn:Hb; [apply Qle_bool_iff in Hb; lra |].
    destruct (compute_start_state duration (ex - sx) stagger trailing g0
                (setProgress (Fin c) g0) layerTimeUS totalGlyphs dx0 dy0 alpha0 Hstate)
      as (dx1 & dy1 & alpha1 & Ecomp & Hall); try assumption.
    { left. exists c. split; [reflexivity |]. rewrite (Clo Hq). lra. }
    exists dx1, dy1, alpha1. repeat split; assumption.
Qed.

End PresetToGlyphs.

Lemma apply_reaches_glyph_provider_witness :
  exists g : SlideLeftGlyphProvider.t,
    SlideLeftPreset.glyphProvider
      (@SlideLeftPreset.apply Reference.external (Fin 1)
         (@SlideLeftPreset.new Reference.external (Some 0%nat) 3000000 (Fin 240) (Fin 40)
            (Fin (6 # 10)) (Fin 1) sampleTextStore).1 sampleTextStore).1 = Some g /\
    (SlideLeftGlyphProvider.compute g 0 2 (Some [NaN; NaN]) (Some [NaN; NaN])
       (Some [NaN; NaN])).1 = true.
Proof.
  destruct (@apply_reaches_glyph_provider Reference.external 0 3000000 240 40 1
              (Fin (6 # 10)) (Fin 1) sampleTextStore sampleTextStore
              (@SlideLeftPreset.new Reference.external (Some 0%nat) 3000000 (Fin 240) (Fin 40)
                 (Fin (6 # 10)) (Fin 1) sampleTextStore).1
              0 2 [NaN; NaN] [NaN; NaN] [NaN; NaN])
    as (g & dx1 & dy1 & alpha1 & Hg & Hc & _).
  - eexists. reflexivity.
  - reflexivity.
  - eexists. reflexivity.
  - left. discriminate.
  - reflexivity.
  - simpl. lia.
  - simpl. lia.
  - exists g. split; [exact Hg |]. exact (f_equal fst Hc).
Defined.

(** ** Where the generated keyframes lead *)

Section GeneratedKeyframes.

Context {E : External}.

Import TextMotion.

Lemma buildAnimators_typography (options : TextMotionOptions) (ly : Text.TextLayer)
    (rate : float) (doc : Text.TextDocument) (n rangeCount : nat)
    (ranges : list UnitRange) :
  forall lo i : nat,
    rangesWithin lo n ranges ->
    Forall (fun a => exists s e : Z,
                       Text.typographyProperties a = Some (makeTypography options doc s e))
      (buildAnimators options ly rate doc n rangeCount i ranges).
Proof.
  induction ranges as [| r rest IH]; intros lo i; simpl; [constructor |].
  intros (H1 & H2 & H3 & H4).
  rewrite makeAnimator_within by assumption.
  constructor; [eexists _, _; reflexivity | exact (IH _ (S i) H4)].
Qed.

(** X26. Every animator that [apply] generates carries exactly one
    keyframe; the keyframe is on the one property its type names (scale
    for Scale, position for Slide, rotation for Swing, opacity for Fade)
    and the other three properties are absent; and the keyframe ends at
    the value of text that is not animated: scale (1, 1), offset (0, 0),
    rotation 0, or full opacity. *)
Theorem generated_keyframes_end_at_rest (options : TextMotionOptions) (rate : float)
    (ly : Text.TextLayer) :
  Forall (fun a => length (keyframeSpans a) = 1%nat /\
                   exists tp : Text.TextAnimatorTypographyProperties,
                     Text.typographyProperties a = Some tp /\
                     animatesOnly (type options) tp /\ endsAtRest tp)
    (generatedAnimators options rate ly).
Proof.
  unfold generatedAnimators.
  destruct (Text.getTextDocument ly) as [doc |]; [| constructor].
  cbv zeta.
  eapply Forall_impl;
    [eapply buildAnimators_typography, BuildRanges_within |].
  intros a (s & e & Ha). unfold keyframeSpans. rewrite Ha.
  unfold makeTypography, endsAtRest, animatesOnly.
  destruct (type options); cbn;
    (split; [reflexivity |]); eexists; (split; [reflexivity |]);
    cbn; repeat split; repeat constructor.
Qed.

End GeneratedKeyframes.

(** ** The order of the generated keyframes *)

Section FrameOrder.

Context {E : External}.

Import TextMotion.

Lemma round_away_monotone (a b : Q) :
  (a <= b)%Q -> FP.round_away a <= FP.round_away b.
Proof.
  intros Hab. unfold FP.round_away.
  destruct (Qle_bool 0 a) eqn:Ea, (Qle_bool 0 b) eqn:Eb.
  - apply Qfloor_resp_le. lra.
  - apply Qle_bool_iff in Ea. apply not_true_iff_false in Eb.
    rewrite Qle_bool_iff in Eb. lra.
  - apply Qle_bool_iff in Eb. apply not_true_iff_false in Ea.
    rewrite Qle_bool_iff in Ea.
    transitivity 0.
    + change 0 with (Qceiling 0). apply Qceiling_resp_le. lra.
    + change 0 with (Qfloor 0). apply Qfloor_resp_le. lra.
  - apply Qceiling_resp_le. lra.
Qed.

Lemma clampEndFrame_monotone (s1 e1 s2 e2 lastFrame : Z) :
  s1 <= s2 -> e1 <= e2 ->
  clampEndFrame s1 e1 lastFrame <= clampEndFrame s2 e2 lastFrame.
Proof.
  intros Hs He. unfold clampEndFrame.
  repeat match goal with
         | |- context [?a <=? ?b] => destruct (Z.leb_spec a b)
         | |- context [?a <? ?b] => destruct (Z.ltb_spec a b)
         end; lia.
Qed.

Lemma durationUS_nonneg (options : TextMotionOptions) :
  exists d : Q, durationUS options = Fin d /\ (0 <= d)%Q.
Proof.
  unfold durationUS, FP.max, FP.lt, FP.zero.
  destruct (duration options) as [| d]; simpl.
  - exists 0%Q. split; [reflexivity | lra].
  - destruct (Qle_bool d 0) eqn:Ed; simpl.
    + exists 0%Q. split; [reflexivity | lra].
    + assert (~ (d <= 0)%Q) by (rewrite <- Qle_bool_iff; congruence).
      exists d. split; [reflexivity | lra].
Qed.

(** X27. In exact arithmetic (no rounding, no overflow), for a finite or
    NaN [effectDelay] and [duration], and as long as the total stagger plus
    the duration is of size below 2^63, so that every argument of
    [std::llround] is one it rounds to a [long long]: if [TimeToFrame] at
    the preset's frame rate never decreases with the time, the keyframes
    that [apply] generates follow the order of the ranges. For i <= j the
    keyframe of range i starts no later, and ends no later, than the
    keyframe of range j. *)
Theorem keyframes_follow_range_order (options : TextMotionOptions)
    (ly : Text.TextLayer) (rate : float) (rangeCount i j : nat) :
  llroundDefined (FP.add (totalStaggerUS options rangeCount) (durationUS options)) ->
  (forall t1 t2 : Z, t1 <= t2 -> TimeToFrame t1 rate <= TimeToFrame t2 rate) ->
  (i <= j)%nat -> (j < rangeCount)%nat ->
  rangeStartFrame options ly rate rangeCount i <=
    rangeStartFrame options ly rate rangeCount j /\
  rangeEndFrame options ly rate rangeCount i <=
    rangeEndFrame options ly rate rangeCount j.
Proof.
  intros _ Hmono Hij Hj.
  destruct (stagger_offsets_spec options rangeCount i j Hij Hj)
    as (oi & oj & total & Ei & Ej & _ & _ & Hle & _).
  destruct (durationUS_nonneg options) as (d & Ed & Hd).
  assert (Hstart : rangeStartFrame options ly rate rangeCount i <=
                   rangeStartFrame options ly rate rangeCount j).
  { unfold rangeStartFrame. rewrite Ei, Ej. simpl.
    pose proof (Hmono _ _ (round_away_monotone oi oj Hle)). lia. }
  split; [exact Hstart |].
  unfold rangeEndFrame. cbv zeta.
  apply clampEndFrame_monotone; [exact Hstart |].
  rewrite Ei, Ej, Ed. simpl.
  assert (Hsum : (oi + d <= oj + d)%Q) by lra.
  pose proof (Hmono _ _ (round_away_monotone _ _ Hsum)). lia.
Qed.

End FrameOrder.

Lemma Reference_TimeToFrame_monotone (r : Q) (t1 t2 : Z) :
  (0 <= r)%Q -> t1 <= t2 ->
  Reference.TimeToFrame t1 (Fin r) <= Reference.TimeToFrame t2 (Fin r).
Proof.
  intros Hr Ht. unfold Reference.TimeToFrame. apply Qfloor_resp_le.
  assert (H12 : (inject_Z t1 <= inject_Z t2)%Q) by (rewrite <- Zle_Qle; exact Ht).
  unfold Qdiv. apply Qmult_le_compat_r; [| discriminate].
  apply Qmult_le_compat_r; assumption.
Qed.

Lemma keyframes_follow_range_order_witness :
  @TextMotion.rangeStartFrame Reference.external staggeredFade (shortTextLayer "ab")
    (Fin 60) 2 0 <=
  @TextMotion.rangeStartFrame Reference.external staggeredFade (shortTextLayer "ab")
    (Fin 60) 2 1.
Proof.
  destruct (@keyframes_follow_range_order Reference.external staggeredFade
              (shortTextLayer "ab") (Fin 60) 2 0 1) as [H _].
  - vm_compute. discriminate.
  - intros t1 t2 Ht. apply (Reference_TimeToFrame_monotone 60 t1 t2); [discriminate | exact Ht].
  - lia.
  - lia.
  - exact H.
Defined.

(** ** Times through any depth of nesting *)

Section DeepTimes.

Context {E : External}.

Lemma globalLayerOf_chain (h : Store) (owners : list nat) :
  forall (l : PAGLayer) (fuel : nat),
    chainFrom (getTimelineOwner h) h (getTimelineOwner h l) owners ->
    (length owners <= fuel)%nat ->
    globalLayerOf fuel h l = topLayer h l owners.
Proof.
  induction owners as [| o1 rest IH]; intros l fuel Hc Hfuel.
  - inversion Hc as [Hnone |]. destruct fuel; simpl; rewrite <- Hnone; reflexivity.
  - inversion Hc as [| p l1 rest' E1 Hrest Hown]; subst.
    destruct fuel as [| n]; simpl in Hfuel; [lia |].
    simpl. rewrite <- Hown, E1. simpl.
    rewrite (IH l1 n Hrest) by lia.
    unfold topLayer. destruct rest as [| o2 rest2]; [simpl; by rewrite E1 |].
    rewrite last_cons_cons.
    destruct (last (o2 :: rest2)) eqn:Elast; [reflexivity |].
    apply last_None in Elast. discriminate.
Qed.

(** X28. At any depth of nesting, with the frame conversions computed in
    binary32: when every frame rate from the layer up through its timeline
    owners is 24 or 60, no owner runs at a lower rate than the layer below
    it, the frame [f] of the layer that contains [t] satisfies
    [|f| + s <= frameBound] (2^21; [s] adds up the sizes of the owners'
    start frames), and the time helpers map the time of a frame of the top
    layer back to that frame, [globalToLocalTime(localTimeToGlobal(t))] is
    the time of the frame [f],
    [FrameToTime(TimeToFrame(t, rate), rate)]. *)
Theorem time_round_trip_any_depth (h : Store) (this : nat) (l top : PAGLayer) (r : Q)
    (owners : list nat) (t : Z) :
  h !! this = Some l ->
  frameRateInternal l = Fin r ->
  chainFrom (getTimelineOwner h) h (getTimelineOwner h l) owners ->
  ratesRise h r owners ->
  Z.abs (TimeToFrame t (Fin r)) + startSpan h owners <= frameBound ->
  topLayer h l owners = Some top ->
  (forall f : Z,
     TimeToFrame (FrameToTime f (frameRateInternal top)) (frameRateInternal top) = f) ->
  localTimeToGlobal this t h ≫= (fun g => globalToLocalTime this g h) =
    Some (FrameToTime (TimeToFrame t (Fin r)) (Fin r)).
Proof.
  intros El Hr Hc Hrise Hf Htop Hlaw.
  pose proof (chainFrom_length _ _ _ _ Hc) as Hlen.
  pose proof (startSpan_nonneg h owners) as Hspan.
  set (f := TimeToFrame t (Fin r)) in *.
  assert (Hf2 : 2 * (Z.abs f + startSpan h owners) <= 5 * frameBound + 1)
    by (unfold frameBound in *; lia).
  destruct (round_trip_through_owners h owners l r f (size h)
              Hr Hc Hrise (fun _ => Hf) Hf2 Hlen)
    as (G & Hup & Hlist & Hdown).
  pose proof (globalLayerOf_chain h owners l (size h) Hc Hlen) as Hroot.
  rewrite Htop in Hroot.
  assert (Hl2g : localFrameToGlobal this f h = Some G).
  { unfold localFrameToGlobal. rewrite El. simpl. rewrite Hr. exact Hup. }
  assert (Hg2l : globalToLocalFrame this G h = Some f).
  { unfold globalToLocalFrame. rewrite El. simpl. rewrite Hlist. simpl. exact Hdown. }
  subst f. unfold localTimeToGlobal. rewrite El. simpl. rewrite Hr, Hl2g. simpl.
  rewrite Hroot. simpl.
  unfold globalToLocalTime. rewrite El. simpl. rewrite Hroot. simpl.
  rewrite Hlaw, Hg2l. simpl. rewrite Hr. reflexivity.
Qed.

End DeepTimes.

Lemma time_round_trip_any_depth_witness :
  @localTimeToGlobal Reference.external 3 500000 deepStore ≫=
    (fun g => @globalToLocalTime Reference.external 3 g deepStore) =
  Some (Reference.FrameToTime (Reference.TimeToFrame 500000 (Fin 24)) (Fin 24)).
Proof.
  apply (@time_round_trip_any_depth Reference.external deepStore 3
           (timedLayer 24 (Some 2%nat) 0) (timedLayer 60 None 0) 24 [2; 1; 0]%nat 500000).
  - reflexivity.
  - reflexivity.
  - repeat (econstructor; [reflexivity |]). constructor.
  - exact deepStore_ratesRise.
  - vm_compute. discriminate.
  - reflexivity.
  - intros f. apply (Reference_frame_of_frame_time 60 f); [reflexivity | discriminate].
Defined.
